(** * StackOrBolt: rules engine and alpha-beta search, embedded in Rocq

    A shallow embedding of the game core of the repository:
    - [GameState]  (src/modules/AiWorker.js, second half): [GridCell],
      [Player], [BoardState] with [applyMoveAndTurn] and [undoMove], [Move];
    - [GameLogic]  (src/modules/GameLogic.js): [playMove], [getLocalMoves],
      [getAllPossibleMoves], [stackTowers], [switchPlayer], [checkWin];
    - [MinimaxAB]  (src/modules/MinimaxAB.js): [getTerminalNodeState],
      [minimax], [findBestMove];
    and of the game around it:
    - main.js (src/unnamed/part_000): [createBoard], [createPlayer], the
      loop over the inputs of [saveCurrentSettings];
    - [GameEventLoop] (src/modules/GameEventLoop.js): [playUserMove],
      [playBotMove], [resetGame], with the message handler of the worker
      (src/modules/AiWorker.js);
    - [Logger] (src/modules/GameEventLoop.js, second half): the cursor of
      [LoggerReader];
    - [ReplayHistoryEventLoop] (src/unnamed/part_002): [updateSvg],
      [prettifyMoveNumber], [replayToSelectedBoardState];
    - [ConfigState] (src/modules/ConfigState.js): the factory settings and
      the setters of [Settings].

    Modelling conventions.
    - A JavaScript object that lives in an array of the board
      ([boardState.cells], [playerState.twoPlayer]) is referred to by its
      index in that array; a mutation of the object is an update of the
      array at that index.  Arrays of stones are immutable lists: the code
      never shares one stone array between two cells.
    - Counters, rows, columns and thresholds are integers ([Z]).  The
      numbers of the evaluation are IEEE 754 binary64 values, each held as
      the rational it denotes: a weight of [Settings] is the decimal that
      was set and is read as the number nearest to it ([js_number]), and
      every addition, subtraction and multiplication is the exact
      operation followed by the rounding of the format ([round64]: 53
      bits, the nearest number, of two nearest the one with the even
      mantissa, subnormal numbers included).  A score is such a number or
      one of the two infinities.  The two zeros are one number; no
      comparison of the program tells them apart.  The upper end of the
      format is outside the model: a result of magnitude 2^1024, where
      the machine gives [Infinity] and later [NaN], is not reached on a
      board of the data model with weights up to 2^100 ([inRange]).
    - A thrown [Error] is the outcome [Throw]; reading a property of
      [undefined] is [Throw TypeError].  The recursion of [minimax] is
      bounded by a fuel argument; running out of fuel is the outcome
      [Timeout], which is not an outcome of the program. *)

From Stdlib Require Import ZArith QArith Qcanon Qround Lia Orders OrdersTac.
From stdpp Require Import base tactics numbers option list strings.

Open Scope Z_scope.

(** ** Outcomes of fallible code *)

Inductive error : Type :=
  | ErrNoTower        (* "source cell has no tower" *)
  | ErrSameOwner      (* "cannot stack towers of the same player" *)
  | ErrEvaluation     (* "Evaluation error for invalid material position" *)
  | ErrNotMaximizing  (* "findBestMove must be invoked for the bot AI opponent (maximizing player)." *)
  | ErrNoMoves        (* "could not determine possible moves" *)
  | TypeError.        (* property access on undefined *)

Inductive outcome (A : Type) : Type :=
  | Done (a : A)
  | Throw (e : error)
  | Timeout.
Arguments Done {A} a.
Arguments Throw {A} e.
Arguments Timeout {A}.

#[global] Instance outcome_ret : MRet outcome := fun A a => Done a.
#[global] Instance outcome_bind : MBind outcome := fun A B f m =>
  match m with
  | Done a => f a
  | Throw e => Throw e
  | Timeout => Timeout
  end.
#[global] Instance outcome_fmap : FMap outcome := fun A B f m =>
  match m with
  | Done a => Done (f a)
  | Throw e => Throw e
  | Timeout => Timeout
  end.

(** [o ?? e]: the value of an optional reference, or the error [e]. *)
Definition orThrow {A} (o : option A) (e : error) : outcome A :=
  match o with
  | Some a => Done a
  | None => Throw e
  end.

(** ** Scores: JavaScript numbers with [Infinity] and [-Infinity] *)

Inductive Score : Type :=
  | NegInf
  | Fin (q : Qc)
  | PosInf.

Definition sle (a b : Score) : Prop :=
  match a, b with
  | NegInf, _ => True
  | _, PosInf => True
  | Fin x, Fin y => (x <= y)%Qc
  | _, _ => False
  end.

Definition slt (a b : Score) : Prop := ¬ sle b a.

#[global] Instance sle_dec : RelDecision sle.
Proof.
  intros a b. destruct a as [|x|], b as [|y|]; simpl.
  all: first [ left; exact I | apply Qc_le_dec | right; exact (fun f : False => f) ].
Defined.

#[global] Instance slt_dec : RelDecision slt.
Proof. intros a b. unfold slt. apply _. Defined.

(** [Math.max] and [Math.min] on scores. *)
Definition smax (a b : Score) : Score := if decide (sle a b) then b else a.
Definition smin (a b : Score) : Score := if decide (sle a b) then a else b.

(** ** Numbers: IEEE 754 binary64 *)

(** [2^e], for an exponent of either sign. *)
Definition pow2 (e : Z) : Qc :=
  if decide (0 ≤ e) then Qc_of_Z (2 ^ e) else (/ Qc_of_Z (2 ^ (- e)))%Qc.

(** The magnitude of [q]. *)
Definition Qcmag (q : Qc) : Qc := if decide (q < 0)%Qc then (- q)%Qc else q.

(** [floor (log2 q)] for a positive [q]: the exponent of [q]. *)
Definition Qclog2 (q : Qc) : Z :=
  let k := Z.log2 (Qnum q) - Z.log2 (Z.pos (Qden q)) in
  if decide (pow2 k ≤ q)%Qc then k else k - 1.

(** The integer nearest to [q]; of two nearest ones the even one. *)
Definition roundEven (q : Qc) : Z :=
  let f := Qfloor q in
  let r := (q - Qc_of_Z f)%Qc in
  if decide (r < Q2Qc (1 # 2))%Qc then f
  else if decide (Q2Qc (1 # 2) < r)%Qc then f + 1
  else if Z.even f then f else f + 1.

(** The binary64 number nearest to [q], ties to the even mantissa: a
    mantissa of 53 bits at the exponent of [q], and the grid of [2^-1074]
    for the subnormal numbers below [2^-1022]. *)
Definition round64 (q : Qc) : Qc :=
  if decide (q = 0%Qc) then 0%Qc
  else
    let e := Z.max (Qclog2 (Qcmag q) - 52) (-1074) in
    Q2Qc (this (Qc_of_Z (roundEven (q / pow2 e)) * pow2 e)%Qc).

(** The number for a decimal: a numeric literal, [Number(string)],
    [parseFloat(string)]. *)
Definition js_number (q : Qc) : Qc := round64 q.

(** An integer counter as a number. *)
Definition js_int (n : Z) : Qc := js_number (Qc_of_Z n).

(** [a + b], [a - b] and [a * b]. *)
Definition js_add (a b : Qc) : Qc := round64 (a + b).
Definition js_sub (a b : Qc) : Qc := round64 (a - b).
Definition js_mul (a b : Qc) : Qc := round64 (a * b).

(** [Math.round]: nearest integer, halves towards plus infinity.  The
    result is a number: below 2^52 it is an integer of at most 53 bits, and
    from 2^52 on every number is an integer already. *)
Definition js_round (q : Qc) : Qc := Qc_of_Z (Qfloor (q + Q2Qc (1 # 2))%Qc).

(** ** GameState: the data model *)

(** [PLAYER_ID] *)
Inductive PlayerId : Type := USER | BOT.

#[global] Instance PlayerId_eq_dec : EqDecision PlayerId.
Proof. solve_decision. Defined.

(** [GridCell] without its DOM relation; [svgLayout] lists the stones
    bottom to top. *)
Record GridCell : Type := mkGridCell {
  row : Z;
  column : Z;
  svgLayout : list PlayerId;
  direction : Z;
  dot : bool
}.

(** getter [id] of [GridCell] *)
Definition cell_id (c : GridCell) : Z := row c * 6 + column c.

(** [svgLayout.at(-1)]: [None] is [undefined]. *)
Definition top (c : GridCell) : option PlayerId := last (svgLayout c).

Record Vault : Type := mkVault {
  self : Z;
  opponent : Z
}.

Record Player : Type := mkPlayer {
  id : PlayerId;
  isMaximizing : bool;
  turn : bool;
  lastHorizontal : bool;
  safetyTower : Z;
  vault : Vault;
  winner : bool
}.

(** The setters of [Player]. *)
Definition set_turn (p : Player) (value : bool) : Player :=
  mkPlayer (id p) (isMaximizing p) value (lastHorizontal p) (safetyTower p) (vault p) (winner p).
Definition set_lastHorizontal (p : Player) (value : bool) : Player :=
  mkPlayer (id p) (isMaximizing p) (turn p) value (safetyTower p) (vault p) (winner p).
Definition set_safetyTower (p : Player) (value : Z) : Player :=
  mkPlayer (id p) (isMaximizing p) (turn p) (lastHorizontal p) (Z.min 6 value) (vault p) (winner p).
Definition set_vault (p : Player) (value : Vault) : Player :=
  mkPlayer (id p) (isMaximizing p) (turn p) (lastHorizontal p) (safetyTower p)
           (mkVault (Z.min 6 (self value)) (Z.min 6 (opponent value))) (winner p).
Definition set_winner (p : Player) (value : bool) : Player :=
  mkPlayer (id p) (isMaximizing p) (turn p) (lastHorizontal p) (safetyTower p) (vault p) value.

(** [BoardState]: the cells and [playerState.twoPlayer]. *)
Record BoardState : Type := mkBoardState {
  cells : list GridCell;
  twoPlayer : list Player
}.

(** [Move]: deep copies of the two cells and of both players. *)
Record Move : Type := mkMove {
  srcCell : GridCell;
  tgtCell : GridCell;
  playerState : list Player
}.

(** [new Move(src.cloneInstance(), tgt.cloneInstance(), playerState.cloneInstance())]
    for the cells at indices [s] and [t]. *)
Definition logMove (st : BoardState) (s t : nat) : outcome Move :=
  src ← orThrow (cells st !! s) TypeError;
  tgt ← orThrow (cells st !! t) TypeError;
  Done (mkMove src tgt (twoPlayer st)).

#[global] Instance GridCell_eq_dec : EqDecision GridCell.
Proof. solve_decision. Defined.
#[global] Instance Vault_eq_dec : EqDecision Vault.
Proof. solve_decision. Defined.
#[global] Instance Player_eq_dec : EqDecision Player.
Proof. solve_decision. Defined.
#[global] Instance BoardState_eq_dec : EqDecision BoardState.
Proof. solve_decision. Defined.

(** [Settings]: the groups read by the core. *)
Record Settings : Type := mkSettings {
  (* winningRules *)
  safetyZone : Z;
  materialOpponent : Z;
  maxStackSize : Z;
  (* searchRules *)
  search_depth : Z;
  (* materialAdvantageConquered *)
  conquered_totalWeight : Qc;
  conquered_opponentWeight : Qc;
  (* safetyZoneProximity *)
  weightRowDistance1 : Qc;
  weightRowDistance2 : Qc;
  weightRowDistance3 : Qc;
  weightRowDistance4 : Qc;
  weightRowDistance5 : Qc;
  safetyZoneTotalDistance : Qc;
  proximity_opponentWeight : Qc;
  proximity_totalWeight : Qc;
  (* materialAdvantageAccounted *)
  accounted_totalWeight : Qc
}.

(** ** GameLogic *)

(** [boardState.cells.find(inst => inst.row === r && inst.column === c)] *)
Definition findCell (st : BoardState) (r c : Z) : option (nat * GridCell) :=
  list_find (fun inst => row inst = r ∧ column inst = c) (cells st).

(** [if (neighbor && neighbor.svgLayout.at(-1) !== cellInst.svgLayout.at(-1)) candidates.push(neighbor)] *)
Definition pushCandidate (cellInst : GridCell) (neighbor : option (nat * GridCell))
    (candidates : list nat) : list nat :=
  match neighbor with
  | Some (i, n) => if decide (top n ≠ top cellInst) then candidates ++ [i] else candidates
  | None => candidates
  end.

Definition getLocalMoves (cellInst : GridCell) (player : Player) (st : BoardState) : list nat :=
  let x := column cellInst in
  let y := row cellInst in
  let dir := direction cellInst in
  let candidates := [] in
  let candidates := pushCandidate cellInst (findCell st (y + dir) x) candidates in
  let candidates := pushCandidate cellInst (findCell st (y + 2 * dir) x) candidates in
  if decide (lastHorizontal player = false) then
    let candidates := pushCandidate cellInst (findCell st y (Z.rem (x + 5) 6)) candidates in
    let candidates := pushCandidate cellInst (findCell st y (Z.rem (x + 4) 6)) candidates in
    let candidates := pushCandidate cellInst (findCell st y (Z.rem (x + 7) 6)) candidates in
    let candidates := pushCandidate cellInst (findCell st y (Z.rem (x + 8) 6)) candidates in
    candidates
  else candidates.

(** The cells topped by [pid], with their indices, in board order. *)
Definition owningTowers (st : BoardState) (pid : PlayerId) : list (nat * GridCell) :=
  filter (fun ic => svgLayout ic.2 ≠ [] ∧ top ic.2 = Some pid) (imap pair (cells st)).

Definition getAllPossibleMoves (st : BoardState) (player : Player) : list (nat * nat) :=
  ic ← owningTowers st (id player);
  (fun t => (ic.1, t)) <$> getLocalMoves ic.2 player st.

(** The loop of [stackTowers]: push the stones of the source one by one,
    shifting the bottom stone into the vault of [player] on overflow. *)
Fixpoint stackLoop (srcLayout tgtLayout : list PlayerId) (player : option Player)
    (maxStackSize : Z) : outcome (list PlayerId * option Player) :=
  match srcLayout with
  | [] => Done (tgtLayout, player)
  | stone :: rest =>
      let tgtLayout := tgtLayout ++ [stone] in
      if decide (maxStackSize < Z.of_nat (length tgtLayout)) then
        p ← orThrow player TypeError;
        let selfVal := self (vault p) in
        let opponentVal := opponent (vault p) in
        let newVault :=
          if decide (head tgtLayout = Some (id p))
          then mkVault (selfVal + 1) opponentVal
          else mkVault selfVal (opponentVal + 1) in
        stackLoop rest (tail tgtLayout) (Some (set_vault p newVault)) maxStackSize
      else stackLoop rest tgtLayout player maxStackSize
  end.

(** [stackTowers]: the new stones of the target and the mover. *)
Definition stackTowers (srcCell tgtCell : GridCell) (player : option Player)
    (maxStackSize : Z) : outcome (list PlayerId * option Player) :=
  if decide (svgLayout srcCell = []) then Throw ErrNoTower
  else if decide (svgLayout tgtCell = []) then Done (svgLayout srcCell, player)
  else if decide (top srcCell ≠ top tgtCell) then
    stackLoop (svgLayout srcCell) (svgLayout tgtCell) player maxStackSize
  else Throw ErrSameOwner.

(** The four [if] blocks of [playMove] that follow the stacking: the target
    has taken over [direction] and [dot] of the source; a tower reaching the
    far row is reversed, a reversed tower reaching its origin row is
    secured. *)
Definition reverseOrSecure (srcInst tgtInst : GridCell) (layout : list PlayerId) (p : Player)
    : GridCell * Player :=
  let tgt := mkGridCell (row tgtInst) (column tgtInst) layout (direction srcInst) (dot srcInst) in
  let tgt :=
    if decide (top srcInst = Some USER ∧ row tgtInst = 5 ∧ dot srcInst = false)
    then mkGridCell (row tgt) (column tgt) (svgLayout tgt) (direction tgt * -1) true
    else tgt in
  let tgt :=
    if decide (top srcInst = Some BOT ∧ row tgtInst = 0 ∧ dot srcInst = false)
    then mkGridCell (row tgt) (column tgt) (svgLayout tgt) (direction tgt * -1) true
    else tgt in
  let '(tgt, p) :=
    if decide (top srcInst = Some USER ∧ row tgtInst = 0 ∧ dot srcInst = true)
    then (mkGridCell (row tgt) (column tgt) [] 0 false, set_safetyTower p (safetyTower p + 1))
    else (tgt, p) in
  let '(tgt, p) :=
    if decide (top srcInst = Some BOT ∧ row tgtInst = 5 ∧ dot srcInst = true)
    then (mkGridCell (row tgt) (column tgt) [] 0 false, set_safetyTower p (safetyTower p + 1))
    else (tgt, p) in
  (tgt, p).

(** [playMove] on the cells at indices [s] and [t]. *)
Definition playMove (s t : nat) (st : BoardState) (maxStackSize : Z) : outcome BoardState :=
  let player := list_find (fun p => turn p = true) (twoPlayer st) in
  srcInst ← orThrow (cells st !! s) TypeError;
  tgtInst ← orThrow (cells st !! t) TypeError;
  '(layout, mover) ← stackTowers srcInst tgtInst (snd <$> player) maxStackSize;
  pi ← orThrow (fst <$> player) TypeError;
  p ← orThrow mover TypeError;
  let '(tgt, p) := reverseOrSecure srcInst tgtInst layout p in
  let src := mkGridCell (row srcInst) (column srcInst) [] 0 false in
  let p := set_lastHorizontal p (bool_decide (row tgtInst = row srcInst)) in
  Done (mkBoardState (<[s := src]> (<[t := tgt]> (cells st))) (<[pi := p]> (twoPlayer st))).

Definition switchPlayer (players : list Player) : list Player :=
  (fun player => set_turn player (if turn player then false else true)) <$> players.

(** [BoardState.applyMoveAndTurn] *)
Definition applyMoveAndTurn (st : BoardState) (s t : nat) (maxStackSize : Z) : outcome BoardState :=
  st' ← playMove s t st maxStackSize;
  Done (mkBoardState (cells st') (switchPlayer (twoPlayer st'))).

(** [this.cells[index].svgLayout = saved.svgLayout] and likewise for
    [direction] and [dot]; [this.cells[index]] may be [undefined]. *)
Definition restoreCell (cs : list GridCell) (index : Z) (saved : GridCell) : outcome (list GridCell) :=
  if decide (0 ≤ index) then
    c ← orThrow (cs !! Z.to_nat index) TypeError;
    Done (<[Z.to_nat index :=
              mkGridCell (row c) (column c) (svgLayout saved) (direction saved) (dot saved)]> cs)
  else Throw TypeError.

(** The body of the [forEach] of [undoMove]. *)
Definition restorePlayer (saved : list Player) (player : Player) : Player :=
  match list_find (fun p => id p = id player) saved with
  | Some (_, savedPlayer) =>
      let player := set_turn player (turn savedPlayer) in
      let player := set_lastHorizontal player (lastHorizontal savedPlayer) in
      let player := set_safetyTower player (safetyTower savedPlayer) in
      set_vault player (vault savedPlayer)
  | None => player
  end.

(** [BoardState.undoMove] *)
Definition undoMove (st : BoardState) (loggedMove : Move) : outcome BoardState :=
  let srcIndex := cell_id (srcCell loggedMove) in
  let tgtIndex := cell_id (tgtCell loggedMove) in
  cs ← restoreCell (cells st) srcIndex (srcCell loggedMove);
  cs ← restoreCell cs tgtIndex (tgtCell loggedMove);
  Done (mkBoardState cs (restorePlayer (playerState loggedMove) <$> twoPlayer st)).

(** [checkWin] for the player at index [pi] of [twoPlayer]: the boolean
    result and the board with the [winner] flag possibly set. *)
Definition checkWin (st : BoardState) (pi : nat) (settings : Settings) : outcome (bool * BoardState) :=
  player ← orThrow (twoPlayer st !! pi) TypeError;
  let won := mkBoardState (cells st) (<[pi := set_winner player true]> (twoPlayer st)) in
  if decide ((0 < materialOpponent settings ∧ materialOpponent settings ≤ opponent (vault player))
             ∨ safetyZone settings ≤ safetyTower player) then Done (true, won)
  else
    let opponent := snd <$> list_find (fun playerInst => id playerInst ≠ id player) (twoPlayer st) in
    (* [opponent.id] is read in the callback of [cells.find] *)
    opponentTower ←
      match cells st with
      | [] => Done None
      | _ => opponent ← orThrow opponent TypeError;
             Done (list_find (fun cell => top cell = Some (id opponent)) (cells st))
      end;
    let owningTower := list_find (fun cell => top cell = Some (id player)) (cells st) in
    if decide (turn player = false ∧ (opponentTower = None ∨ owningTower = None))
    then Done (true, won)
    else Done (false, st).

(** ** MinimaxAB *)

Section Search.
(** [cachedSettingsState] *)
Context (settings : Settings).

(** The accumulators of the evaluation loop. *)
Record Tally : Type := mkTally {
  botTowers : Z;
  userTowers : Z;
  botTowerSafetyWeight : Qc;
  userTowerSafetyWeight : Qc;
  botTowerTotalSafetyDistance : Z;
  userTowerTotalSafetyDistance : Z
}.

(** The [switch (rowDistance)] of the evaluation. *)
Definition rowDistanceWeight (rowDistance : Z) : outcome Qc :=
  if decide (rowDistance = 1) then Done (js_number (weightRowDistance1 settings))
  else if decide (rowDistance = 2) then Done (js_number (weightRowDistance2 settings))
  else if decide (rowDistance = 3) then Done (js_number (weightRowDistance3 settings))
  else if decide (rowDistance = 4) then Done (js_number (weightRowDistance4 settings))
  else if decide (rowDistance = 5) then Done (js_number (weightRowDistance5 settings))
  else Throw ErrEvaluation.

(** The body of [boardState.cells.forEach] in the evaluation. *)
Definition tallyCell (botId userId : PlayerId) (acc : Tally) (cell : GridCell) : outcome Tally :=
  acc ←
    (if decide (top cell = Some botId) then
       let acc := mkTally (botTowers acc + 1) (userTowers acc)
                    (botTowerSafetyWeight acc) (userTowerSafetyWeight acc)
                    (botTowerTotalSafetyDistance acc) (userTowerTotalSafetyDistance acc) in
       if decide (0 < safetyZone settings ∧ dot cell = true) then
         let rowDistance := 5 - row cell in
         w ← rowDistanceWeight rowDistance;
         Done (mkTally (botTowers acc) (userTowers acc)
                 (js_add (botTowerSafetyWeight acc) w) (userTowerSafetyWeight acc)
                 (botTowerTotalSafetyDistance acc + rowDistance)
                 (userTowerTotalSafetyDistance acc))
       else Done acc
     else Done acc);
  if decide (top cell = Some userId) then
    let acc := mkTally (botTowers acc) (userTowers acc + 1)
                 (botTowerSafetyWeight acc) (userTowerSafetyWeight acc)
                 (botTowerTotalSafetyDistance acc) (userTowerTotalSafetyDistance acc) in
    if decide (0 < safetyZone settings ∧ dot cell = true) then
      let rowDistance := row cell in
      w ← rowDistanceWeight rowDistance;
      Done (mkTally (botTowers acc) (userTowers acc)
              (botTowerSafetyWeight acc) (js_add (userTowerSafetyWeight acc) w)
              (botTowerTotalSafetyDistance acc)
              (userTowerTotalSafetyDistance acc + rowDistance))
    else Done acc
  else Done acc.

Fixpoint tallyCells (botId userId : PlayerId) (acc : Tally) (cs : list GridCell) : outcome Tally :=
  match cs with
  | [] => Done acc
  | cell :: cs => acc ← tallyCell botId userId acc cell; tallyCells botId userId acc cs
  end.

(** The heuristic score at maximum depth. *)
Definition heuristic (st : BoardState) (playerBot playerUser : Player) : outcome Qc :=
  acc ← tallyCells (id playerBot) (id playerUser) (mkTally 0 0 0%Qc 0%Qc 0 0) (cells st);
  let score := 0%Qc in
  let score :=
    js_add score
      (js_mul (js_sub (js_int (botTowers acc))
                      (js_mul (js_number (conquered_opponentWeight settings))
                              (js_int (userTowers acc))))
              (js_number (conquered_totalWeight settings))) in
  let score :=
    if decide (0 < safetyZone settings) then
      let score :=
        js_add score
          (js_round
             (js_mul (js_sub (botTowerSafetyWeight acc)
                             (js_mul (js_number (proximity_opponentWeight settings))
                                     (userTowerSafetyWeight acc)))
                     (js_number (proximity_totalWeight settings)))) in
      let userFlag := if decide (4 < userTowerTotalSafetyDistance acc) then 0 else 1 in
      let botFlag := if decide (4 < botTowerTotalSafetyDistance acc) then 0 else 1 in
      js_add score
        (js_mul (js_mul (js_sub (js_int botFlag)
                                (js_mul (js_int userFlag)
                                        (js_number (proximity_opponentWeight settings))))
                        (js_number (safetyZoneTotalDistance settings)))
                (js_number (proximity_totalWeight settings)))
    else score in
  let score :=
    if decide (0 < materialOpponent settings) then
      js_add score
        (js_mul (js_sub (js_int (opponent (vault playerBot)))
                        (js_int (opponent (vault playerUser))))
                (js_number (accounted_totalWeight settings)))
    else score in
  Done score.

(** [getTerminalNodeState]: [None] is [null]. *)
Definition getTerminalNodeState (st : BoardState) (depth : Z) : outcome (option Score * BoardState) :=
  let playerBot := fst <$> list_find (fun player => isMaximizing player = true) (twoPlayer st) in
  let playerUser := fst <$> list_find (fun player => isMaximizing player = false) (twoPlayer st) in
  bi ← orThrow playerBot TypeError;
  '(botWins, st) ← checkWin st bi settings;
  if (botWins : bool) then Done (Some PosInf, st)
  else
    ui ← orThrow playerUser TypeError;
    '(userWins, st) ← checkWin st ui settings;
    if (userWins : bool) then Done (Some NegInf, st)
    else if decide (depth = search_depth settings) then
      bot ← orThrow (twoPlayer st !! bi) TypeError;
      user ← orThrow (twoPlayer st !! ui) TypeError;
      score ← heuristic st bot user;
      Done (Some (Fin score), st)
    else Done (None, st).

(** The [for] loop of the maximizing branch of [minimax]; [rec] is the
    recursive call at [depth + 1]. *)
Fixpoint maxLoop (rec : BoardState → Score → Score → outcome (Score * BoardState))
    (possibleMoves : list (nat * nat)) (st : BoardState) (max_eval alpha beta : Score)
    : outcome (Score * BoardState) :=
  match possibleMoves with
  | [] => Done (max_eval, st)
  | move :: rest =>
      loggedMove ← logMove st move.1 move.2;
      st ← applyMoveAndTurn st move.1 move.2 (maxStackSize settings);
      '(evaluate, st) ← rec st alpha beta;
      st ← undoMove st loggedMove;
      let max_eval := smax max_eval evaluate in
      let alpha := smax alpha max_eval in
      if decide (sle beta alpha) then Done (max_eval, st)
      else maxLoop rec rest st max_eval alpha beta
  end.

(** The [for] loop of the minimizing branch. *)
Fixpoint minLoop (rec : BoardState → Score → Score → outcome (Score * BoardState))
    (possibleMoves : list (nat * nat)) (st : BoardState) (min_eval alpha beta : Score)
    : outcome (Score * BoardState) :=
  match possibleMoves with
  | [] => Done (min_eval, st)
  | move :: rest =>
      loggedMove ← logMove st move.1 move.2;
      st ← applyMoveAndTurn st move.1 move.2 (maxStackSize settings);
      '(evaluate, st) ← rec st alpha beta;
      st ← undoMove st loggedMove;
      let min_eval := smin min_eval evaluate in
      let beta := smin beta min_eval in
      if decide (sle beta alpha) then Done (min_eval, st)
      else minLoop rec rest st min_eval alpha beta
  end.

(** [minimax]; the current player is looked up before the terminal
    test, which leaves every field that is read afterwards untouched. *)
Fixpoint minimax (fuel : nat) (st : BoardState) (depth : Z) (alpha beta : Score)
    : outcome (Score * BoardState) :=
  match fuel with
  | O => Timeout
  | S fuel =>
      let currentPlayer := snd <$> list_find (fun player => turn player = true) (twoPlayer st) in
      '(evaluation, st) ← getTerminalNodeState st depth;
      match evaluation with
      | Some v => Done (v, st)
      | None =>
          currentPlayer ← orThrow currentPlayer TypeError;
          let possibleMoves := getAllPossibleMoves st currentPlayer in
          if decide (isMaximizing currentPlayer = true) then
            maxLoop (fun st => minimax fuel st (depth + 1)) possibleMoves st NegInf alpha beta
          else
            minLoop (fun st => minimax fuel st (depth + 1)) possibleMoves st PosInf alpha beta
      end
  end.

(** The [for] loop of [findBestMove]. *)
Fixpoint bestLoop (fuel : nat) (possibleMoves : list (nat * nat)) (st : BoardState)
    (best_score : Score) (best_move : option (nat * nat))
    : outcome (option (nat * nat) * BoardState) :=
  match possibleMoves with
  | [] => Done (best_move, st)
  | move :: rest =>
      loggedMove ← logMove st move.1 move.2;
      st ← applyMoveAndTurn st move.1 move.2 (maxStackSize settings);
      '(score_for_this_move, st) ← minimax fuel st 0 NegInf PosInf;
      st ← undoMove st loggedMove;
      if decide (slt best_score score_for_this_move)
      then bestLoop fuel rest st score_for_this_move (Some move)
      else bestLoop fuel rest st best_score best_move
  end.

(** [findBestMove]: the chosen move (source index, target index). *)
Definition findBestMove (fuel : nat) (st : BoardState) : outcome ((nat * nat) * BoardState) :=
  player ← orThrow (snd <$> list_find (fun player => turn player = true) (twoPlayer st)) TypeError;
  if decide (isMaximizing player = false) then Throw ErrNotMaximizing
  else
    let possibleMoves := getAllPossibleMoves st player in
    if decide (length possibleMoves = 0%nat) then Throw ErrNoMoves
    else
      '(best_move, st) ← bestLoop fuel possibleMoves st NegInf None;
      match best_move with
      | None => move ← orThrow (possibleMoves !! 0%nat) TypeError; Done (move, st)
      | Some move => Done (move, st)
      end.

(** *** The pruning-free reference search

    The reference implementation of the differential test: the loops of
    [minimax] without the [if (beta <= alpha) break]. *)
Fixpoint maxLoop_full (rec : BoardState → outcome (Score * BoardState))
    (possibleMoves : list (nat * nat)) (st : BoardState) (max_eval : Score)
    : outcome (Score * BoardState) :=
  match possibleMoves with
  | [] => Done (max_eval, st)
  | move :: rest =>
      loggedMove ← logMove st move.1 move.2;
      st ← applyMoveAndTurn st move.1 move.2 (maxStackSize settings);
      '(evaluate, st) ← rec st;
      st ← undoMove st loggedMove;
      maxLoop_full rec rest st (smax max_eval evaluate)
  end.

Fixpoint minLoop_full (rec : BoardState → outcome (Score * BoardState))
    (possibleMoves : list (nat * nat)) (st : BoardState) (min_eval : Score)
    : outcome (Score * BoardState) :=
  match possibleMoves with
  | [] => Done (min_eval, st)
  | move :: rest =>
      loggedMove ← logMove st move.1 move.2;
      st ← applyMoveAndTurn st move.1 move.2 (maxStackSize settings);
      '(evaluate, st) ← rec st;
      st ← undoMove st loggedMove;
      minLoop_full rec rest st (smin min_eval evaluate)
  end.

Fixpoint minimax_full (fuel : nat) (st : BoardState) (depth : Z) : outcome (Score * BoardState) :=
  match fuel with
  | O => Timeout
  | S fuel =>
      let currentPlayer := snd <$> list_find (fun player => turn player = true) (twoPlayer st) in
      '(evaluation, st) ← getTerminalNodeState st depth;
      match evaluation with
      | Some v => Done (v, st)
      | None =>
          currentPlayer ← orThrow currentPlayer TypeError;
          let possibleMoves := getAllPossibleMoves st currentPlayer in
          if decide (isMaximizing currentPlayer = true) then
            maxLoop_full (fun st => minimax_full fuel st (depth + 1)) possibleMoves st NegInf
          else
            minLoop_full (fun st => minimax_full fuel st (depth + 1)) possibleMoves st PosInf
      end
  end.
End Search.

(** * Specification-level notions *)

(** ** Win check *)

Definition other (pid : PlayerId) : PlayerId :=
  match pid with
  | USER => BOT
  | BOT => USER
  end.

(** [pid] tops at least one cell of the board. *)
Definition hasTower (st : BoardState) (pid : PlayerId) : Prop :=
  Exists (fun cell => top cell = Some pid) (cells st).

(** The three ways of winning, as the specification words them. *)
Definition winCondition (st : BoardState) (player : Player) (settings : Settings) : Prop :=
  (0 < materialOpponent settings ∧ materialOpponent settings ≤ opponent (vault player))
  ∨ safetyZone settings ≤ safetyTower player
  ∨ (turn player = false
     ∧ (¬ hasTower st (other (id player)) ∨ ¬ hasTower st (id player))).

#[global] Instance winCondition_dec st player settings : Decision (winCondition st player settings).
Proof. unfold winCondition, hasTower. apply _. Defined.

(** The board after [player.winner = true] for the player at index [pi]. *)
Definition markWinner (st : BoardState) (pi : nat) (player : Player) : BoardState :=
  mkBoardState (cells st) (<[pi := set_winner player true]> (twoPlayer st)).

(** ** The board layout and move generation *)

(** The coordinates of the 36 cells in board order ([createBoard]):
    the cell at index [i] has row [i / 6] and column [i mod 6]. *)
Definition boardCoords : list (Z * Z) := (fun i => (i / 6, i mod 6)) <$> seqZ 0 36.

Definition wf_board (st : BoardState) : Prop :=
  (fun c => (row c, column c)) <$> cells st = boardCoords.

Definition onBoard (r c : Z) : Prop := 0 ≤ r < 6 ∧ 0 ≤ c < 6.

(** The candidate coordinates in the order of the specification:
    forward-1, forward-2, and unless the lateral lock is set left-1,
    left-2, right-1, right-2 with the column wrapped modulo 6. *)
Definition candidateCoords (cellInst : GridCell) (player : Player) : list (Z * Z) :=
  let x := column cellInst in
  let y := row cellInst in
  let d := direction cellInst in
  [(y + d, x); (y + 2 * d, x)]
  ++ (if lastHorizontal player then []
      else [(y, (x - 1) mod 6); (y, (x - 2) mod 6); (y, (x + 1) mod 6); (y, (x + 2) mod 6)]).

(** A candidate is legal iff it is on the board and its top owner differs
    from the top owner of the source. *)
Definition legalTarget (st : BoardState) (cellInst : GridCell) (rc : Z * Z) : option nat :=
  if decide (onBoard rc.1 rc.2) then
    tgt ← cells st !! Z.to_nat (rc.1 * 6 + rc.2);
    if decide (top tgt ≠ top cellInst) then Some (Z.to_nat (rc.1 * 6 + rc.2)) else None
  else None.

Definition legalMoves_spec (cellInst : GridCell) (player : Player) (st : BoardState) : list nat :=
  omap (legalTarget st cellInst) (candidateCoords cellInst player).

(** ** Stacking with overflow *)

(** How many stones leave the bottom of the target when [src] is stacked
    onto [tgt] under the limit [maxStackSize]. *)
Definition overflowCount (src tgt : list PlayerId) (maxStackSize : Z) : nat :=
  Nat.min (length src)
          (Z.to_nat (Z.of_nat (length tgt) + Z.of_nat (length src) - maxStackSize)).

(** The removed stones owned by [pid], and those owned by the other side. *)
Definition creditedOwn (pid : PlayerId) (removed : list PlayerId) : Z :=
  Z.of_nat (length (filter (fun stone => stone = pid) removed)).
Definition creditedOpponent (pid : PlayerId) (removed : list PlayerId) : Z :=
  Z.of_nat (length (filter (fun stone => stone ≠ pid) removed)).

(** The mover after the removed stones are credited, each counter capped at 6. *)
Definition creditVault (p : Player) (removed : list PlayerId) : Player :=
  mkPlayer (id p) (isMaximizing p) (turn p) (lastHorizontal p) (safetyTower p)
    (mkVault (Z.min 6 (self (vault p) + creditedOwn (id p) removed))
             (Z.min 6 (opponent (vault p) + creditedOpponent (id p) removed)))
    (winner p).

(** ** Move application *)

(** The row at which a tower of [pid] is reversed, and the row at which a
    reversed tower of [pid] is secured. *)
Definition farRow (pid : PlayerId) : Z :=
  match pid with
  | USER => 5
  | BOT => 0
  end.
Definition originRow (pid : PlayerId) : Z :=
  match pid with
  | USER => 0
  | BOT => 5
  end.

(** [p] with another vault, nothing capped. *)
Definition withVault (p : Player) (v : Vault) : Player :=
  mkPlayer (id p) (isMaximizing p) (turn p) (lastHorizontal p) (safetyTower p) v (winner p).

(** A source cell after [playMove]. *)
Definition clearedCell (c : GridCell) : GridCell := mkGridCell (row c) (column c) [] 0 false.

(** [player.turn === true] for the first such player: index and value. *)
Definition theMover (st : BoardState) : option (nat * Player) :=
  list_find (fun p => turn p = true) (twoPlayer st).

(** ** State invariants of the data model *)

(** The counters are capped at 6 (the setters of [Player] keep them so). *)
Definition capped (p : Player) : Prop :=
  safetyTower p ≤ 6 ∧ self (vault p) ≤ 6 ∧ opponent (vault p) ≤ 6.

(** The players have distinct identifiers and capped counters. *)
Definition wf_players (ps : list Player) : Prop :=
  NoDup (id <$> ps) ∧ Forall capped ps.

Definition wf_state (st : BoardState) : Prop :=
  wf_board st ∧ wf_players (twoPlayer st).

(** The board with every [winner] flag cleared: what the search reads. *)
Definition eraseWinner (st : BoardState) : BoardState :=
  mkBoardState (cells st) ((fun p => set_winner p false) <$> twoPlayer st).

(** The fields of a player that no operation of the core changes. *)
Definition roles (ps : list Player) : list (PlayerId * bool) :=
  (fun p => (id p, isMaximizing p)) <$> ps.

(** The [winner] flags of the players. *)
Definition winners (st : BoardState) : list bool := winner <$> twoPlayer st.

(** ** The evaluation in closed form *)

Definition sumZ (l : list Z) : Z := foldr Z.add 0 l.

(** [0 + q1 + q2 + ...], added from left to right in the arithmetic of the
    program. *)
Definition js_sum (l : list Qc) : Qc := foldl js_add 0%Qc l.

(** The rows a bot tower, and a user tower, still has to travel to safety. *)
Definition botDistance (c : GridCell) : Z := 5 - row c.
Definition userDistance (c : GridCell) : Z := row c.

Definition validDistance (d : Z) : Prop := 1 ≤ d ≤ 5.

(** A cell topped by [pid], and one that moreover carries the dot. *)
Definition isTower (pid : PlayerId) (c : GridCell) : Prop := top c = Some pid.
Definition isReversed (pid : PlayerId) (c : GridCell) : Prop := top c = Some pid ∧ dot c = true.

#[global] Instance validDistance_dec d : Decision (validDistance d).
Proof. unfold validDistance. apply _. Defined.
#[global] Instance isTower_dec pid c : Decision (isTower pid c).
Proof. unfold isTower. apply _. Defined.
#[global] Instance isReversed_dec pid c : Decision (isReversed pid c).
Proof. unfold isReversed. apply _. Defined.
#[global] Typeclasses Opaque validDistance isTower isReversed.

Section Evaluation.
Context (settings : Settings).

(** The weight of the five distance buckets. *)
Definition bucketWeight (d : Z) : Qc :=
  if decide (d = 1) then js_number (weightRowDistance1 settings)
  else if decide (d = 2) then js_number (weightRowDistance2 settings)
  else if decide (d = 3) then js_number (weightRowDistance3 settings)
  else if decide (d = 4) then js_number (weightRowDistance4 settings)
  else if decide (d = 5) then js_number (weightRowDistance5 settings)
  else 0%Qc.

Definition countTowers (pid : PlayerId) (cs : list GridCell) : Z :=
  sumZ ((fun c => if decide (isTower pid c) then 1 else 0) <$> cs).

(** Sum of the bucket weights of the reversed towers of [pid], in the
    order of the cells. *)
Definition weightedProximity (dist : GridCell → Z) (pid : PlayerId) (cs : list GridCell) : Qc :=
  js_sum ((fun c => bucketWeight (dist c)) <$> filter (isReversed pid) cs).

(** Summed distance of the reversed towers of [pid]. *)
Definition totalDistance (dist : GridCell → Z) (pid : PlayerId) (cs : list GridCell) : Z :=
  sumZ ((fun c => if decide (isReversed pid c) then dist c else 0) <$> cs).

(** Some reversed tower of [pid] is at distance 0 or beyond 5. *)
Definition invalidPosition (dist : GridCell → Z) (pid : PlayerId) (cs : list GridCell) : Prop :=
  Exists (fun c => isReversed pid c ∧ ¬ validDistance (dist c)) cs.

(** The imminent-win flag: 1 when the total distance is at most 4. *)
Definition imminent (total : Z) : Z := if decide (4 < total) then 0 else 1.

(** [(botTowers - opponentWeight * userTowers) * totalWeight] *)
Definition materialTerm (st : BoardState) (bot user : Player) : Qc :=
  js_mul (js_sub (js_int (countTowers (id bot) (cells st)))
                 (js_mul (js_number (conquered_opponentWeight settings))
                         (js_int (countTowers (id user) (cells st)))))
         (js_number (conquered_totalWeight settings)).

(** [Math.round((botWeighted - opponentWeight * userWeighted) * totalWeight)] *)
Definition proximityTerm (st : BoardState) (bot user : Player) : Qc :=
  js_round
    (js_mul (js_sub (weightedProximity botDistance (id bot) (cells st))
                    (js_mul (js_number (proximity_opponentWeight settings))
                            (weightedProximity userDistance (id user) (cells st))))
            (js_number (proximity_totalWeight settings))).

(** [(botBonus - userBonus * opponentWeight) * safetyZoneTotalDistance * totalWeight] *)
Definition imminentTerm (st : BoardState) (bot user : Player) : Qc :=
  js_mul (js_mul (js_sub (js_int (imminent (totalDistance botDistance (id bot) (cells st))))
                         (js_mul (js_int (imminent (totalDistance userDistance (id user)
                                                      (cells st))))
                                 (js_number (proximity_opponentWeight settings))))
                 (js_number (safetyZoneTotalDistance settings)))
         (js_number (proximity_totalWeight settings)).

(** [(botVaultOpponent - userVaultOpponent) * totalWeight] *)
Definition accountedTerm (bot user : Player) : Qc :=
  js_mul (js_sub (js_int (opponent (vault bot))) (js_int (opponent (vault user))))
         (js_number (accounted_totalWeight settings)).

(** The heuristic as the specification words it: the sum of the terms the
    settings switch on. *)
Definition heuristic_spec (st : BoardState) (bot user : Player) : outcome Qc :=
  if decide (0 < safetyZone settings
             ∧ (invalidPosition botDistance (id bot) (cells st)
                ∨ invalidPosition userDistance (id user) (cells st)))
  then Throw ErrEvaluation
  else Done (js_sum ([materialTerm st bot user]
                     ++ (if decide (0 < safetyZone settings)
                         then [proximityTerm st bot user; imminentTerm st bot user] else [])
                     ++ (if decide (0 < materialOpponent settings)
                         then [accountedTerm bot user] else []))).

(** The weights of the settings. *)
Definition weights : list Qc :=
  [conquered_totalWeight settings; conquered_opponentWeight settings;
   weightRowDistance1 settings; weightRowDistance2 settings; weightRowDistance3 settings;
   weightRowDistance4 settings; weightRowDistance5 settings;
   safetyZoneTotalDistance settings; proximity_opponentWeight settings;
   proximity_totalWeight settings; accounted_totalWeight settings].

(** The inputs of the evaluation on which no result comes near the upper
    end 2^1024 of binary64: the 36 cells and the capped counters of the data
    model, vault counters from 0 on, weights of magnitude at most 2^100.
    There every count is at most 36, every sum of bucket weights below
    2^106, every product of at most three such factors below 2^307, and the
    score below 2^309. *)
Definition inRange (st : BoardState) : Prop :=
  wf_state st
  ∧ Forall (fun p => 0 ≤ opponent (vault p)) (twoPlayer st)
  ∧ Forall (fun w => (Qcmag w ≤ pow2 100)%Qc) weights.
End Evaluation.

#[global] Instance inRange_dec settings st : Decision (inRange settings st).
Proof. unfold inRange. apply _. Defined.

(** * A state-restoring view of the search

    The definitions of this part are proof devices.  [searchLoop] is the
    common shape of the four loops of [minimax] and of the loop of
    [findBestMove]: snapshot, apply, recurse, undo, then let [next] update
    the accumulator and decide whether to break.  [pureLoop] is the same
    loop on a board that is never mutated: every child is computed from the
    board at loop entry and nothing is undone. *)

Inductive loopStep (Acc : Type) : Type :=
  | Continue (acc : Acc)
  | Break (acc : Acc).
Arguments Continue {Acc} acc.
Arguments Break {Acc} acc.

Section Loops.
Context (settings : Settings) {Acc : Type}.

Fixpoint searchLoop (rec : BoardState → Acc → outcome (Score * BoardState))
    (next : Acc → nat * nat → Score → loopStep Acc)
    (possibleMoves : list (nat * nat)) (st : BoardState) (acc : Acc)
    : outcome (Acc * BoardState) :=
  match possibleMoves with
  | [] => Done (acc, st)
  | move :: rest =>
      loggedMove ← logMove st move.1 move.2;
      st ← applyMoveAndTurn st move.1 move.2 (maxStackSize settings);
      r ← rec st acc;
      st ← undoMove r.2 loggedMove;
      match next acc move r.1 with
      | Break acc => Done (acc, st)
      | Continue acc => searchLoop rec next rest st acc
      end
  end.

Fixpoint pureLoop (rec : BoardState → Acc → outcome Score)
    (next : Acc → nat * nat → Score → loopStep Acc)
    (possibleMoves : list (nat * nat)) (st : BoardState) (acc : Acc) : outcome Acc :=
  match possibleMoves with
  | [] => Done acc
  | move :: rest =>
      st1 ← applyMoveAndTurn st move.1 move.2 (maxStackSize settings);
      evaluate ← rec st1 acc;
      match next acc move evaluate with
      | Break acc => Done acc
      | Continue acc => pureLoop rec next rest st acc
      end
  end.
End Loops.

(** The accumulator updates of the loops: (running extremum, bound). *)
Definition nextMax (beta : Score) (acc : Score * Score) (move : nat * nat) (evaluate : Score)
    : loopStep (Score * Score) :=
  let max_eval := smax acc.1 evaluate in
  let alpha := smax acc.2 max_eval in
  if decide (sle beta alpha) then Break (max_eval, alpha) else Continue (max_eval, alpha).

Definition nextMin (alpha : Score) (acc : Score * Score) (move : nat * nat) (evaluate : Score)
    : loopStep (Score * Score) :=
  let min_eval := smin acc.1 evaluate in
  let beta := smin acc.2 min_eval in
  if decide (sle beta alpha) then Break (min_eval, beta) else Continue (min_eval, beta).

Definition nextMaxFull (acc : Score) (move : nat * nat) (evaluate : Score) : loopStep Score :=
  Continue (smax acc evaluate).

Definition nextMinFull (acc : Score) (move : nat * nat) (evaluate : Score) : loopStep Score :=
  Continue (smin acc evaluate).

Definition nextBest (acc : Score * option (nat * nat)) (move : nat * nat) (evaluate : Score)
    : loopStep (Score * option (nat * nat)) :=
  Continue (if decide (slt acc.1 evaluate) then (evaluate, Some move) else acc).

Section PureSearch.
Context (settings : Settings).

(** [minimax] on a board that is never mutated. *)
Fixpoint pureMinimax (fuel : nat) (st : BoardState) (depth : Z) (alpha beta : Score)
    : outcome Score :=
  match fuel with
  | O => Timeout
  | S fuel =>
      let currentPlayer := snd <$> theMover st in
      r ← getTerminalNodeState settings st depth;
      match r.1 with
      | Some v => Done v
      | None =>
          currentPlayer ← orThrow currentPlayer TypeError;
          let possibleMoves := getAllPossibleMoves st currentPlayer in
          if decide (isMaximizing currentPlayer = true) then
            fst <$> pureLoop settings
                      (fun st acc => pureMinimax fuel st (depth + 1) acc.2 beta)
                      (nextMax beta) possibleMoves st (NegInf, alpha)
          else
            fst <$> pureLoop settings
                      (fun st acc => pureMinimax fuel st (depth + 1) alpha acc.2)
                      (nextMin alpha) possibleMoves st (PosInf, beta)
      end
  end.

(** [minimax_full] on a board that is never mutated. *)
Fixpoint pureMinimax_full (fuel : nat) (st : BoardState) (depth : Z) : outcome Score :=
  match fuel with
  | O => Timeout
  | S fuel =>
      let currentPlayer := snd <$> theMover st in
      r ← getTerminalNodeState settings st depth;
      match r.1 with
      | Some v => Done v
      | None =>
          currentPlayer ← orThrow currentPlayer TypeError;
          let possibleMoves := getAllPossibleMoves st currentPlayer in
          if decide (isMaximizing currentPlayer = true) then
            pureLoop settings (fun st _ => pureMinimax_full fuel st (depth + 1))
              nextMaxFull possibleMoves st NegInf
          else
            pureLoop settings (fun st _ => pureMinimax_full fuel st (depth + 1))
              nextMinFull possibleMoves st PosInf
      end
  end.
End PureSearch.

(** A recursive call that restores its board up to [winner] flags and
    agrees with a pure function on the erased board. *)
Definition restoring {Acc} (rec : BoardState → Acc → outcome (Score * BoardState))
    (prec : BoardState → Acc → outcome Score) : Prop :=
  ∀ st acc, wf_state st →
    fst <$> rec st acc = prec (eraseWinner st) acc
    ∧ ∀ v st', rec st acc = Done (v, st') → eraseWinner st' = eraseWinner st.

(** What a fail-soft alpha-beta result [r] says about the exact value [v]
    in the window ([alpha], [beta]): exact inside the window, a bound
    outside of it. *)
Definition abBounds (v r alpha beta : Score) : Prop :=
  (sle v alpha → sle r alpha)
  ∧ (sle beta v → sle beta r)
  ∧ (slt alpha v → slt v beta → r = v).

(** The pruned recursive call is sound for the full one on every window. *)
Definition childSound (recF : BoardState → outcome Score)
    (recAB : BoardState → Score → Score → outcome Score) : Prop :=
  ∀ st alpha beta v, slt alpha beta → recF st = Done v →
    ∃ r, recAB st alpha beta = Done r ∧ abBounds v r alpha beta.

(** The order of scores, packaged for the order tactic of the Standard
    Library. *)
Module ScoreOrd.
Definition t := Score.
Definition eq := @Logic.eq Score.
Definition lt := slt.
Definition le := sle.
End ScoreOrd.

(** ** Boards on which the search runs without error *)

(** A reversed tower is never on the row where it would be secured. *)
Definition safePosition (c : GridCell) : Prop :=
  dot c = true → (top c = Some BOT → row c ≠ 5) ∧ (top c = Some USER → row c ≠ 0).

(** The bot is the maximizing player. *)
Definition botMaximizes (p : Player) : Prop := isMaximizing p = true ↔ id p = BOT.

(** A board of the game: the data-model invariants, two players of which
    exactly one is to move, the bot maximizing, no reversed tower on its
    origin row. *)
Definition playable (st : BoardState) : Prop :=
  wf_state st
  ∧ (turn <$> twoPlayer st = [true; false] ∨ turn <$> twoPlayer st = [false; true])
  ∧ Forall botMaximizes (twoPlayer st)
  ∧ Forall safePosition (cells st).

(** ** The choice of [findBestMove] *)

(** The score [findBestMove] obtains for a move: the move is applied to the
    board and the position is searched from depth 0 with the full window. *)
Definition moveScore (settings : Settings) (fuel : nat) (st : BoardState) (move : nat * nat)
    : outcome Score :=
  st1 ← applyMoveAndTurn st move.1 move.2 (maxStackSize settings);
  fst <$> minimax settings fuel st1 0 NegInf PosInf.

(** The same score on a board that is never mutated (a proof device). *)
Definition pureMoveScore (settings : Settings) (fuel : nat) (st : BoardState) (move : nat * nat)
    : outcome Score :=
  st1 ← applyMoveAndTurn st move.1 move.2 (maxStackSize settings);
  pureMinimax settings fuel st1 0 NegInf PosInf.

(** * Example boards and settings *)

#[global] Instance wf_state_dec st : Decision (wf_state st).
Proof. unfold wf_state, wf_board, wf_players, capped. apply _. Defined.

#[global] Instance playable_dec st : Decision (playable st).
Proof. unfold playable, botMaximizes, safePosition. apply _. Defined.

(** The factory settings of [ConfigState], with the given search depth. *)
Definition factorySettings (d : Z) : Settings :=
  mkSettings 1 6 3 d
    (Qc_of_Z 70) (Qc_of_Z 1)
    (Qc_of_Z 10) (Qc_of_Z 10) (Qc_of_Z 8) (Qc_of_Z 7) (Qc_of_Z 7) (Qc_of_Z 8)
    (Qc_of_Z 2) (Qc_of_Z 10)
    (Qc_of_Z 40).

(** [createPlayer]: the bot first, the user to move. *)
Definition botPlayer : Player := mkPlayer BOT true false false 0 (mkVault 0 0) false.
Definition userPlayer : Player := mkPlayer USER false true false 0 (mkVault 0 0) false.
Definition newPlayers : list Player := [botPlayer; userPlayer].

Definition emptyCells : list GridCell :=
  (fun i => mkGridCell (i / 6) (i mod 6) [] 0 false) <$> seqZ 0 36.

(** Put a tower on the cell at index [i]. *)
Definition placeTower (i : nat) (layout : list PlayerId) (dir : Z) (reversed : bool)
    (cs : list GridCell) : list GridCell :=
  alter (fun c => mkGridCell (row c) (column c) layout dir reversed) i cs.

(** [createBoard]: user towers on rows 0 and 1, bot towers on rows 4 and 5. *)
Definition initialBoard : BoardState :=
  mkBoardState
    ((fun c => if decide (row c < 2) then mkGridCell (row c) (column c) [USER] 1 false
               else if decide (4 ≤ row c) then mkGridCell (row c) (column c) [BOT] (-1) false
               else c) <$> emptyCells)
    newPlayers.

(** The same position with the bot to move. *)
Definition initialBoardBot : BoardState :=
  mkBoardState (cells initialBoard) (switchPlayer newPlayers).

(** A user tower on (2,2) and a bot tower on (4,4); the user to move. *)
Definition sparseBoard : BoardState :=
  mkBoardState (placeTower 14 [USER] 1 false (placeTower 28 [BOT] (-1) false emptyCells))
    newPlayers.

(** A bot tower on (3,0) facing the last user tower on (2,0); the bot to move. *)
Definition captureBoard : BoardState :=
  mkBoardState (placeTower 18 [BOT] (-1) false (placeTower 12 [USER] 1 false emptyCells))
    (switchPlayer newPlayers).

(** A user tower on (4,0), one step from the far row; the user to move. *)
Definition farRowBoard : BoardState :=
  mkBoardState (placeTower 24 [USER] 1 false (placeTower 35 [BOT] (-1) false emptyCells))
    newPlayers.

(** The factory settings with the opponent weight 1.7 and the total weight
    5 of the safety zone proximity. *)
Definition decimalSettings (d : Z) : Settings :=
  mkSettings 1 6 3 d
    (Qc_of_Z 70) (Qc_of_Z 1)
    (Qc_of_Z 10) (Qc_of_Z 10) (Qc_of_Z 8) (Qc_of_Z 7) (Qc_of_Z 7) (Qc_of_Z 8)
    (Q2Qc (17 # 10)) (Qc_of_Z 5)
    (Qc_of_Z 40).

(** A reversed bot tower on (4,0), one row from its safety row, and a
    reversed user tower on (4,5), four rows from its own; the user to move. *)
Definition reversedBoard : BoardState :=
  mkBoardState (placeTower 24 [BOT] 1 true (placeTower 29 [USER] (-1) true emptyCells))
    newPlayers.

(** The board a computation returns, or [fallback]. *)
Definition boardOf (o : outcome BoardState) (fallback : BoardState) : BoardState :=
  match o with
  | Done st => st
  | _ => fallback
  end.

(** [sparseBoard] after the lateral user move (2,2) to (2,1) and after the
    bot reply (4,4) to (3,4). *)
Definition sparseBoard1 : BoardState :=
  boardOf (applyMoveAndTurn sparseBoard 14 13 3) sparseBoard.
Definition sparseBoard2 : BoardState :=
  boardOf (applyMoveAndTurn sparseBoard1 28 22 3) sparseBoard.

(** [captureBoard] with the [winner] flag of the bot set. *)
Definition captureBoardWon : BoardState :=
  markWinner captureBoard 0 (set_turn botPlayer true).

(** Cells and a mover for a stacking with overflow: a bot stone onto a
    full stack topped by the user. *)
Definition bottomUserStack : GridCell := mkGridCell 2 0 [USER; BOT; USER] 1 false.
Definition singleBotStone : GridCell := mkGridCell 3 0 [BOT] (-1) false.

(** Discharge a decidable side condition on concrete data by evaluation. *)
Ltac by_compute := apply (bool_decide_unpack _); vm_compute; exact I.

(** * The game around the search: set-up, invariants of play *)

(** ** main.js: [createBoard] and [createPlayer] *)

(** [Math.round(a / b)] on integers. *)
Definition round_div (a b : Z) : Z := Qfloor (inject_Z a / inject_Z b + (1 # 2))%Q.

(** [cells.filter(cell => cell.row === r).forEach(cell => {
      cell.svgLayout.push(pid); cell.direction = dir; })] *)
Definition placeStones (r : Z) (pid : PlayerId) (dir : Z) (cs : list GridCell) : list GridCell :=
  (fun cell => if decide (row cell = r)
               then mkGridCell (row cell) (column cell) (svgLayout cell ++ [pid]) dir (dot cell)
               else cell) <$> cs.

(** [createPlayer]: [new Player(BOT, true, false)], [new Player(USER, false, true)]. *)
Definition createPlayer : list Player :=
  [mkPlayer BOT true false false 0 (mkVault 0 0) false;
   mkPlayer USER false true false 0 (mkVault 0 0) false].

(** The four set-up passes shared by [createBoard] and [resetGame]. *)
Definition setUpTowers (cs : list GridCell) : list GridCell :=
  placeStones (6 - 2) BOT (-1)
    (placeStones (6 - 1) BOT (-1)
       (placeStones 1 USER 1
          (placeStones 0 USER 1 cs))).

(** [createBoard] for a board element with [children] cells. *)
Definition createBoard (children : nat) : BoardState :=
  let cells :=
    (fun index =>
       let column := Z.rem index 6 in
       let row := round_div (index - column) 6 in
       mkGridCell row column [] 0 false) <$> seqZ 0 (Z.of_nat children) in
  mkBoardState (setUpTowers cells) createPlayer.

(** ** Vocabulary for the invariants of play *)

(** The stones of [pid] on the board. *)
Definition stonesOf (pid : PlayerId) (cs : list GridCell) : nat :=
  sum_list ((fun c => length (filter (fun stone => stone = pid) (svgLayout c))) <$> cs).

(** No stack is higher than [maxStackSize]. *)
Definition heightBounded (maxStackSize : Z) (cs : list GridCell) : Prop :=
  Forall (fun c => Z.of_nat (length (svgLayout c)) ≤ maxStackSize) cs.

(** The direction of a cell fits its tower: an empty cell has direction 0
    and no dot; a user tower moves up the rows until it is reversed, a bot
    tower down. *)
Definition oriented (c : GridCell) : Prop :=
  match top c with
  | None => direction c = 0 ∧ dot c = false
  | Some USER => direction c = (if dot c then -1 else 1)
  | Some BOT => direction c = (if dot c then 1 else -1)
  end.

#[global] Instance oriented_dec c : Decision (oriented c).
Proof. unfold oriented. destruct (top c) as [[]|]; apply _. Defined.

(** The stones of the target after the stacking of [src] onto [tgt]. *)
Definition stackedLayout (src tgt : list PlayerId) (maxStackSize : Z) : list PlayerId :=
  if decide (tgt = []) then src
  else drop (overflowCount src tgt maxStackSize) (tgt ++ src).

(** The moving tower is reversed, or secured, on the row of the target. *)
Definition reverses (srcInst tgtInst : GridCell) : Prop :=
  dot srcInst = false
  ∧ ((top srcInst = Some USER ∧ row tgtInst = 5) ∨ (top srcInst = Some BOT ∧ row tgtInst = 0)).
Definition secures (srcInst tgtInst : GridCell) : Prop :=
  dot srcInst = true
  ∧ ((top srcInst = Some USER ∧ row tgtInst = 0) ∨ (top srcInst = Some BOT ∧ row tgtInst = 5)).

#[global] Instance reverses_dec s t : Decision (reverses s t).
Proof. unfold reverses. apply _. Defined.
#[global] Instance secures_dec s t : Decision (secures s t).
Proof. unfold secures. apply _. Defined.

(** The target cell after a move, in closed form. *)
Definition movedTarget (srcInst tgtInst : GridCell) (maxStackSize : Z) : GridCell :=
  let layout := stackedLayout (svgLayout srcInst) (svgLayout tgtInst) maxStackSize in
  if decide (secures srcInst tgtInst) then clearedCell tgtInst
  else if decide (reverses srcInst tgtInst)
    then mkGridCell (row tgtInst) (column tgtInst) layout (- direction srcInst) true
    else mkGridCell (row tgtInst) (column tgtInst) layout (direction srcInst) (dot srcInst).

(** The boards of a game: the initial board, a legal move of the player to
    move, a win check. *)
Inductive reachable (settings : Settings) : BoardState → Prop :=
  | reachable_start : reachable settings (createBoard 36)
  | reachable_move st st1 pi player s t :
      reachable settings st →
      theMover st = Some (pi, player) →
      (s, t) ∈ getAllPossibleMoves st player →
      applyMoveAndTurn st s t (maxStackSize settings) = Done st1 →
      reachable settings st1
  | reachable_checkWin st st1 pi b :
      reachable settings st →
      checkWin st pi settings = Done (b, st1) →
      reachable settings st1.

(** * The game loop *)

(** ** GameState: copies *)

(** [GridCell.createFromStructuredClone], [Player.createFromStructuredClone]
    and [BoardState.createFromStructuredClone]: instances rebuilt from the
    fields of a plain object. *)
Definition GridCell_createFromStructuredClone (cellPlain : GridCell) : GridCell :=
  mkGridCell (row cellPlain) (column cellPlain) (svgLayout cellPlain)
             (direction cellPlain) (dot cellPlain).

Definition Player_createFromStructuredClone (playerPlain : Player) : Player :=
  mkPlayer (id playerPlain) (isMaximizing playerPlain) (turn playerPlain)
           (lastHorizontal playerPlain) (safetyTower playerPlain)
           (mkVault (self (vault playerPlain)) (opponent (vault playerPlain)))
           (winner playerPlain).

Definition createFromStructuredClone (boardStatePlain : BoardState) : BoardState :=
  mkBoardState (GridCell_createFromStructuredClone <$> cells boardStatePlain)
               (Player_createFromStructuredClone <$> twoPlayer boardStatePlain).

(** [BoardState.cloneInstance]: a deep copy; every constructor call is the
    one of [createFromStructuredClone]. *)
Definition cloneInstance (st : BoardState) : BoardState :=
  mkBoardState (GridCell_createFromStructuredClone <$> cells st)
               (Player_createFromStructuredClone <$> twoPlayer st).

(** ** The live board *)

(** The [BoardState] with DOM relation: the board and the two flags that
    switch the event handlers of the page off. *)
Record DomBoard : Type := mkDomBoard {
  boardState : BoardState;
  disableBoardEvents : bool;
  waitForWebWorker : bool
}.

(** The board of [dom] after a mutation, and the setters of the flags. *)
Definition set_boardState (dom : DomBoard) (st : BoardState) : DomBoard :=
  mkDomBoard st (disableBoardEvents dom) (waitForWebWorker dom).
Definition set_disableBoardEvents (dom : DomBoard) (value : bool) : DomBoard :=
  mkDomBoard (boardState dom) value (waitForWebWorker dom).
Definition set_waitForWebWorker (dom : DomBoard) (value : bool) : DomBoard :=
  mkDomBoard (boardState dom) (disableBoardEvents dom) value.

(** ** AiWorker.js: the message handler of the worker *)

(** What [dispatchWorker] resolves with. *)
Inductive WorkerResponse : Type :=
  | ResponseMove (srcCell tgtCell : GridCell)  (* error: false, message: [srcCell, tgtCell] *)
  | ResponseError                              (* error: true, message: "Caught error in ai worker: ..." *)
  | ResponseTimeout.                           (* error: true, message: "timeout" *)

(** The listener for [message] events; [None]: the worker is still
    running. *)
Definition onMessage (requestType : string) (boardStatePlain : BoardState)
    (settings : Settings) (fuel : nat) : option WorkerResponse :=
  if decide (requestType = "findBestMove"%string) then
    let boardState := createFromStructuredClone boardStatePlain in
    match findBestMove settings fuel boardState with
    | Done (move, boardState) =>
        match cells boardState !! move.1, cells boardState !! move.2 with
        | Some srcCell, Some tgtCell => Some (ResponseMove srcCell tgtCell)
        | _, _ => Some ResponseError
        end
    | Throw _ => Some ResponseError
    | Timeout => None
    end
  else Some ResponseError.

(** [dispatchWorker]: the answer of the worker, or the timeout message when
    the timer fires first. *)
Definition dispatchWorker (timerFirst : bool) (answer : option WorkerResponse) : WorkerResponse :=
  if timerFirst then ResponseTimeout
  else match answer with
       | Some response => response
       | None => ResponseTimeout
       end.

(** ** GameEventLoop.js *)

(** How a call of [playUserMove] ends.  The logger, the sidebars and the
    CSS animations are outside the model, and no other event handler runs
    while the call is suspended. *)
Inductive Round : Type :=
  | UserWon (dom : DomBoard)
  | BotWon (dom : DomBoard)
  | NextTurn (dom : DomBoard)
  | WorkerTimedOut (dom : DomBoard)      (* the timeout dialog is shown *)
  | WorkerFailed (dom : DomBoard)        (* throws "Caught error in ai worker: ..." *)
  | InvalidMoveData (dom : DomBoard).    (* throws "Invalid move data received from worker. ..." *)

Module GameEventLoop.

Definition disableBoardEvents (dom : DomBoard) : DomBoard :=
  set_disableBoardEvents dom true.

Definition enableBoardEvents (dom : DomBoard) : DomBoard :=
  set_disableBoardEvents dom false.

(** [domBoardState.cells.find(cell => cell.id === cellId)] *)
Definition findById (st : BoardState) (cellId : Z) : option nat :=
  fst <$> list_find (fun cell => cell_id cell = cellId) (cells st).

(** [twoPlayer.find(player => player.turn === value)], as an index. *)
Definition findByTurn (st : BoardState) (value : bool) : option nat :=
  fst <$> list_find (fun player => turn player = value) (twoPlayer st).

Definition playBotMove (settings : Settings) (fuel : nat) (timerFirst : bool) (dom : DomBoard)
    : outcome Round :=
  let dom := set_waitForWebWorker dom true in
  let aiWorkerResponse :=
    dispatchWorker timerFirst
      (onMessage "findBestMove" (cloneInstance (boardState dom)) settings fuel) in
  match aiWorkerResponse with
  | ResponseTimeout => Done (WorkerTimedOut dom)
  | ResponseError => Done (WorkerFailed dom)
  | ResponseMove srcCell tgtCell =>
      let srcCellId := cell_id srcCell in
      let tgtCellId := cell_id tgtCell in
      match findById (boardState dom) srcCellId, findById (boardState dom) tgtCellId with
      | Some moveBotSrcInst, Some moveBotTgtInst =>
          st ← applyMoveAndTurn (boardState dom) moveBotSrcInst moveBotTgtInst
                 (maxStackSize settings);
          let playerBot := findByTurn st false in
          let playerUser := findByTurn st true in
          playerBot ← orThrow playerBot TypeError;
          let dom := set_waitForWebWorker (set_boardState dom st) false in
          '(won, st) ← checkWin st playerBot settings;
          let dom := set_boardState dom st in
          if (won : bool) then Done (BotWon dom)
          else
            _ ← orThrow playerUser TypeError;
            Done (NextTurn (enableBoardEvents dom))
      | _, _ => Done (InvalidMoveData dom)
      end
  end.

Definition playUserMove (settings : Settings) (fuel : nat) (timerFirst : bool) (dom : DomBoard)
    (markedCell clickedCell : nat) : outcome Round :=
  st ← applyMoveAndTurn (boardState dom) markedCell clickedCell (maxStackSize settings);
  let dom := disableBoardEvents (set_boardState dom st) in
  let playerUser := findByTurn st false in
  let playerBot := findByTurn st true in
  playerUser ← orThrow playerUser TypeError;
  '(won, st) ← checkWin st playerUser settings;
  let dom := set_boardState dom st in
  if (won : bool) then Done (UserWon dom)
  else
    _ ← orThrow playerBot TypeError;
    playBotMove settings fuel timerFirst dom.

(** The body of the [forEach] over the players in [resetGame]; the vault
    is zeroed field by field, not through its setter. *)
Definition resetPlayer (player : Player) : Player :=
  let player := set_turn player (if decide (id player = BOT) then false else true) in
  let player := set_lastHorizontal player false in
  let player := set_safetyTower player 0 in
  let player := withVault player (mkVault 0 (opponent (vault player))) in
  let player := withVault player (mkVault (self (vault player)) 0) in
  set_winner player false.

Definition resetGame (dom : DomBoard) : DomBoard :=
  let st := boardState dom in
  let cells := clearedCell <$> cells st in
  let players := resetPlayer <$> twoPlayer st in
  mkDomBoard (mkBoardState (setUpTowers cells) players) false false.

End GameEventLoop.

(** ** ReplayHistoryEventLoop.js *)

Module ReplayHistoryEventLoop.

(** The body of the [forEach] over the cells of the live board. *)
Fixpoint replayCells (newCells : list GridCell) (index : nat) (cs : list GridCell)
    : outcome (list GridCell) :=
  match cs with
  | [] => Done []
  | cell :: cs =>
      newCell ← orThrow (newCells !! index) TypeError;
      let cell := mkGridCell (row cell) (column cell) (svgLayout newCell)
                    (direction newCell) (dot newCell) in
      cs ← replayCells newCells (S index) cs;
      Done (cell :: cs)
  end.

(** The five assignments through the setters of [Player]. *)
Definition copyPlayer (newPlayer : Player) (player : Player) : Player :=
  let player := set_turn player (turn newPlayer) in
  let player := set_lastHorizontal player (lastHorizontal newPlayer) in
  let player := set_safetyTower player (safetyTower newPlayer) in
  let player := set_vault player (vault newPlayer) in
  set_winner player (winner newPlayer).

(** The body of the [forEach] over the players of the live board. *)
Definition replayPlayer (newPlayerBot newPlayerUser : option Player) (player : Player)
    : outcome Player :=
  player ←
    (if decide (id player = BOT) then
       newPlayerBot ← orThrow newPlayerBot TypeError;
       Done (copyPlayer newPlayerBot player)
     else Done player);
  if decide (id player = USER) then
    newPlayerUser ← orThrow newPlayerUser TypeError;
    Done (copyPlayer newPlayerUser player)
  else Done player.

Fixpoint replayPlayers (newPlayerBot newPlayerUser : option Player) (ps : list Player)
    : outcome (list Player) :=
  match ps with
  | [] => Done []
  | player :: ps =>
      player ← replayPlayer newPlayerBot newPlayerUser player;
      ps ← replayPlayers newPlayerBot newPlayerUser ps;
      Done (player :: ps)
  end.

(** [replayToSelectedBoardState(record, domBoardState)], for the board
    state of the record. *)
Definition replayToSelectedBoardState (recordBoardState : BoardState) (dom : DomBoard)
    : outcome DomBoard :=
  let newBoardState := createFromStructuredClone recordBoardState in
  let newPlayerBot := snd <$> list_find (fun player => id player = BOT) (twoPlayer newBoardState) in
  let newPlayerUser := snd <$> list_find (fun player => id player = USER) (twoPlayer newBoardState) in
  cells ← replayCells (cells newBoardState) 0 (cells (boardState dom));
  players ← replayPlayers newPlayerBot newPlayerUser (twoPlayer (boardState dom));
  Done (mkDomBoard (mkBoardState cells players) (disableBoardEvents dom) (waitForWebWorker dom)).

End ReplayHistoryEventLoop.

(** * The pictures and the replay cursor *)

(** ** [updateSvg]: the symbol of a cell *)

(** [PLAYER_ID]: the stones as they are stored in [svgLayout]. *)
Definition PLAYER_ID (pid : PlayerId) : string :=
  match pid with
  | USER => "user"
  | BOT => "bot"
  end.

(** [GridCell.updateSvg] and [updateSvg] of the replay board: the id of the
    symbol of pieces.svg the cell is drawn with. *)
Definition svgSymbol (svgLayout : list PlayerId) (dot : bool) : string :=
  let svgLayoutString :=
    if decide (length svgLayout = 0%nat) then "none"
    else
      let svgLayoutString := String.concat "_" (PLAYER_ID <$> svgLayout) in
      if dot then svgLayoutString +:+ "_dot" else svgLayoutString in
  "tower_" +:+ svgLayoutString.

(** ** [prettifyMoveNumber]: the three digit icons of the move counter *)

Definition prettifyMoveNumber (moveNo : Z) : Z * Z * Z :=
  let hundreds := moveNo / 100 in
  let tens := Z.rem moveNo 100 / 10 in
  let ones := Z.rem moveNo 10 in
  (hundreds, tens, ones).

(** ** Logger.js: the cursor of [LoggerReader] *)

Module LoggerReader.

(** The argument of [fetchRecord]: [Infinity], [-Infinity] or a number of
    steps. *)
Inductive Steps : Type :=
  | Infinity
  | NegInfinity
  | By (n : Z).

(** The async generator of [generatorFactory]: not yet started, suspended
    at the [yield] that receives the steps, or finished. *)
Inductive Generator : Type :=
  | NotStarted
  | Suspended (cursorIndex : Z)
  | Finished.

(** [this.primaryKeys[cursorIndex]] *)
Definition keyAt {Key} (primaryKeys : list Key) (cursorIndex : Z) : option Key :=
  if decide (0 ≤ cursorIndex) then primaryKeys !! Z.to_nat cursorIndex else None.

(** How [fetchRecord] ends: with the record stored under a key of the
    reader ([None]: the key read from [primaryKeys] is [undefined]), or with
    "error 1 in fetchRecord: Unconditional return in AsyncGenerator
    object". *)
Inductive FetchResult (Key : Type) : Type :=
  | Fetched (key : option Key)
  | FetchError.
Arguments Fetched {Key} key.
Arguments FetchError {Key}.

(** [fetchRecord(advanceSteps)] and the generator afterwards; the two calls
    of [next] are the run to [yield record] and the run on to the bare
    [yield].  The request to the database is outside the model. *)
Definition fetchRecord {Key} (primaryKeys : list Key) (advanceSteps : Steps)
    (generator : Generator) : FetchResult Key * Generator :=
  let len := Z.of_nat (length primaryKeys) in
  match generator with
  | NotStarted =>
      if decide (len = 0) then (FetchError, Finished)
      else
        let cursorIndex := len - 1 in
        (Fetched (keyAt primaryKeys cursorIndex), Suspended cursorIndex)
  | Suspended cursorIndex =>
      let cursorIndex :=
        match advanceSteps with
        | Infinity => len - 1
        | NegInfinity => 0
        | By n => cursorIndex + n
        end in
      if decide (len = 0) then (FetchError, Finished)
      else
        let cursorIndex := if decide (cursorIndex < 0) then 0 else cursorIndex in
        let cursorIndex := if decide (len - 1 < cursorIndex) then len - 1 else cursorIndex in
        (Fetched (keyAt primaryKeys cursorIndex), Suspended cursorIndex)
  | Finished => (FetchError, Finished)
  end.

End LoggerReader.

(** * The settings *)

(** ** ConfigState.js *)

Module ConfigState.

(** A number of JavaScript: [None] is [NaN]. *)
Definition JsNumber : Type := option Qc.
Definition number (z : Z) : JsNumber := Some (Qc_of_Z z).

(** The [settings] object of a group: its entries in the order of
    [Object.entries], which is the insertion order (no key of the settings
    is an array index). *)
Definition SettingsObject : Type := list (string * JsNumber).

(** [obj[key]] *)
Fixpoint get (obj : SettingsObject) (key : string) : option JsNumber :=
  match obj with
  | [] => None
  | (k, v) :: obj => if decide (k = key) then Some v else get obj key
  end.

(** [obj[key] = val] *)
Fixpoint assign (obj : SettingsObject) (key : string) (val : JsNumber) : SettingsObject :=
  match obj with
  | [] => [(key, val)]
  | (k, v) :: obj => if decide (k = key) then (k, val) :: obj else (k, v) :: assign obj key val
  end.

(** A group of settings: [{ id, settings }]. *)
Record Group : Type := mkGroup {
  groupId : string;
  groupSettings : SettingsObject
}.

Definition factoryWinningRules : Group :=
  mkGroup "WinningRules"
    [("safetyZone", number 1); ("materialOpponent", number 6); ("maxStackSize", number 3)]%string.
Definition factorySearchRules : Group :=
  mkGroup "SearchRules" [("depth", number 5); ("timeout", number 50)]%string.
Definition factoryMaterialAdvantageConquered : Group :=
  mkGroup "MaterialAdvantageConquered"
    [("totalWeight", number 70); ("opponentWeight", number 1)]%string.
Definition factorySafetyZoneProximity : Group :=
  mkGroup "SafetyZoneProximity"
    [("weightRowDistance1", number 10); ("weightRowDistance2", number 10);
     ("weightRowDistance3", number 8); ("weightRowDistance4", number 7);
     ("weightRowDistance5", number 7); ("safetyZoneTotalDistance", number 8);
     ("opponentWeight", number 2); ("totalWeight", number 10)]%string.
Definition factoryMaterialAdvantageAccounted : Group :=
  mkGroup "MaterialAdvantageAccounted" [("totalWeight", number 40)]%string.

(** The loop of a setter over the entries of [value.settings]: the
    settings of the group afterwards, and whether the setter has thrown
    "Class Settings: Invalid value for setter". *)
Fixpoint copyEntries (entries target : SettingsObject) : SettingsObject * bool :=
  match entries with
  | [] => (target, false)
  | (key, val) :: entries =>
      match val with
      | None => (target, true)
      | Some _ => copyEntries entries (assign target key val)
      end
  end.

(** A setter of [Settings], for the group with the identifier
    [expectedId]. *)
Definition setGroup (expectedId : string) (value current : Group) : Group * bool :=
  if decide (groupId value = ""%string ∨ groupId value ≠ expectedId) then (current, true)
  else
    let r := copyEntries (groupSettings value) (groupSettings current) in
    (mkGroup (groupId current) r.1, r.2).

End ConfigState.

(** ** main.js: [saveCurrentSettings] *)

Module Main.
Import ConfigState.

(** An [input] element of the settings page. *)
Record Input : Type := mkInput {
  input_id : string;
  input_value : string
}.

(** The five objects [saveCurrentSettings] fills from the page. *)
Record NewSettings : Type := mkNewSettings {
  newWinningRules : Group;
  newSearchRules : Group;
  newMaterialAdvantageConquered : Group;
  newSafetyZoneProximity : Group;
  newMaterialAdvantageAccounted : Group
}.

(** [group.settings[key] = val] *)
Definition setSetting (group : Group) (key : string) (val : JsNumber) : Group :=
  mkGroup (groupId group) (assign (groupSettings group) key val).

Definition factoryNewSettings : NewSettings :=
  mkNewSettings factoryWinningRules factorySearchRules factoryMaterialAdvantageConquered
    factorySafetyZoneProximity factoryMaterialAdvantageAccounted.

Section SaveCurrentSettings.
(** [Number(string)] and [parseFloat(string)]. *)
Context (Number parseFloat : string → JsNumber).

Definition inWinningRules (new : NewSettings) (key : string) (val : JsNumber) : NewSettings :=
  mkNewSettings (setSetting (newWinningRules new) key val) (newSearchRules new)
    (newMaterialAdvantageConquered new) (newSafetyZoneProximity new)
    (newMaterialAdvantageAccounted new).
Definition inSearchRules (new : NewSettings) (key : string) (val : JsNumber) : NewSettings :=
  mkNewSettings (newWinningRules new) (setSetting (newSearchRules new) key val)
    (newMaterialAdvantageConquered new) (newSafetyZoneProximity new)
    (newMaterialAdvantageAccounted new).
Definition inMaterialAdvantageConquered (new : NewSettings) (key : string) (val : JsNumber)
    : NewSettings :=
  mkNewSettings (newWinningRules new) (newSearchRules new)
    (setSetting (newMaterialAdvantageConquered new) key val) (newSafetyZoneProximity new)
    (newMaterialAdvantageAccounted new).
Definition inSafetyZoneProximity (new : NewSettings) (key : string) (val : JsNumber)
    : NewSettings :=
  mkNewSettings (newWinningRules new) (newSearchRules new)
    (newMaterialAdvantageConquered new) (setSetting (newSafetyZoneProximity new) key val)
    (newMaterialAdvantageAccounted new).
Definition inMaterialAdvantageAccounted (new : NewSettings) (key : string) (val : JsNumber)
    : NewSettings :=
  mkNewSettings (newWinningRules new) (newSearchRules new)
    (newMaterialAdvantageConquered new) (newSafetyZoneProximity new)
    (setSetting (newMaterialAdvantageAccounted new) key val).

(** The [switch (input.id)] in the [forEach] over the inputs; [None]:
    throws "unknown input element".  The case
    "safetyZoneTotalDistanceWeight" has no [break] and runs on into the
    case "safetyZoneOpponentWeight". *)
Definition readInput (new : NewSettings) (input : Input) : option NewSettings :=
  let value := input_value input in
  let id := input_id input in
  if decide (id = "safetyTowers"%string) then
    Some (inWinningRules new "safetyZone" (Number value))
  else if decide (id = "opponentStones"%string) then
    Some (inWinningRules new "materialOpponent" (Number value))
  else if decide (id = "maxStackSize"%string) then
    Some (inWinningRules new "maxStackSize" (Number value))
  else if decide (id = "searchDepth"%string) then
    Some (inSearchRules new "depth" (Number value))
  else if decide (id = "searchTimeout"%string) then
    Some (inSearchRules new "timeout" (Number value))
  else if decide (id = "materialAdvantageConquered"%string) then
    Some (inMaterialAdvantageConquered new "totalWeight" (Number value))
  else if decide (id = "materialAdvantageOpponentWeight"%string) then
    Some (inMaterialAdvantageConquered new "opponentWeight" (parseFloat value))
  else if decide (id = "safetyZone1"%string) then
    Some (inSafetyZoneProximity new "weightRowDistance1" (Number value))
  else if decide (id = "safetyZone2"%string) then
    Some (inSafetyZoneProximity new "weightRowDistance2" (Number value))
  else if decide (id = "safetyZone3"%string) then
    Some (inSafetyZoneProximity new "weightRowDistance3" (Number value))
  else if decide (id = "safetyZone4"%string) then
    Some (inSafetyZoneProximity new "weightRowDistance4" (Number value))
  else if decide (id = "safetyZone5"%string) then
    Some (inSafetyZoneProximity new "weightRowDistance5" (Number value))
  else if decide (id = "safetyZoneTotalDistanceWeight"%string) then
    let new := inSafetyZoneProximity new "safetyZoneTotalDistance" (Number value) in
    Some (inSafetyZoneProximity new "opponentWeight" (parseFloat value))
  else if decide (id = "safetyZoneOpponentWeight"%string) then
    Some (inSafetyZoneProximity new "opponentWeight" (parseFloat value))
  else if decide (id = "safetyZoneTotalWeight"%string) then
    Some (inSafetyZoneProximity new "totalWeight" (Number value))
  else if decide (id = "materialAdvantageAccounted"%string) then
    Some (inMaterialAdvantageAccounted new "totalWeight" (Number value))
  else None.

(** [domInputs.forEach(...)] *)
Fixpoint readInputs (new : NewSettings) (domInputs : list Input) : option NewSettings :=
  match domInputs with
  | [] => Some new
  | input :: domInputs => new ← readInput new input; readInputs new domInputs
  end.

End SaveCurrentSettings.
End Main.

(** * Further boards and inputs for the theorems *)

(** The initial board after the opening move (1,0) to (2,0) of the user. *)
Definition openingBoard : BoardState :=
  boardOf (applyMoveAndTurn (createBoard 36) 6 12 3) (createBoard 36).

(** [captureBoard] after the bot has taken the last user tower. *)
Definition wipedBoard : BoardState :=
  boardOf (applyMoveAndTurn captureBoard 18 12 3) captureBoard.

(** The bot to move after a lateral move, its three towers in column 0
    standing in each other's way: a reversed one on (0,0), two on (1,0) and
    (2,0) moving towards it. *)
Definition blockedBoard : BoardState :=
  mkBoardState
    (placeTower 0 [BOT] 1 true
       (placeTower 6 [BOT] (-1) false
          (placeTower 12 [BOT] (-1) false
             (placeTower 21 [USER] 1 false emptyCells))))
    [set_lastHorizontal (set_turn botPlayer true) true; set_turn userPlayer false].

(** [Number] and [parseFloat] on the values of two sliders. *)
Definition parseSlider (value : string) : ConfigState.JsNumber :=
  if decide (value = "8"%string) then ConfigState.number 8
  else if decide (value = "2"%string) then ConfigState.number 2
  else None.

(** The two sliders of the safety zone that write [opponentWeight]. *)
Definition sliderInputs : list Main.Input :=
  [Main.mkInput "safetyZoneOpponentWeight" "2";
   Main.mkInput "safetyZoneTotalDistanceWeight" "8"].

(** * Properties *)

(** ** Win check *)

Lemma other_neq (a b : PlayerId) : a ≠ b ↔ a = other b.
Proof. destruct a, b; simpl; split; intros; congruence. Qed.

Lemma list_find_top_None (st : BoardState) (pid : PlayerId) :
  list_find (fun cell => top cell = Some pid) (cells st) = None ↔ ¬ hasTower st pid.
Proof.
  rewrite list_find_None. unfold hasTower. by rewrite <- Forall_Exists_neg.
Qed.

Lemma checkWin_cases (st : BoardState) (pi : nat) (player other_player : Player)
    (settings : Settings) :
  twoPlayer st !! pi = Some player →
  other_player ∈ twoPlayer st →
  id other_player ≠ id player →
  ∃ b : bool,
    checkWin st pi settings
      = Done (b, if b then markWinner st pi player else st)
    ∧ (b = true ↔ winCondition st player settings).
Proof.
  intros Hp Hin Hne. unfold checkWin. rewrite Hp. simpl.
  destruct (list_find (fun playerInst => id playerInst ≠ id player) (twoPlayer st))
    as [[j opp]|] eqn:Hopp.
  2: { apply list_find_None in Hopp. rewrite Forall_forall in Hopp.
       exfalso. by apply (Hopp _ Hin). }
  apply list_find_Some in Hopp as (_ & Hoid & _).
  apply other_neq in Hoid.
  case_decide as Hfast.
  { exists true. split; [done|]. split; [|done]. intros _.
    unfold winCondition. tauto. }
  assert (∃ o, (match cells st with
                | [] => Done None
                | _ => opponent ← orThrow (snd <$> Some (j, opp)) TypeError;
                       Done (list_find (fun cell => top cell = Some (id opponent)) (cells st))
                end) = Done o ∧ (o = None ↔ ¬ hasTower st (other (id player)))) as (o & -> & Ho).
  { destruct (cells st) as [|c0 cs] eqn:Hcs.
    - exists None. split; [done|]. split; [|done]. intros _ Hex.
      unfold hasTower in Hex. rewrite Hcs in Hex. by apply Exists_nil in Hex.
    - eexists. split; [reflexivity|]. simpl.
      rewrite <- list_find_top_None, Hcs, Hoid. done. }
  simpl. case_decide as Hwipe.
  - exists true. split; [done|]. split; [|done]. intros _.
    unfold winCondition. rewrite <- Ho, <- list_find_top_None. tauto.
  - exists false. split; [done|]. split; [done|]. intros Hw. exfalso.
    unfold winCondition in Hw. rewrite <- Ho, <- list_find_top_None in Hw. tauto.
Qed.

Lemma checkWin_decide (st : BoardState) (pi : nat) (player other_player : Player)
    (settings : Settings) :
  twoPlayer st !! pi = Some player →
  other_player ∈ twoPlayer st →
  id other_player ≠ id player →
  checkWin st pi settings
  = Done (bool_decide (winCondition st player settings),
          if decide (winCondition st player settings) then markWinner st pi player else st).
Proof.
  intros Hp Hin Hne.
  destruct (checkWin_cases st pi player other_player settings Hp Hin Hne) as (b & -> & Hb).
  destruct b.
  - rewrite bool_decide_eq_true_2 by (by apply Hb). rewrite decide_True by (by apply Hb). done.
  - assert (¬ winCondition st player settings) as Hn.
    { intros Hw. apply Hb in Hw. done. }
    rewrite bool_decide_eq_false_2 by done. rewrite decide_False by done. done.
Qed.

(** C7. [checkWin] returns [true] exactly under the win condition (vault
    threshold, secured towers, or wipe-out while it is not the player's
    turn); it sets [winner] of that player exactly then and otherwise
    leaves the board as it was. *)
Theorem checkWin_spec (st : BoardState) (pi : nat) (player other_player : Player)
    (settings : Settings) :
  twoPlayer st !! pi = Some player →
  other_player ∈ twoPlayer st →
  id other_player ≠ id player →
  ∃ b : bool,
    checkWin st pi settings
      = Done (b, if b then markWinner st pi player else st)
    ∧ (b = true ↔ winCondition st player settings).
Proof. apply checkWin_cases. Qed.

(** ** Board layout *)

Lemma boardCoords_lookup (i : nat) :
  (i < 36)%nat → boardCoords !! i = Some (Z.of_nat i / 6, Z.of_nat i mod 6).
Proof.
  intros Hi. unfold boardCoords. rewrite list_lookup_fmap.
  rewrite (lookup_seqZ_lt 0 36 i) by lia. simpl. do 2 f_equal; lia.
Qed.

Lemma wf_board_length (st : BoardState) : wf_board st → length (cells st) = 36%nat.
Proof.
  intros H. apply (f_equal length) in H. rewrite length_fmap in H.
  rewrite H. reflexivity.
Qed.

Lemma wf_board_lookup (st : BoardState) (i : nat) (c : GridCell) :
  wf_board st → cells st !! i = Some c →
  (i < 36)%nat ∧ row c = Z.of_nat i / 6 ∧ column c = Z.of_nat i mod 6.
Proof.
  intros Hwf Hc.
  assert (i < 36)%nat as Hi.
  { rewrite <- (wf_board_length st Hwf). by eapply lookup_lt_Some. }
  split; [done|].
  assert (boardCoords !! i = Some (row c, column c)) as H.
  { rewrite <- Hwf, list_lookup_fmap, Hc. done. }
  rewrite boardCoords_lookup in H by done. by inversion H.
Qed.

Lemma wf_board_cell_id (st : BoardState) (i : nat) (c : GridCell) :
  wf_board st → cells st !! i = Some c → cell_id c = Z.of_nat i.
Proof.
  intros Hwf Hc. destruct (wf_board_lookup st i c Hwf Hc) as (_ & Hr & Hcol).
  unfold cell_id. pose proof (Z.div_mod (Z.of_nat i) 6). lia.
Qed.

Lemma findCell_onBoard (st : BoardState) (r c : Z) :
  wf_board st → onBoard r c →
  ∃ cell, cells st !! Z.to_nat (r * 6 + c) = Some cell
          ∧ findCell st r c = Some (Z.to_nat (r * 6 + c), cell).
Proof.
  intros Hwf [Hr Hc].
  assert (Z.to_nat (r * 6 + c) < length (cells st))%nat as Hlt.
  { rewrite (wf_board_length st Hwf). lia. }
  apply lookup_lt_is_Some in Hlt as [cell Hcell].
  exists cell. split; [done|]. apply list_find_Some. split; [done|].
  destruct (wf_board_lookup st _ _ Hwf Hcell) as (_ & Hrow & Hcol).
  rewrite Z2Nat.id in Hrow, Hcol by lia.
  split.
  - rewrite Hrow, Hcol. split.
    + rewrite Z.div_add_l by lia. rewrite Z.div_small by lia. lia.
    + rewrite Z.add_comm, Z.mod_add by lia. apply Z.mod_small. lia.
  - intros j y Hy Hj [Hyr Hyc].
    destruct (wf_board_lookup st _ _ Hwf Hy) as (_ & Hrow' & Hcol').
    pose proof (Z.div_mod (Z.of_nat j) 6). lia.
Qed.

Lemma findCell_offBoard (st : BoardState) (r c : Z) :
  wf_board st → ¬ onBoard r c → findCell st r c = None.
Proof.
  intros Hwf Hoff. apply list_find_None, Forall_forall.
  intros cell Hin [Hr Hc]. apply Hoff.
  apply list_elem_of_lookup in Hin as [i Hi].
  destruct (wf_board_lookup st _ _ Hwf Hi) as (Hlt & Hrow & Hcol).
  pose proof (Z.mod_pos_bound (Z.of_nat i) 6).
  pose proof (Z.div_mod (Z.of_nat i) 6).
  unfold onBoard. lia.
Qed.

(** ** Move generation *)

Lemma pushCandidate_legalTarget (st : BoardState) (cellInst : GridCell) (r c : Z)
    (candidates : list nat) :
  wf_board st →
  pushCandidate cellInst (findCell st r c) candidates
  = candidates ++ option_list (legalTarget st cellInst (r, c)).
Proof.
  intros Hwf. unfold legalTarget. simpl. case_decide as Hon.
  - destruct (findCell_onBoard st r c Hwf Hon) as (cell & Hcell & ->).
    rewrite Hcell. simpl. case_decide; simpl; [done|by rewrite app_nil_r].
  - rewrite (findCell_offBoard st r c Hwf Hon). simpl. by rewrite app_nil_r.
Qed.

Lemma omap_cons_option_list {A B} (f : A → option B) (x : A) (l : list A) :
  omap f (x :: l) = option_list (f x) ++ omap f l.
Proof. simpl. by destruct (f x). Qed.

Lemma getLocalMoves_eq_spec (st : BoardState) (cellInst : GridCell) (player : Player) :
  wf_board st →
  cellInst ∈ cells st →
  getLocalMoves cellInst player st = legalMoves_spec cellInst player st.
Proof.
  intros Hwf Hin.
  apply list_elem_of_lookup in Hin as [i Hi].
  destruct (wf_board_lookup st _ _ Hwf Hi) as (_ & _ & Hcol).
  pose proof (Z.mod_pos_bound (Z.of_nat i) 6) as Hb.
  assert (0 ≤ column cellInst < 6) as Hx by lia.
  unfold getLocalMoves, legalMoves_spec, candidateCoords.
  rewrite !pushCandidate_legalTarget by done.
  assert (Z.rem (column cellInst + 5) 6 = (column cellInst - 1) mod 6) as ->.
  { rewrite Z.rem_mod_nonneg by lia.
    replace (column cellInst + 5) with (column cellInst - 1 + 1 * 6) by lia.
    by rewrite Z.mod_add by lia. }
  assert (Z.rem (column cellInst + 4) 6 = (column cellInst - 2) mod 6) as ->.
  { rewrite Z.rem_mod_nonneg by lia.
    replace (column cellInst + 4) with (column cellInst - 2 + 1 * 6) by lia.
    by rewrite Z.mod_add by lia. }
  assert (Z.rem (column cellInst + 7) 6 = (column cellInst + 1) mod 6) as ->.
  { rewrite Z.rem_mod_nonneg by lia.
    replace (column cellInst + 7) with (column cellInst + 1 + 1 * 6) by lia.
    by rewrite Z.mod_add by lia. }
  assert (Z.rem (column cellInst + 8) 6 = (column cellInst + 2) mod 6) as ->.
  { rewrite Z.rem_mod_nonneg by lia.
    replace (column cellInst + 8) with (column cellInst + 2 + 1 * 6) by lia.
    by rewrite Z.mod_add by lia. }
  destruct (lastHorizontal player); simpl app.
  - rewrite decide_False by done.
    rewrite !omap_cons_option_list. simpl. by rewrite app_nil_r.
  - rewrite decide_True by done.
    rewrite !omap_cons_option_list. simpl. rewrite app_nil_r.
    by rewrite <- !app_assoc.
Qed.

(** C4. On the 6x6 board, [getLocalMoves] for a source cell of the board
    returns exactly the legal candidates among forward-1, forward-2 and,
    unless the player's last move was lateral, left-1, left-2, right-1,
    right-2 (columns wrapped modulo 6), in that order: a candidate is
    returned iff it is on the board and its top owner differs from the
    source's; in particular no returned cell has the source's top owner. *)
Theorem getLocalMoves_spec (st : BoardState) (cellInst : GridCell) (player : Player) :
  wf_board st →
  cellInst ∈ cells st →
  getLocalMoves cellInst player st = legalMoves_spec cellInst player st
  ∧ ∀ t, t ∈ getLocalMoves cellInst player st →
         ∃ tgt, cells st !! t = Some tgt ∧ top tgt ≠ top cellInst.
Proof.
  intros Hwf Hin.
  pose proof (getLocalMoves_eq_spec st cellInst player Hwf Hin) as Heq.
  split; [done|].
  intros t. rewrite Heq. unfold legalMoves_spec. rewrite list_elem_of_omap.
  intros (rc & _ & Hrc). unfold legalTarget in Hrc.
  case_decide; [|done].
  destruct (cells st !! Z.to_nat (rc.1 * 6 + rc.2)) as [tgt|] eqn:Htgt; [|done].
  simpl in Hrc. case_decide; [|done]. inversion Hrc; subst. by exists tgt.
Qed.

(** ** Stacking *)

Lemma credited_total (pid : PlayerId) (removed : list PlayerId) :
  creditedOwn pid removed + creditedOpponent pid removed = Z.of_nat (length removed).
Proof.
  unfold creditedOwn, creditedOpponent.
  induction removed as [|stone removed IH]; [done|].
  rewrite !filter_cons. destruct (decide (stone = pid)); simpl.
  - rewrite decide_False by (intros H; by apply H). simpl length. lia.
  - rewrite decide_True by done. simpl length. lia.
Qed.

Lemma credited_cons (pid stone : PlayerId) (removed : list PlayerId) :
  creditedOwn pid (stone :: removed)
    = (if decide (stone = pid) then 1 else 0) + creditedOwn pid removed
  ∧ creditedOpponent pid (stone :: removed)
    = (if decide (stone = pid) then 0 else 1) + creditedOpponent pid removed.
Proof.
  unfold creditedOwn, creditedOpponent. rewrite !filter_cons.
  destruct (decide (stone = pid)); simpl.
  - rewrite decide_False by (intros H; by apply H). simpl length. lia.
  - rewrite decide_True by done. simpl length. lia.
Qed.

Lemma credited_nonneg (pid : PlayerId) (removed : list PlayerId) :
  0 ≤ creditedOwn pid removed ∧ 0 ≤ creditedOpponent pid removed.
Proof. unfold creditedOwn, creditedOpponent. lia. Qed.

Lemma stackLoop_closed (src tgt : list PlayerId) (p : Player) (maxStackSize : Z) :
  self (vault p) ≤ 6 → opponent (vault p) ≤ 6 →
  let k := overflowCount src tgt maxStackSize in
  stackLoop src tgt (Some p) maxStackSize
  = Done (drop k (tgt ++ src), Some (creditVault p (take k (tgt ++ src)))).
Proof.
  revert tgt p. induction src as [|stone rest IH]; intros tgt p Hs Ho k.
  - subst k. unfold overflowCount. simpl. rewrite app_nil_r.
    rewrite drop_0. unfold creditVault, creditedOwn, creditedOpponent. simpl.
    destruct p as [? ? ? ? ? [sv ov] ?]. simpl in *. do 4 f_equal; f_equal; lia.
  - simpl stackLoop. case_decide as Hover.
    + simpl.
      rewrite length_app in Hover. simpl in Hover.
      set (p' := set_vault p _).
      assert (self (vault p') ≤ 6 ∧ opponent (vault p') ≤ 6) as [Hs' Ho'].
      { subst p'. simpl. lia. }
      rewrite (IH _ p' Hs' Ho').
      assert (k = S (length rest)) as Hk.
      { subst k. unfold overflowCount. simpl length. lia. }
      assert (overflowCount rest (tail (tgt ++ [stone])) maxStackSize = length rest) as ->.
      { unfold overflowCount. rewrite length_tl, length_app. simpl. lia. }
      rewrite Hk.
      destruct (tgt ++ [stone]) as [|bottom stack] eqn:Hstack.
      { by destruct tgt. }
      replace (tgt ++ stone :: rest) with (bottom :: stack ++ rest).
      2: { change (bottom :: stack ++ rest) with ((bottom :: stack) ++ rest).
           rewrite <- Hstack, <- app_assoc. done. }
      simpl tail. simpl drop. simpl take. f_equal. f_equal. f_equal.
      unfold creditVault.
      destruct (credited_cons (id p) bottom (take (length rest) (stack ++ rest))) as [-> ->].
      destruct (credited_nonneg (id p) (take (length rest) (stack ++ rest))) as [Hn1 Hn2].
      subst p'. simpl head.
      destruct (decide (bottom = id p)) as [Heq|Hne].
      * rewrite decide_True by (simpl; congruence). simpl. f_equal. f_equal; lia.
      * rewrite decide_False by (simpl; congruence). simpl. f_equal. f_equal; lia.
    + rewrite (IH _ p Hs Ho).
      rewrite length_app in Hover. simpl in Hover.
      assert (overflowCount rest (tgt ++ [stone]) maxStackSize = k) as ->.
      { subst k. unfold overflowCount. rewrite length_app. simpl length. lia. }
      by rewrite <- app_assoc.
Qed.

(** C5. Stacking a non-empty source onto a non-empty target with a
    different top owner pushes the source stones in bottom-to-top order and
    removes stones from the bottom while the stack exceeds [maxStackSize]:
    the target keeps all but the first [k] stones of target-then-source,
    each of the [k] removed stones is credited to exactly one counter of the
    mover's vault ([self] when the stone is the mover's, [opponent]
    otherwise), and each counter is capped at 6. *)
Theorem stackTowers_overflow (srcInst tgtInst : GridCell) (p : Player) (maxStackSize : Z) :
  svgLayout srcInst ≠ [] →
  svgLayout tgtInst ≠ [] →
  top srcInst ≠ top tgtInst →
  self (vault p) ≤ 6 → opponent (vault p) ≤ 6 →
  let all := svgLayout tgtInst ++ svgLayout srcInst in
  let k := overflowCount (svgLayout srcInst) (svgLayout tgtInst) maxStackSize in
  stackTowers srcInst tgtInst (Some p) maxStackSize
    = Done (drop k all, Some (creditVault p (take k all)))
  ∧ creditedOwn (id p) (take k all) + creditedOpponent (id p) (take k all) = Z.of_nat k
  ∧ (Z.of_nat (length (svgLayout tgtInst)) ≤ maxStackSize →
     Z.of_nat k = Z.max 0 (Z.of_nat (length all) - maxStackSize)).
Proof.
  intros Hsrc Htgt Htop Hs Ho all k. split; [|split].
  - unfold stackTowers. rewrite !decide_False by done. rewrite decide_True by done.
    by apply stackLoop_closed.
  - rewrite credited_total, length_take. subst k all. unfold overflowCount.
    rewrite length_app. lia.
  - intros Hfit. subst k all. unfold overflowCount. rewrite length_app. lia.
Qed.

(** ** Move application *)

Lemma withVault_id (p : Player) : withVault p (vault p) = p.
Proof. by destruct p. Qed.

Lemma stackLoop_Some (src tgt : list PlayerId) (p : Player) (maxStackSize : Z) :
  ∃ layout v,
    stackLoop src tgt (Some p) maxStackSize = Done (layout, Some (withVault p v))
    ∧ (tgt ≠ [] → layout ≠ [])
    ∧ (self (vault p) ≤ 6 → self v ≤ 6)
    ∧ (opponent (vault p) ≤ 6 → opponent v ≤ 6).
Proof.
  revert tgt p. induction src as [|stone rest IH]; intros tgt p.
  - exists tgt, (vault p). simpl. by rewrite withVault_id.
  - simpl stackLoop. case_decide as Hover.
    + simpl. set (p' := set_vault p _).
      destruct (IH (tail (tgt ++ [stone])) p') as (layout & v & -> & Hne & Hs & Ho).
      exists layout, v. split; [done|]. split; [|split].
      * intros Htgt. apply Hne. destruct tgt as [|a [|b tgt]]; done.
      * intros _. apply Hs. subst p'. simpl. lia.
      * intros _. apply Ho. subst p'. simpl. lia.
    + destruct (IH (tgt ++ [stone]) p) as (layout & v & -> & Hne & Hs & Ho).
      exists layout, v. split; [done|]. split; [|done].
      intros _. apply Hne. by destruct tgt.
Qed.

Lemma stackTowers_Some (srcInst tgtInst : GridCell) (p : Player) (maxStackSize : Z) :
  svgLayout srcInst ≠ [] →
  top tgtInst ≠ top srcInst →
  ∃ layout v,
    stackTowers srcInst tgtInst (Some p) maxStackSize = Done (layout, Some (withVault p v))
    ∧ layout ≠ []
    ∧ (self (vault p) ≤ 6 → self v ≤ 6)
    ∧ (opponent (vault p) ≤ 6 → opponent v ≤ 6).
Proof.
  intros Hsrc Htop. unfold stackTowers.
  rewrite decide_False by done. case_decide as Htgt.
  - exists (svgLayout srcInst), (vault p). by rewrite withVault_id.
  - rewrite decide_True by done.
    destruct (stackLoop_Some (svgLayout srcInst) (svgLayout tgtInst) p maxStackSize)
      as (layout & v & -> & Hne & Hs & Ho).
    exists layout, v. auto.
Qed.

Lemma stackTowers_Done_inv (srcInst tgtInst : GridCell) (p : Player) (maxStackSize : Z)
    (layout : list PlayerId) (mover : option Player) :
  stackTowers srcInst tgtInst (Some p) maxStackSize = Done (layout, mover) →
  svgLayout srcInst ≠ [] ∧ top tgtInst ≠ top srcInst.
Proof.
  unfold stackTowers. intros H.
  case_decide as Hsrc; [done|]. split; [done|].
  case_decide as Htgt.
  - unfold top. rewrite Htgt. simpl. intros Heq. symmetry in Heq.
    by apply last_None in Heq.
  - case_decide; [congruence|done].
Qed.

(** The players a move can produce from [p]: the vault and the secured
    towers change, capped; nothing else does. *)
Lemma reverseOrSecure_frame (srcInst tgtInst : GridCell) (layout : list PlayerId) (p : Player) :
  let r := reverseOrSecure srcInst tgtInst layout p in
  row r.1 = row tgtInst ∧ column r.1 = column tgtInst
  ∧ id r.2 = id p ∧ isMaximizing r.2 = isMaximizing p ∧ turn r.2 = turn p
  ∧ lastHorizontal r.2 = lastHorizontal p ∧ vault r.2 = vault p ∧ winner r.2 = winner p
  ∧ (safetyTower p ≤ 6 → safetyTower r.2 ≤ 6).
Proof.
  unfold reverseOrSecure. repeat case_decide; simpl; repeat split; try done; lia.
Qed.

Lemma playMove_Done_inv (s t : nat) (st st1 : BoardState) (maxStackSize : Z) :
  playMove s t st maxStackSize = Done st1 →
  ∃ pi p srcInst tgtInst layout v,
    theMover st = Some (pi, p)
    ∧ cells st !! s = Some srcInst
    ∧ cells st !! t = Some tgtInst
    ∧ s ≠ t
    ∧ stackTowers srcInst tgtInst (Some p) maxStackSize = Done (layout, Some (withVault p v))
    ∧ st1 = mkBoardState
              (<[s := clearedCell srcInst]>
                 (<[t := (reverseOrSecure srcInst tgtInst layout (withVault p v)).1]> (cells st)))
              (<[pi := set_lastHorizontal
                         (reverseOrSecure srcInst tgtInst layout (withVault p v)).2
                         (bool_decide (row tgtInst = row srcInst))]> (twoPlayer st)).
Proof.
  unfold playMove. fold (theMover st). intros H.
  destruct (cells st !! s) as [srcInst|] eqn:Hs; [|done].
  destruct (cells st !! t) as [tgtInst|] eqn:Ht; [|done].
  simpl in H.
  destruct (theMover st) as [[pi p]|] eqn:Hm; simpl in H.
  2: { destruct (stackTowers srcInst tgtInst None maxStackSize) as [[layout mover]| |];
         simpl in H; done. }
  destruct (stackTowers srcInst tgtInst (Some p) maxStackSize) as [[layout mover]| |] eqn:Hst;
    simpl in H; [|done..].
  destruct (stackTowers_Done_inv _ _ _ _ _ _ Hst) as [Hsrc Htop].
  destruct (stackTowers_Some srcInst tgtInst p maxStackSize Hsrc Htop)
    as (layout' & v & Hst' & _).
  rewrite Hst in Hst'. inversion Hst'; subst layout' mover. simpl in H.
  exists pi, p, srcInst, tgtInst, layout, v.
  repeat split; try done.
  - intros ->. rewrite Hs in Ht. inversion Ht; subst. by apply Htop.
  - destruct (reverseOrSecure srcInst tgtInst layout (withVault p v)) as [tgt p']. simpl.
    by inversion H.
Qed.

Lemma playMove_legal (s t : nat) (st : BoardState) (maxStackSize : Z)
    (pi : nat) (p : Player) (srcInst tgtInst : GridCell) :
  theMover st = Some (pi, p) →
  cells st !! s = Some srcInst →
  cells st !! t = Some tgtInst →
  svgLayout srcInst ≠ [] →
  top tgtInst ≠ top srcInst →
  ∃ layout v,
    stackTowers srcInst tgtInst (Some p) maxStackSize = Done (layout, Some (withVault p v))
    ∧ layout ≠ []
    ∧ playMove s t st maxStackSize
      = Done (mkBoardState
                (<[s := clearedCell srcInst]>
                   (<[t := (reverseOrSecure srcInst tgtInst layout (withVault p v)).1]> (cells st)))
                (<[pi := set_lastHorizontal
                           (reverseOrSecure srcInst tgtInst layout (withVault p v)).2
                           (bool_decide (row tgtInst = row srcInst))]> (twoPlayer st))).
Proof.
  intros Hm Hs Ht Hsrc Htop.
  destruct (stackTowers_Some srcInst tgtInst p maxStackSize Hsrc Htop)
    as (layout & v & Hst & Hne & _).
  exists layout, v. split; [done|]. split; [done|].
  unfold playMove. fold (theMover st). rewrite Hs, Ht, Hm. simpl. rewrite Hst. simpl.
  by destruct (reverseOrSecure srcInst tgtInst layout (withVault p v)) as [tgt p'].
Qed.

(** C6. When the mover's tower lands on the mover's far row (user: 5,
    bot: 0) and is not yet reversed, the target keeps the stacked stones,
    takes the negated direction and becomes reversed; when an already
    reversed tower lands on the mover's origin row (user: 0, bot: 5), the
    target is emptied, its direction and reversed flag are reset, and the
    mover's [safetyTower] goes up by one, capped at 6; in every other case
    the target takes over the stones, direction and flag of the source and
    [safetyTower] is unchanged. *)
Theorem playMove_reverse_and_secure (s t : nat) (st : BoardState) (maxStackSize : Z)
    (pi : nat) (p : Player) (srcInst tgtInst : GridCell) :
  theMover st = Some (pi, p) →
  cells st !! s = Some srcInst →
  cells st !! t = Some tgtInst →
  top srcInst = Some (id p) →
  top tgtInst ≠ top srcInst →
  ∃ layout v st1 tgt1 p1,
    stackTowers srcInst tgtInst (Some p) maxStackSize = Done (layout, Some (withVault p v))
    ∧ layout ≠ []
    ∧ playMove s t st maxStackSize = Done st1
    ∧ cells st1 !! t = Some tgt1
    ∧ twoPlayer st1 !! pi = Some p1
    ∧ row tgt1 = row tgtInst ∧ column tgt1 = column tgtInst
    ∧ if decide (dot srcInst = false ∧ row tgtInst = farRow (id p)) then
        svgLayout tgt1 = layout ∧ direction tgt1 = - direction srcInst ∧ dot tgt1 = true
        ∧ safetyTower p1 = safetyTower p
      else if decide (dot srcInst = true ∧ row tgtInst = originRow (id p)) then
        svgLayout tgt1 = [] ∧ direction tgt1 = 0 ∧ dot tgt1 = false
        ∧ safetyTower p1 = Z.min 6 (safetyTower p + 1)
      else
        svgLayout tgt1 = layout ∧ direction tgt1 = direction srcInst ∧ dot tgt1 = dot srcInst
        ∧ safetyTower p1 = safetyTower p.
Proof.
  intros Hm Hs Ht Htop Hdiff.
  assert (svgLayout srcInst ≠ []) as Hsrc.
  { intros Hnil. unfold top in Htop. by rewrite Hnil in Htop. }
  assert (s ≠ t) as Hst.
  { intros ->. rewrite Hs in Ht. inversion Ht; subst. by apply Hdiff. }
  destruct (playMove_legal s t st maxStackSize pi p srcInst tgtInst Hm Hs Ht Hsrc Hdiff)
    as (layout & v & Hstack & Hne & Hplay).
  eexists layout, v, _, _, _. split; [done|]. split; [done|]. split; [exact Hplay|].
  simpl cells. simpl twoPlayer.
  split.
  { rewrite list_lookup_insert_ne by done. apply list_lookup_insert_eq.
    by eapply lookup_lt_Some. }
  split.
  { apply list_lookup_insert_eq. apply list_find_Some in Hm as (Hpi & _).
    by eapply lookup_lt_Some. }
  unfold reverseOrSecure. rewrite Htop.
  destruct (id p), (dot srcInst); simpl;
    repeat case_decide; simpl; repeat split; try done; try lia;
    try (exfalso; intuition (congruence || lia)).
Qed.

(** ** Frame and invariants of a move *)

Lemma theMover_Some (st : BoardState) (pi : nat) (p : Player) :
  theMover st = Some (pi, p) → twoPlayer st !! pi = Some p ∧ turn p = true.
Proof. intros H. apply list_find_Some in H. tauto. Qed.

Lemma fmap_insert_same {A B} (f : A → B) (l : list A) (i : nat) (x y : A) :
  l !! i = Some y → f x = f y → f <$> <[i := x]> l = f <$> l.
Proof.
  intros Hl Hf. rewrite list_fmap_insert, Hf. apply list_insert_id.
  by rewrite list_lookup_fmap, Hl.
Qed.

Lemma applyMoveAndTurn_Done_inv (st st1 : BoardState) (s t : nat) (maxStackSize : Z) :
  applyMoveAndTurn st s t maxStackSize = Done st1 →
  ∃ pi p srcInst tgtInst tgt1 p1,
    theMover st = Some (pi, p)
    ∧ cells st !! s = Some srcInst
    ∧ cells st !! t = Some tgtInst
    ∧ s ≠ t
    ∧ svgLayout srcInst ≠ []
    ∧ top tgtInst ≠ top srcInst
    ∧ row tgt1 = row tgtInst ∧ column tgt1 = column tgtInst
    ∧ id p1 = id p ∧ isMaximizing p1 = isMaximizing p ∧ winner p1 = winner p
    ∧ turn p1 = turn p
    ∧ lastHorizontal p1 = bool_decide (row tgtInst = row srcInst)
    ∧ (capped p → capped p1)
    ∧ cells st1 = <[s := clearedCell srcInst]> (<[t := tgt1]> (cells st))
    ∧ twoPlayer st1 = switchPlayer (<[pi := p1]> (twoPlayer st)).
Proof.
  unfold applyMoveAndTurn. intros H.
  destruct (playMove s t st maxStackSize) as [st'| |] eqn:Hplay; simpl in H; [|done..].
  inversion H; subst st1; clear H.
  apply playMove_Done_inv in Hplay
    as (pi & p & srcInst & tgtInst & layout & v & Hm & Hs & Ht & Hst & Hstack & ->).
  destruct (stackTowers_Done_inv _ _ _ _ _ _ Hstack) as [Hsrc Htop].
  destruct (stackTowers_Some srcInst tgtInst p maxStackSize Hsrc Htop)
    as (layout' & v' & Hstack' & _ & Hcs & Hco).
  rewrite Hstack in Hstack'. injection Hstack' as Hl Hv. subst layout' v'.
  pose proof (reverseOrSecure_frame srcInst tgtInst layout (withVault p v))
    as (Hr & Hc & Hid & Hmax & Hturn & Hlast & Hvault & Hwin & Hcap).
  exists pi, p, srcInst, tgtInst,
    (reverseOrSecure srcInst tgtInst layout (withVault p v)).1,
    (set_lastHorizontal (reverseOrSecure srcInst tgtInst layout (withVault p v)).2
       (bool_decide (row tgtInst = row srcInst))).
  repeat split; try done; simpl.
  all: match goal with H : capped _ |- _ => destruct H as (Hc1 & Hc2 & Hc3) end.
  all: rewrite ?Hvault; simpl; auto.
Qed.

Lemma roles_switchPlayer (ps : list Player) : roles (switchPlayer ps) = roles ps.
Proof. unfold roles, switchPlayer. rewrite <- list_fmap_compose. done. Qed.

Lemma applyMoveAndTurn_roles (st st1 : BoardState) (s t : nat) (maxStackSize : Z) :
  applyMoveAndTurn st s t maxStackSize = Done st1 →
  roles (twoPlayer st1) = roles (twoPlayer st).
Proof.
  intros H. apply applyMoveAndTurn_Done_inv in H
    as (pi & p & srcInst & tgtInst & tgt1 & p1 & Hm & _ & _ & _ & _ & _ & _ & _
        & Hid & Hmax & _ & _ & _ & _ & _ & ->).
  rewrite roles_switchPlayer. unfold roles.
  apply theMover_Some in Hm as [Hpi _].
  eapply fmap_insert_same; [done|]. by rewrite Hid, Hmax.
Qed.

Lemma applyMoveAndTurn_winners (st st1 : BoardState) (s t : nat) (maxStackSize : Z) :
  applyMoveAndTurn st s t maxStackSize = Done st1 →
  winners st1 = winners st.
Proof.
  intros H. apply applyMoveAndTurn_Done_inv in H
    as (pi & p & srcInst & tgtInst & tgt1 & p1 & Hm & _ & _ & _ & _ & _ & _ & _
        & _ & _ & Hwin & _ & _ & _ & _ & Hps).
  unfold winners. rewrite Hps. unfold switchPlayer. rewrite <- list_fmap_compose.
  apply theMover_Some in Hm as [Hpi _].
  change (winner ∘ _) with winner.
  eapply fmap_insert_same; done.
Qed.

Lemma applyMoveAndTurn_wf (st st1 : BoardState) (s t : nat) (maxStackSize : Z) :
  wf_state st →
  applyMoveAndTurn st s t maxStackSize = Done st1 →
  wf_state st1.
Proof.
  intros [Hboard [Hnodup Hcap]] H.
  pose proof (applyMoveAndTurn_roles _ _ _ _ _ H) as Hroles.
  apply applyMoveAndTurn_Done_inv in H
    as (pi & p & srcInst & tgtInst & tgt1 & p1 & Hm & Hs & Ht & Hst & _ & _ & Hr & Hc
        & _ & _ & _ & _ & _ & Hcapped & Hcells & Hps).
  split; [|split].
  - unfold wf_board. rewrite Hcells.
    rewrite (fmap_insert_same _ _ s _ srcInst).
    + rewrite (fmap_insert_same _ _ t _ tgtInst); [done..|]. by rewrite Hr, Hc.
    + by rewrite list_lookup_insert_ne.
    + done.
  - assert (id <$> twoPlayer st1 = id <$> twoPlayer st) as ->; [|done].
    apply (f_equal (fmap fst)) in Hroles. unfold roles in Hroles.
    by rewrite <- !list_fmap_compose in Hroles.
  - rewrite Hps. unfold switchPlayer. rewrite Forall_fmap.
    apply theMover_Some in Hm as [Hpi _].
    assert (capped p) as Hp by (by eapply Forall_lookup_1).
    eapply Forall_impl; [apply Forall_insert; [exact Hcap|by apply Hcapped]|].
    by intros q.
Qed.

(** ** Undo *)

Lemma restoreCell_ok (cs : list GridCell) (i : nat) (saved cur : GridCell) :
  cs !! i = Some cur → row cur = row saved → column cur = column saved →
  restoreCell cs (Z.of_nat i) saved = Done (<[i := saved]> cs).
Proof.
  intros Hcur Hr Hc. unfold restoreCell.
  rewrite decide_True by lia. rewrite Nat2Z.id, Hcur. simpl.
  rewrite Hr, Hc. by destruct saved.
Qed.

Lemma roles_lookup (cur saved : list Player) (j : nat) :
  roles cur = roles saved →
  match cur !! j, saved !! j with
  | Some cp, Some sp => id cp = id sp ∧ isMaximizing cp = isMaximizing sp
  | None, None => True
  | _, _ => False
  end.
Proof.
  intros H. apply (f_equal (fun l => l !! j)) in H. unfold roles in H.
  rewrite !list_lookup_fmap in H.
  destruct (cur !! j), (saved !! j); simpl in H; try done. by inversion H.
Qed.

Lemma restorePlayer_saved (saved : list Player) (j : nat) (sp cp : Player) :
  NoDup (id <$> saved) →
  saved !! j = Some sp →
  capped sp →
  id cp = id sp → isMaximizing cp = isMaximizing sp →
  restorePlayer saved cp = set_winner sp (winner cp).
Proof.
  intros Hnodup Hsp (Hc1 & Hc2 & Hc3) Hid Hmax. unfold restorePlayer.
  assert (list_find (fun p => id p = id cp) saved = Some (j, sp)) as ->.
  { apply list_find_Some. split; [done|]. split; [done|].
    intros j' y Hy Hlt Heq.
    assert (j' = j); [|lia].
    eapply (NoDup_lookup (id <$> saved)); [done| |].
    - rewrite list_lookup_fmap, Hy. simpl. by rewrite Heq, Hid.
    - by rewrite list_lookup_fmap, Hsp. }
  unfold set_vault, set_safetyTower, set_lastHorizontal, set_turn, set_winner. simpl.
  rewrite Hid, Hmax. destruct sp as [? ? ? ? ? [sv ov] ?]. simpl in *.
  rewrite !Z.min_r by lia. done.
Qed.

Lemma restorePlayers_erase (saved cur : list Player) :
  NoDup (id <$> saved) → Forall capped saved → roles cur = roles saved →
  (fun p => set_winner p false) <$> (restorePlayer saved <$> cur)
  = (fun p => set_winner p false) <$> saved.
Proof.
  intros Hnodup Hcap Hroles. apply list_eq. intros j.
  rewrite !list_lookup_fmap.
  pose proof (roles_lookup cur saved j Hroles) as Hj.
  destruct (cur !! j) as [cp|] eqn:Hcp, (saved !! j) as [sp|] eqn:Hsp; simpl; try done.
  destruct Hj as [Hid Hmax].
  rewrite (restorePlayer_saved saved j sp cp); try done.
  by eapply Forall_lookup_1.
Qed.

Lemma restorePlayers_winner (saved cur : list Player) :
  winner <$> (restorePlayer saved <$> cur) = winner <$> cur.
Proof.
  rewrite <- list_fmap_compose. apply list_fmap_ext. intros j cp _. simpl.
  unfold restorePlayer. by destruct (list_find _ saved) as [[? ?]|].
Qed.

Lemma eraseWinner_cells (st st' : BoardState) :
  eraseWinner st = eraseWinner st' → cells st = cells st'.
Proof. intros H. by inversion H. Qed.

Lemma eraseWinner_roles (st st' : BoardState) :
  eraseWinner st = eraseWinner st' → roles (twoPlayer st) = roles (twoPlayer st').
Proof.
  intros H. unfold eraseWinner in H. injection H as _ Hps.
  apply (f_equal roles) in Hps. unfold roles in Hps.
  by rewrite <- !list_fmap_compose in Hps.
Qed.

Lemma eraseWinner_winners_eq (st st' : BoardState) :
  eraseWinner st = eraseWinner st' → winners st = winners st' → st = st'.
Proof.
  destruct st as [cs ps], st' as [cs' ps']. unfold eraseWinner, winners. simpl.
  intros H Hw. injection H as Hcs Hps. f_equal; [done|].
  apply list_eq. intros j.
  apply (f_equal (fun l => l !! j)) in Hps.
  apply (f_equal (fun l => l !! j)) in Hw.
  rewrite !list_lookup_fmap in Hps. rewrite !list_lookup_fmap in Hw.
  destruct (ps !! j) as [p|], (ps' !! j) as [p'|]; simpl in *; try done.
  inversion Hps. inversion Hw. destruct p, p'. simpl in *. by subst.
Qed.

(** Undoing a move from any board that agrees with the board after the move
    up to [winner] flags gives back the board before the move, up to the
    [winner] flags, which keep their current values. *)
Lemma undoMove_restores (st st1 st2 : BoardState) (s t : nat) (maxStackSize : Z)
    (loggedMove : Move) :
  wf_state st →
  logMove st s t = Done loggedMove →
  applyMoveAndTurn st s t maxStackSize = Done st1 →
  eraseWinner st2 = eraseWinner st1 →
  ∃ st3, undoMove st2 loggedMove = Done st3
         ∧ eraseWinner st3 = eraseWinner st
         ∧ winners st3 = winners st2.
Proof.
  intros [Hboard [Hnodup Hcap]] Hlog Happly Herase.
  pose proof (applyMoveAndTurn_roles _ _ _ _ _ Happly) as Hroles1.
  pose proof (eraseWinner_roles _ _ Herase) as Hroles2.
  pose proof (eraseWinner_cells _ _ Herase) as Hcells2.
  apply applyMoveAndTurn_Done_inv in Happly
    as (pi & p & srcInst & tgtInst & tgt1 & p1 & Hm & Hs & Ht & Hst & _ & _ & Hr & Hc
        & _ & _ & _ & _ & _ & _ & Hcells & _).
  unfold logMove in Hlog. rewrite Hs, Ht in Hlog. simpl in Hlog.
  inversion Hlog; subst loggedMove; clear Hlog.
  unfold undoMove. simpl.
  rewrite (wf_board_cell_id st s srcInst Hboard Hs).
  rewrite (wf_board_cell_id st t tgtInst Hboard Ht).
  rewrite Hcells2, Hcells.
  assert (s < length (cells st))%nat as Hslt by (by eapply lookup_lt_Some).
  assert (t < length (cells st))%nat as Htlt by (by eapply lookup_lt_Some).
  rewrite (restoreCell_ok _ s srcInst (clearedCell srcInst)); [|
    by apply list_lookup_insert_eq; rewrite length_insert | done | done].
  simpl. rewrite list_insert_insert_eq.
  rewrite (restoreCell_ok _ t tgtInst tgt1); [| | done | done].
  2: { rewrite list_lookup_insert_ne by done. by apply list_lookup_insert_eq. }
  simpl. eexists. split; [done|].
  rewrite list_insert_insert_ne by done. rewrite list_insert_insert_eq.
  rewrite (list_insert_id (cells st) t) by done.
  rewrite (list_insert_id (cells st) s) by done.
  split.
  - unfold eraseWinner. simpl. f_equal.
    apply restorePlayers_erase; [done..|]. by rewrite Hroles2, Hroles1.
  - unfold winners. simpl. apply restorePlayers_winner.
Qed.

(** ** Legal moves can be applied *)

Lemma pushCandidate_elem (st : BoardState) (cellInst : GridCell) (r c : Z)
    (candidates : list nat) (t : nat) :
  t ∈ pushCandidate cellInst (findCell st r c) candidates →
  t ∈ candidates
  ∨ ∃ tgtInst, cells st !! t = Some tgtInst ∧ top tgtInst ≠ top cellInst
               ∧ row tgtInst = r ∧ column tgtInst = c.
Proof.
  unfold pushCandidate, findCell.
  destruct (list_find _ (cells st)) as [[i n]|] eqn:Hfind; [|by left].
  apply list_find_Some in Hfind as (Hi & [Hr Hc] & _).
  case_decide; [|by left].
  rewrite elem_of_app, list_elem_of_singleton. intros [Hin| ->]; [by left|].
  right. by exists n.
Qed.

Lemma getLocalMoves_elem (st : BoardState) (cellInst : GridCell) (player : Player) (t : nat) :
  t ∈ getLocalMoves cellInst player st →
  ∃ tgtInst, cells st !! t = Some tgtInst ∧ top tgtInst ≠ top cellInst
    ∧ ((column tgtInst = column cellInst
        ∧ (row tgtInst = row cellInst + direction cellInst
           ∨ row tgtInst = row cellInst + 2 * direction cellInst))
       ∨ (lastHorizontal player = false ∧ row tgtInst = row cellInst)).
Proof.
  unfold getLocalMoves. intros H.
  case_decide as Hlock.
  - repeat (apply pushCandidate_elem in H as [H|(tgtInst & Ht & Htop & Hr & Hc)];
            [|exists tgtInst; split; [done|]; split; [done|]; tauto]).
    by apply elem_of_nil in H.
  - repeat (apply pushCandidate_elem in H as [H|(tgtInst & Ht & Htop & Hr & Hc)];
            [|exists tgtInst; split; [done|]; split; [done|]; tauto]).
    by apply elem_of_nil in H.
Qed.

Lemma getAllPossibleMoves_elem (st : BoardState) (player : Player) (s t : nat) :
  (s, t) ∈ getAllPossibleMoves st player →
  ∃ srcInst, cells st !! s = Some srcInst
    ∧ svgLayout srcInst ≠ []
    ∧ top srcInst = Some (id player)
    ∧ t ∈ getLocalMoves srcInst player st.
Proof.
  unfold getAllPossibleMoves. rewrite list_elem_of_bind.
  intros ([i c] & Hin & Hown). simpl in Hin.
  apply list_elem_of_fmap in Hin as (t' & Heq & Hin). inversion Heq; subst i t'.
  unfold owningTowers in Hown. apply list_elem_of_filter in Hown as [[Hne Htop] Hown].
  apply elem_of_lookup_imap in Hown as (i & y & Heq' & Hy). inversion Heq'; subst i y.
  by exists c.
Qed.

Lemma applyMoveAndTurn_legal (st : BoardState) (pi : nat) (player : Player) (s t : nat)
    (maxStackSize : Z) :
  theMover st = Some (pi, player) →
  (s, t) ∈ getAllPossibleMoves st player →
  ∃ loggedMove st1,
    logMove st s t = Done loggedMove
    ∧ applyMoveAndTurn st s t maxStackSize = Done st1.
Proof.
  intros Hm Hin.
  apply getAllPossibleMoves_elem in Hin as (srcInst & Hs & Hsrc & Htop & Hin).
  apply getLocalMoves_elem in Hin as (tgtInst & Ht & Hdiff & _).
  destruct (playMove_legal s t st maxStackSize pi player srcInst tgtInst Hm Hs Ht Hsrc Hdiff)
    as (layout & v & _ & _ & Hplay).
  unfold logMove, applyMoveAndTurn. rewrite Hs, Ht, Hplay. simpl. eauto.
Qed.

(** C1. On a board of the data model (6x6 layout, distinct player ids,
    counters capped at 6), for every legal move of the player to move:
    taking the snapshot, applying the move with the turn switch and undoing
    it with the snapshot gives back the board before the move: the source
    and target cells and every field of both players. *)
Theorem applyMoveAndTurn_undoMove (st : BoardState) (pi : nat) (player : Player) (s t : nat)
    (maxStackSize : Z) :
  wf_state st →
  theMover st = Some (pi, player) →
  (s, t) ∈ getAllPossibleMoves st player →
  ∃ loggedMove st1,
    logMove st s t = Done loggedMove
    ∧ applyMoveAndTurn st s t maxStackSize = Done st1
    ∧ undoMove st1 loggedMove = Done st.
Proof.
  intros Hwf Hm Hin.
  destruct (applyMoveAndTurn_legal st pi player s t maxStackSize Hm Hin)
    as (loggedMove & st1 & Hlog & Happly).
  exists loggedMove, st1. split; [done|]. split; [done|].
  destruct (undoMove_restores st st1 st1 s t maxStackSize loggedMove Hwf Hlog Happly eq_refl)
    as (st3 & -> & Herase & Hwin).
  f_equal. apply eraseWinner_winners_eq; [done|].
  rewrite Hwin. by eapply applyMoveAndTurn_winners.
Qed.

(** ** Evaluation *)

Section EvaluationFacts.
Context (settings : Settings).

Lemma rowDistanceWeight_spec (d : Z) :
  rowDistanceWeight settings d
  = if decide (validDistance d) then Done (bucketWeight settings d) else Throw ErrEvaluation.
Proof.
  unfold rowDistanceWeight, bucketWeight, validDistance.
  repeat case_decide; try done; lia.
Qed.

Lemma tallyCell_closed (botId userId : PlayerId) (acc : Tally) (c : GridCell) :
  tallyCell settings botId userId acc c
  = if decide (0 < safetyZone settings
               ∧ ((isReversed botId c ∧ ¬ validDistance (botDistance c))
                  ∨ (isReversed userId c ∧ ¬ validDistance (userDistance c))))
    then Throw ErrEvaluation
    else Done (mkTally
           (botTowers acc + (if decide (isTower botId c) then 1 else 0))
           (userTowers acc + (if decide (isTower userId c) then 1 else 0))
           (if decide (0 < safetyZone settings ∧ isReversed botId c)
            then js_add (botTowerSafetyWeight acc) (bucketWeight settings (botDistance c))
            else botTowerSafetyWeight acc)
           (if decide (0 < safetyZone settings ∧ isReversed userId c)
            then js_add (userTowerSafetyWeight acc) (bucketWeight settings (userDistance c))
            else userTowerSafetyWeight acc)
           (botTowerTotalSafetyDistance acc
            + (if decide (0 < safetyZone settings ∧ isReversed botId c)
               then botDistance c else 0))
           (userTowerTotalSafetyDistance acc
            + (if decide (0 < safetyZone settings ∧ isReversed userId c)
               then userDistance c else 0))).
Proof.
  unfold tallyCell, isTower, isReversed, botDistance, userDistance.
  rewrite !rowDistanceWeight_spec.
  destruct acc as [bt ut bw uw bd ud].
  repeat case_decide; simpl; rewrite ?rowDistanceWeight_spec;
    repeat case_decide; simpl; try done; try (exfalso; tauto);
    f_equal; f_equal; try lia; try reflexivity; exfalso; tauto.
Qed.

Lemma countTowers_cons (pid : PlayerId) (c : GridCell) (cs : list GridCell) :
  countTowers pid (c :: cs)
  = (if decide (isTower pid c) then 1 else 0) + countTowers pid cs.
Proof. reflexivity. Qed.

Lemma totalDistance_cons (dist : GridCell → Z) (pid : PlayerId) (c : GridCell)
    (cs : list GridCell) :
  totalDistance dist pid (c :: cs)
  = (if decide (isReversed pid c) then dist c else 0) + totalDistance dist pid cs.
Proof. reflexivity. Qed.

(** The weights the loop adds to an accumulator, in the order of the cells. *)
Lemma proximityWeights_cons (dist : GridCell → Z) (pid : PlayerId) (c : GridCell)
    (cs : list GridCell) (w : Qc) :
  foldl js_add w ((fun c => bucketWeight settings (dist c)) <$> filter (isReversed pid) (c :: cs))
  = foldl js_add
      (if decide (isReversed pid c) then js_add w (bucketWeight settings (dist c)) else w)
      ((fun c => bucketWeight settings (dist c)) <$> filter (isReversed pid) cs).
Proof. rewrite filter_cons. by case_decide. Qed.

Lemma tallyCells_closed (botId userId : PlayerId) (cs : list GridCell) (acc : Tally) :
  tallyCells settings botId userId acc cs
  = if decide (0 < safetyZone settings
               ∧ (invalidPosition botDistance botId cs
                  ∨ invalidPosition userDistance userId cs))
    then Throw ErrEvaluation
    else Done (mkTally
           (botTowers acc + countTowers botId cs)
           (userTowers acc + countTowers userId cs)
           (if decide (0 < safetyZone settings)
            then foldl js_add (botTowerSafetyWeight acc)
                   ((fun c => bucketWeight settings (botDistance c))
                      <$> filter (isReversed botId) cs)
            else botTowerSafetyWeight acc)
           (if decide (0 < safetyZone settings)
            then foldl js_add (userTowerSafetyWeight acc)
                   ((fun c => bucketWeight settings (userDistance c))
                      <$> filter (isReversed userId) cs)
            else userTowerSafetyWeight acc)
           (botTowerTotalSafetyDistance acc
            + (if decide (0 < safetyZone settings)
               then totalDistance botDistance botId cs else 0))
           (userTowerTotalSafetyDistance acc
            + (if decide (0 < safetyZone settings)
               then totalDistance userDistance userId cs else 0))).
Proof.
  revert acc. induction cs as [|c cs IH]; intros acc.
  - simpl. rewrite decide_False.
    2: { unfold invalidPosition. intros [_ [H|H]]; by apply Exists_nil in H. }
    destruct acc as [bt ut bw uw bd ud].
    unfold countTowers, totalDistance. simpl.
    destruct (decide (0 < safetyZone settings)); f_equal; f_equal; lia.
  - simpl tallyCells. rewrite tallyCell_closed.
    assert (∀ dist pid, invalidPosition dist pid (c :: cs)
              ↔ (isReversed pid c ∧ ¬ validDistance (dist c)) ∨ invalidPosition dist pid cs)
      as Hcons by (intros; apply Exists_cons).
    match goal with |- context [decide ?P] => destruct (decide P) as [Hc|Hc] end.
    { simpl. rewrite decide_True; [done|]. rewrite !Hcons. tauto. }
    simpl. rewrite IH. simpl.
    match goal with |- context [decide ?P] => destruct (decide P) as [Hcs|Hcs] end.
    { rewrite decide_True; [done|]. rewrite !Hcons. tauto. }
    destruct (decide (0 < safetyZone settings
                      ∧ (invalidPosition botDistance botId (c :: cs)
                         ∨ invalidPosition userDistance userId (c :: cs)))) as [Hx|Hx].
    { exfalso. rewrite !Hcons in Hx. tauto. }
    clear IH Hcons Hc Hcs Hx.
    rewrite !countTowers_cons, !totalDistance_cons, !proximityWeights_cons.
    f_equal. f_equal; repeat case_decide; try lia; try reflexivity; exfalso; tauto.
Qed.

Lemma heuristic_closed (st : BoardState) (bot user : Player) :
  heuristic settings st bot user = heuristic_spec settings st bot user.
Proof.
  unfold heuristic, heuristic_spec. rewrite tallyCells_closed.
  destruct (decide (0 < safetyZone settings
                    ∧ (invalidPosition botDistance (id bot) (cells st)
                       ∨ invalidPosition userDistance (id user) (cells st))))
    as [Hinv|Hinv]; [done|].
  unfold materialTerm, proximityTerm, imminentTerm, accountedTerm, imminent,
    weightedProximity, js_sum.
  destruct (decide (0 < safetyZone settings)) as [Hzone|Hzone];
    destruct (decide (0 < materialOpponent settings)) as [Hvault|Hvault];
    simpl; rewrite ?Z.add_0_l; reflexivity.
Qed.
End EvaluationFacts.

Lemma getTerminalNodeState_closed (settings : Settings) (st : BoardState) (depth : Z)
    (bi ui : nat) (bot user : Player) :
  list_find (fun player => isMaximizing player = true) (twoPlayer st) = Some (bi, bot) →
  list_find (fun player => isMaximizing player = false) (twoPlayer st) = Some (ui, user) →
  id bot ≠ id user →
  getTerminalNodeState settings st depth
  = if decide (winCondition st bot settings) then Done (Some PosInf, markWinner st bi bot)
    else if decide (winCondition st user settings) then Done (Some NegInf, markWinner st ui user)
    else if decide (depth = search_depth settings) then
      score ← heuristic_spec settings st bot user; Done (Some (Fin score), st)
    else Done (None, st).
Proof.
  intros Hbot Huser Hne. unfold getTerminalNodeState. rewrite Hbot, Huser. simpl.
  apply list_find_Some in Hbot as (Hbi & _ & _).
  apply list_find_Some in Huser as (Hui & _ & _).
  assert (user ∈ twoPlayer st) as Hinu by (by eapply list_elem_of_lookup_2).
  assert (bot ∈ twoPlayer st) as Hinb by (by eapply list_elem_of_lookup_2).
  rewrite (checkWin_decide st bi bot user settings Hbi Hinu) by done. simpl.
  destruct (decide (winCondition st bot settings)) as [Hwb|Hwb].
  { by rewrite bool_decide_eq_true_2. }
  rewrite bool_decide_eq_false_2 by done.
  rewrite (checkWin_decide st ui user bot settings Hui Hinb) by done. simpl.
  destruct (decide (winCondition st user settings)) as [Hwu|Hwu].
  { by rewrite bool_decide_eq_true_2. }
  rewrite bool_decide_eq_false_2 by done.
  case_decide; [|done].
  rewrite Hbi, Hui. simpl. by rewrite heuristic_closed.
Qed.

(** C8. [getTerminalNodeState] first checks the wins: plus infinity when
    the bot (the maximizing player) has won, else minus infinity when the
    user has won, in both cases without evaluating any cell; only when
    neither has won and the depth is the maximum depth it returns the
    heuristic: the material term, plus (when [safetyZone > 0]) the rounded
    proximity term over the five distance buckets and the imminent-win
    bonus, plus (when [materialOpponent > 0]) the accounted-material term,
    or the evaluation error when a reversed tower is at distance 0 or
    beyond 5; at any other depth it returns [null].  Every term and their
    sum are computed in the arithmetic of the program, binary64 with its
    rounding after each operation, on a board of the data model and with
    weights in the range where no operation overflows. *)
Theorem getTerminalNodeState_spec (settings : Settings) (st : BoardState) (depth : Z)
    (bi ui : nat) (bot user : Player) :
  inRange settings st →
  list_find (fun player => isMaximizing player = true) (twoPlayer st) = Some (bi, bot) →
  list_find (fun player => isMaximizing player = false) (twoPlayer st) = Some (ui, user) →
  id bot ≠ id user →
  getTerminalNodeState settings st depth
  = if decide (winCondition st bot settings) then Done (Some PosInf, markWinner st bi bot)
    else if decide (winCondition st user settings) then Done (Some NegInf, markWinner st ui user)
    else if decide (depth = search_depth settings) then
      score ← heuristic_spec settings st bot user; Done (Some (Fin score), st)
    else Done (None, st).
Proof. intros _. apply getTerminalNodeState_closed. Qed.

(** ** The search never reads a [winner] flag *)

Lemma list_find_erase (P : Player → Prop) `{∀ p, Decision (P p)} (ps : list Player) :
  (∀ p, P (set_winner p false) ↔ P p) →
  list_find P ((fun p => set_winner p false) <$> ps)
  = prod_map (fun i => i) (fun p => set_winner p false) <$> list_find P ps.
Proof.
  intros HP. induction ps as [|p ps IH]; [done|].
  rewrite fmap_cons. simpl list_find.
  destruct (decide (P (set_winner p false))) as [Hp|Hp];
    destruct (decide (P p)) as [Hp'|Hp'].
  - done.
  - exfalso. apply Hp'. by apply HP.
  - exfalso. apply Hp. by apply HP.
  - rewrite IH. by destruct (list_find P ps) as [[? ?]|].
Qed.

Lemma theMover_erase (st : BoardState) :
  theMover (eraseWinner st)
  = prod_map (fun i => i) (fun p => set_winner p false) <$> theMover st.
Proof. unfold theMover. simpl. by apply list_find_erase. Qed.

Lemma stackLoop_player (src tgt : list PlayerId) (p q : Player) (maxStackSize : Z) :
  id p = id q → vault p = vault q →
  stackLoop src tgt (Some q) maxStackSize
  = (fun r : list PlayerId * option Player =>
       (r.1, (fun x => withVault q (vault x)) <$> r.2))
      <$> stackLoop src tgt (Some p) maxStackSize.
Proof.
  revert tgt p q. induction src as [|stone rest IH]; intros tgt p q Hid Hv.
  - simpl. rewrite Hv. by rewrite withVault_id.
  - simpl stackLoop. case_decide.
    + simpl. rewrite Hid, Hv.
      by erewrite (IH _ (set_vault p _) (set_vault q _)).
    + by apply IH.
Qed.

Lemma stackTowers_erase (srcInst tgtInst : GridCell) (p : Player) (maxStackSize : Z) :
  stackTowers srcInst tgtInst (Some (set_winner p false)) maxStackSize
  = (fun r : list PlayerId * option Player =>
       (r.1, (fun x => set_winner x false) <$> r.2))
      <$> stackTowers srcInst tgtInst (Some p) maxStackSize.
Proof.
  unfold stackTowers. repeat case_decide; try done.
  rewrite (stackLoop_player _ _ p (set_winner p false)) by done.
  destruct (stackLoop_Some (svgLayout srcInst) (svgLayout tgtInst) p maxStackSize)
    as (layout & v & -> & _).
  done.
Qed.

Lemma reverseOrSecure_erase (srcInst tgtInst : GridCell) (layout : list PlayerId) (p : Player) :
  reverseOrSecure srcInst tgtInst layout (set_winner p false)
  = ((reverseOrSecure srcInst tgtInst layout p).1,
     set_winner (reverseOrSecure srcInst tgtInst layout p).2 false).
Proof. unfold reverseOrSecure. by repeat case_decide. Qed.

Lemma playMove_erase (s t : nat) (st : BoardState) (maxStackSize : Z) :
  playMove s t (eraseWinner st) maxStackSize = eraseWinner <$> playMove s t st maxStackSize.
Proof.
  unfold playMove. fold (theMover (eraseWinner st)). fold (theMover st).
  rewrite theMover_erase. simpl cells.
  destruct (cells st !! s) as [srcInst|]; [|done].
  destruct (cells st !! t) as [tgtInst|]; [|done].
  simpl.
  destruct (theMover st) as [[pi p]|]; simpl.
  - rewrite stackTowers_erase.
    destruct (stackTowers srcInst tgtInst (Some p) maxStackSize) as [[layout [p1|]]| |];
      simpl; try done.
    rewrite reverseOrSecure_erase.
    destruct (reverseOrSecure srcInst tgtInst layout p1) as [tgt p']. simpl.
    unfold eraseWinner. simpl. by rewrite list_fmap_insert.
  - by destruct (stackTowers srcInst tgtInst None maxStackSize) as [[layout [p1|]]| |].
Qed.

Lemma switchPlayer_erase (ps : list Player) :
  switchPlayer ((fun p => set_winner p false) <$> ps)
  = (fun p => set_winner p false) <$> switchPlayer ps.
Proof. unfold switchPlayer. by rewrite <- !list_fmap_compose. Qed.

Lemma applyMoveAndTurn_erase (st : BoardState) (s t : nat) (maxStackSize : Z) :
  applyMoveAndTurn (eraseWinner st) s t maxStackSize
  = eraseWinner <$> applyMoveAndTurn st s t maxStackSize.
Proof.
  unfold applyMoveAndTurn. rewrite playMove_erase.
  destruct (playMove s t st maxStackSize) as [st1| |]; simpl; try done.
  unfold eraseWinner. simpl. by rewrite switchPlayer_erase.
Qed.

Lemma getAllPossibleMoves_erase (st : BoardState) (p : Player) :
  getAllPossibleMoves (eraseWinner st) (set_winner p false) = getAllPossibleMoves st p.
Proof. reflexivity. Qed.

Lemma eraseWinner_idemp (st : BoardState) : eraseWinner (eraseWinner st) = eraseWinner st.
Proof. unfold eraseWinner. simpl. by rewrite <- list_fmap_compose. Qed.

Lemma wf_state_erase (st st' : BoardState) :
  eraseWinner st = eraseWinner st' → wf_state st → wf_state st'.
Proof.
  intros H [Hboard [Hnodup Hcap]].
  pose proof (eraseWinner_cells _ _ H) as Hcells.
  pose proof (eraseWinner_roles _ _ H) as Hroles.
  unfold eraseWinner in H. injection H as _ Hps.
  split; [|split].
  - unfold wf_board. by rewrite <- Hcells.
  - assert (∀ l : list Player, id <$> l = fst <$> roles l) as Hid.
    { intros l. unfold roles. by rewrite <- list_fmap_compose. }
    by rewrite Hid, <- Hroles, <- Hid.
  - rewrite Forall_forall in Hcap. apply Forall_forall. intros q Hq.
    assert (set_winner q false ∈ (fun p => set_winner p false) <$> twoPlayer st) as Hin.
    { rewrite Hps. by apply (list_elem_of_fmap_2 (fun p => set_winner p false)). }
    apply list_elem_of_fmap in Hin as (q0 & Heq & Hin0).
    specialize (Hcap q0 Hin0). unfold set_winner in Heq.
    injection Heq as _ _ _ _ Hsafety Hvault. unfold capped in *.
    by rewrite Hsafety, Hvault.
Qed.

Lemma eraseWinner_markWinner (st : BoardState) (pi : nat) (p : Player) :
  twoPlayer st !! pi = Some p →
  eraseWinner (markWinner st pi p) = eraseWinner st.
Proof.
  intros Hp. unfold eraseWinner, markWinner. simpl. f_equal.
  by eapply fmap_insert_same.
Qed.

Lemma checkWin_Done_erase (st st' : BoardState) (pi : nat) (settings : Settings) (b : bool) :
  checkWin st pi settings = Done (b, st') →
  eraseWinner st' = eraseWinner st ∧ (b = false → st' = st).
Proof.
  unfold checkWin. destruct (twoPlayer st !! pi) as [p|] eqn:Hp; [|done]. simpl.
  fold (markWinner st pi p).
  case_decide.
  { intros Heq. injection Heq as <- <-. split; [by apply eraseWinner_markWinner|done]. }
  destruct (match cells st with
            | [] => Done None
            | _ => _
            end) as [o| |]; simpl; [|done..].
  case_decide; intros Heq; injection Heq as <- <-.
  - split; [by apply eraseWinner_markWinner|done].
  - done.
Qed.

Lemma checkWin_erase_fst (st : BoardState) (pi : nat) (settings : Settings) :
  fst <$> checkWin (eraseWinner st) pi settings = fst <$> checkWin st pi settings.
Proof.
  unfold checkWin. simpl twoPlayer. simpl cells. rewrite list_lookup_fmap.
  destruct (twoPlayer st !! pi) as [p|]; [|done]. simpl.
  case_decide; [done|].
  rewrite (list_find_erase (fun playerInst => id playerInst ≠ id p)) by done.
  destruct (list_find (fun playerInst => id playerInst ≠ id p) (twoPlayer st)) as [[j opp]|];
    simpl.
  - destruct (cells st); simpl; by repeat case_decide.
  - destruct (cells st); simpl; by repeat case_decide.
Qed.

Lemma checkWin_erase_cases (st : BoardState) (pi : nat) (settings : Settings) :
  (∃ st1 st1e, checkWin st pi settings = Done (true, st1)
               ∧ checkWin (eraseWinner st) pi settings = Done (true, st1e))
  ∨ (checkWin st pi settings = Done (false, st)
     ∧ checkWin (eraseWinner st) pi settings = Done (false, eraseWinner st))
  ∨ (∃ e, checkWin st pi settings = Throw e
          ∧ checkWin (eraseWinner st) pi settings = Throw e)
  ∨ (checkWin st pi settings = Timeout
     ∧ checkWin (eraseWinner st) pi settings = Timeout).
Proof.
  pose proof (checkWin_erase_fst st pi settings) as Hfst.
  destruct (checkWin st pi settings) as [[b st1]|e|] eqn:H1;
    destruct (checkWin (eraseWinner st) pi settings) as [[b' st1e]|e'|] eqn:H2;
    simpl in Hfst; try done.
  - injection Hfst as ->.
    apply checkWin_Done_erase in H1 as [_ H1]. apply checkWin_Done_erase in H2 as [_ H2].
    destruct b.
    + left. eauto.
    + right. left. by rewrite H1, H2.
  - injection Hfst as ->. right. right. left. eauto.
  - right. right. right. done.
Qed.

Lemma getTerminalNodeState_Done_erase (settings : Settings) (st st' : BoardState) (depth : Z)
    (evaluation : option Score) :
  getTerminalNodeState settings st depth = Done (evaluation, st') →
  eraseWinner st' = eraseWinner st ∧ (evaluation = None → st' = st).
Proof.
  unfold getTerminalNodeState.
  destruct (list_find (fun player => isMaximizing player = true) (twoPlayer st))
    as [[bi bot]|]; [|done]. simpl.
  destruct (checkWin st bi settings) as [[b1 st1]| |] eqn:H1; [|done..]. simpl.
  apply checkWin_Done_erase in H1 as [He1 Hs1].
  destruct b1.
  { intros Heq. injection Heq as <- <-. done. }
  specialize (Hs1 eq_refl). subst st1.
  destruct (list_find (fun player => isMaximizing player = false) (twoPlayer st))
    as [[ui user]|]; [|done]. simpl.
  destruct (checkWin st ui settings) as [[b2 st2]| |] eqn:H2; [|done..]. simpl.
  apply checkWin_Done_erase in H2 as [He2 Hs2].
  destruct b2.
  { intros Heq. injection Heq as <- <-. done. }
  specialize (Hs2 eq_refl). subst st2.
  case_decide.
  - destruct (twoPlayer st !! bi); [|done]. destruct (twoPlayer st !! ui); [|done]. simpl.
    destruct (heuristic settings st _ _); [|done..]. simpl.
    intros Heq. injection Heq as <- <-. done.
  - intros Heq. injection Heq as <- <-. done.
Qed.

Lemma getTerminalNodeState_erase_fst (settings : Settings) (st : BoardState) (depth : Z) :
  fst <$> getTerminalNodeState settings (eraseWinner st) depth
  = fst <$> getTerminalNodeState settings st depth.
Proof.
  unfold getTerminalNodeState. simpl twoPlayer.
  rewrite !(list_find_erase _ (twoPlayer st)) by done.
  destruct (list_find (fun player => isMaximizing player = true) (twoPlayer st))
    as [[bi bot]|]; [|done]. simpl.
  destruct (checkWin_erase_cases st bi settings)
    as [(st1 & st1e & -> & ->)|[[-> ->]|[(e & -> & ->)|[-> ->]]]]; simpl; try done.
  destruct (list_find (fun player => isMaximizing player = false) (twoPlayer st))
    as [[ui user]|]; [|done]. simpl.
  destruct (checkWin_erase_cases st ui settings)
    as [(st2 & st2e & -> & ->)|[[-> ->]|[(e & -> & ->)|[-> ->]]]]; simpl; try done.
  case_decide; [|done].
  rewrite !list_lookup_fmap.
  destruct (twoPlayer st !! bi) as [bot'|]; [|done].
  destruct (twoPlayer st !! ui) as [user'|]; [|done]. simpl.
  change (heuristic settings (eraseWinner st) (set_winner bot' false) (set_winner user' false))
    with (heuristic settings st bot' user').
  by destruct (heuristic settings st bot' user').
Qed.

(** ** The loops of the search restore the board *)

Lemma logMove_cases (st : BoardState) (s t : nat) (maxStackSize : Z) :
  (∃ loggedMove, logMove st s t = Done loggedMove)
  ∨ (logMove st s t = Throw TypeError
     ∧ applyMoveAndTurn st s t maxStackSize = Throw TypeError).
Proof.
  unfold logMove, applyMoveAndTurn, playMove.
  destruct (cells st !! s) as [srcInst|]; simpl; [|by right].
  destruct (cells st !! t) as [tgtInst|]; simpl; [|by right].
  left. eauto.
Qed.

Section LoopFacts.
Context (settings : Settings).

Lemma maxLoop_searchLoop rec moves st max_eval alpha beta :
  maxLoop settings rec moves st max_eval alpha beta
  = (fun r : (Score * Score) * BoardState => (r.1.1, r.2))
      <$> searchLoop settings (fun st acc => rec st acc.2 beta) (nextMax beta)
            moves st (max_eval, alpha).
Proof.
  revert st max_eval alpha. induction moves as [|move rest IH]; intros st max_eval alpha.
  - done.
  - simpl. destruct (logMove st move.1 move.2) as [lm| |]; simpl; [|done..].
    destruct (applyMoveAndTurn st move.1 move.2 _) as [st1| |]; simpl; [|done..].
    destruct (rec st1 alpha beta) as [[ev st2]| |]; simpl; [|done..].
    destruct (undoMove st2 lm) as [st3| |]; simpl; [|done..].
    unfold nextMax. simpl. case_decide; [done|]. apply IH.
Qed.

Lemma minLoop_searchLoop rec moves st min_eval alpha beta :
  minLoop settings rec moves st min_eval alpha beta
  = (fun r : (Score * Score) * BoardState => (r.1.1, r.2))
      <$> searchLoop settings (fun st acc => rec st alpha acc.2) (nextMin alpha)
            moves st (min_eval, beta).
Proof.
  revert st min_eval beta. induction moves as [|move rest IH]; intros st min_eval beta.
  - done.
  - simpl. destruct (logMove st move.1 move.2) as [lm| |]; simpl; [|done..].
    destruct (applyMoveAndTurn st move.1 move.2 _) as [st1| |]; simpl; [|done..].
    destruct (rec st1 alpha beta) as [[ev st2]| |]; simpl; [|done..].
    destruct (undoMove st2 lm) as [st3| |]; simpl; [|done..].
    unfold nextMin. simpl. case_decide; [done|]. apply IH.
Qed.

Lemma maxLoop_full_searchLoop rec moves st max_eval :
  maxLoop_full settings rec moves st max_eval
  = searchLoop settings (fun st _ => rec st) nextMaxFull moves st max_eval.
Proof.
  revert st max_eval. induction moves as [|move rest IH]; intros st max_eval.
  - done.
  - simpl. destruct (logMove st move.1 move.2) as [lm| |]; simpl; [|done..].
    destruct (applyMoveAndTurn st move.1 move.2 _) as [st1| |]; simpl; [|done..].
    destruct (rec st1) as [[ev st2]| |]; simpl; [|done..].
    destruct (undoMove st2 lm) as [st3| |]; simpl; [|done..].
    apply IH.
Qed.

Lemma minLoop_full_searchLoop rec moves st min_eval :
  minLoop_full settings rec moves st min_eval
  = searchLoop settings (fun st _ => rec st) nextMinFull moves st min_eval.
Proof.
  revert st min_eval. induction moves as [|move rest IH]; intros st min_eval.
  - done.
  - simpl. destruct (logMove st move.1 move.2) as [lm| |]; simpl; [|done..].
    destruct (applyMoveAndTurn st move.1 move.2 _) as [st1| |]; simpl; [|done..].
    destruct (rec st1) as [[ev st2]| |]; simpl; [|done..].
    destruct (undoMove st2 lm) as [st3| |]; simpl; [|done..].
    apply IH.
Qed.

Lemma bestLoop_searchLoop fuel moves st best_score best_move :
  bestLoop settings fuel moves st best_score best_move
  = (fun r : (Score * option (nat * nat)) * BoardState => (r.1.2, r.2))
      <$> searchLoop settings (fun st _ => minimax settings fuel st 0 NegInf PosInf)
            nextBest moves st (best_score, best_move).
Proof.
  revert st best_score best_move.
  induction moves as [|move rest IH]; intros st best_score best_move.
  - done.
  - simpl. destruct (logMove st move.1 move.2) as [lm| |]; simpl; [|done..].
    destruct (applyMoveAndTurn st move.1 move.2 _) as [st1| |]; simpl; [|done..].
    destruct (minimax settings fuel st1 0 NegInf PosInf) as [[ev st2]| |]; simpl; [|done..].
    destruct (undoMove st2 lm) as [st3| |]; simpl; [|done..].
    case_decide; apply IH.
Qed.

Lemma searchLoop_pure {Acc} (rec : BoardState → Acc → outcome (Score * BoardState))
    (prec : BoardState → Acc → outcome Score)
    (next : Acc → nat * nat → Score → loopStep Acc)
    (moves : list (nat * nat)) (st : BoardState) (acc : Acc) :
  restoring rec prec →
  wf_state st →
  fst <$> searchLoop settings rec next moves st acc
  = pureLoop settings prec next moves (eraseWinner st) acc
  ∧ ∀ a st', searchLoop settings rec next moves st acc = Done (a, st') →
             eraseWinner st' = eraseWinner st.
Proof.
  intros Hrec. revert st acc. induction moves as [|move rest IH]; intros st acc Hwf.
  - simpl. split; [done|]. intros a st' Heq. by injection Heq as <- <-.
  - simpl. rewrite applyMoveAndTurn_erase.
    destruct (logMove_cases st move.1 move.2 (maxStackSize settings))
      as [[lm Hlog]|[Hlog Happ]]; rewrite Hlog; simpl.
    2: { rewrite Happ. done. }
    destruct (applyMoveAndTurn st move.1 move.2 (maxStackSize settings))
      as [st1| |] eqn:Happ; simpl; [|done..].
    pose proof (applyMoveAndTurn_wf _ _ _ _ _ Hwf Happ) as Hwf1.
    destruct (Hrec st1 acc Hwf1) as [Hfst Hres]. rewrite <- Hfst.
    destruct (rec st1 acc) as [[ev st2]| |] eqn:Hr; simpl; [|done..].
    specialize (Hres ev st2 eq_refl).
    destruct (undoMove_restores st st1 st2 move.1 move.2 (maxStackSize settings) lm
                Hwf Hlog Happ Hres) as (st3 & -> & He3 & _).
    simpl. destruct (next acc move ev) as [acc'|acc'].
    + assert (wf_state st3) as Hwf3 by (by eapply wf_state_erase).
      destruct (IH st3 acc' Hwf3) as [IH1 IH2]. rewrite IH1, He3. split; [done|].
      intros a st' Heq. rewrite <- He3. by eapply IH2.
    + simpl. split; [done|]. intros a st' Heq. by injection Heq as <- <-.
Qed.
End LoopFacts.

(** ** The search restores the board *)

Section SearchFacts.
Context (settings : Settings).

Lemma minimax_restoring (fuel : nat) (st : BoardState) (depth : Z) (alpha beta : Score) :
  wf_state st →
  fst <$> minimax settings fuel st depth alpha beta
  = pureMinimax settings fuel (eraseWinner st) depth alpha beta
  ∧ ∀ v st', minimax settings fuel st depth alpha beta = Done (v, st') →
             eraseWinner st' = eraseWinner st.
Proof.
  revert st depth alpha beta.
  induction fuel as [|fuel IH]; intros st depth alpha beta Hwf; [done|].
  simpl minimax. simpl pureMinimax. fold (theMover st). rewrite theMover_erase.
  pose proof (getTerminalNodeState_erase_fst settings st depth) as Hfst.
  destruct (getTerminalNodeState settings st depth) as [[ev st1]| |] eqn:Hg;
    destruct (getTerminalNodeState settings (eraseWinner st) depth) as [[ev' st1e]| |] eqn:Hge;
    simpl in Hfst; try done; simpl.
  2: { by injection Hfst as ->. }
  injection Hfst as ->.
  apply getTerminalNodeState_Done_erase in Hg as [He1 Hs1].
  apply getTerminalNodeState_Done_erase in Hge as [_ Hs1e].
  destruct ev as [v|]; simpl.
  { split; [done|]. intros v' st' Heq. by injection Heq as <- <-. }
  rewrite (Hs1 eq_refl). clear Hs1e.
  destruct (theMover st) as [[pi p]|]; simpl; [|done].
  change (getAllPossibleMoves (eraseWinner st) (set_winner p false))
    with (getAllPossibleMoves st p).
  case_decide.
  - rewrite maxLoop_searchLoop.
    edestruct (searchLoop_pure settings
                 (fun st acc => minimax settings fuel st (depth + 1) acc.2 beta)
                 (fun st acc => pureMinimax settings fuel st (depth + 1) acc.2 beta)
                 (nextMax beta) (getAllPossibleMoves st p) st (NegInf, alpha))
      as [H1 H2]; [|done|].
    { intros st' acc Hwf'. apply IH. done. }
    rewrite <- H1.
    destruct (searchLoop _ _ _ _ _ _) as [[[me a] st']| |]; simpl; [|done..].
    split; [done|]. intros v st'' Heq. injection Heq as <- <-. by eapply H2.
  - rewrite minLoop_searchLoop.
    edestruct (searchLoop_pure settings
                 (fun st acc => minimax settings fuel st (depth + 1) alpha acc.2)
                 (fun st acc => pureMinimax settings fuel st (depth + 1) alpha acc.2)
                 (nextMin alpha) (getAllPossibleMoves st p) st (PosInf, beta))
      as [H1 H2]; [|done|].
    { intros st' acc Hwf'. apply IH. done. }
    rewrite <- H1.
    destruct (searchLoop _ _ _ _ _ _) as [[[me a] st']| |]; simpl; [|done..].
    split; [done|]. intros v st'' Heq. injection Heq as <- <-. by eapply H2.
Qed.

Lemma minimax_full_restoring (fuel : nat) (st : BoardState) (depth : Z) :
  wf_state st →
  fst <$> minimax_full settings fuel st depth
  = pureMinimax_full settings fuel (eraseWinner st) depth
  ∧ ∀ v st', minimax_full settings fuel st depth = Done (v, st') →
             eraseWinner st' = eraseWinner st.
Proof.
  revert st depth.
  induction fuel as [|fuel IH]; intros st depth Hwf; [done|].
  simpl minimax_full. simpl pureMinimax_full. fold (theMover st). rewrite theMover_erase.
  pose proof (getTerminalNodeState_erase_fst settings st depth) as Hfst.
  destruct (getTerminalNodeState settings st depth) as [[ev st1]| |] eqn:Hg;
    destruct (getTerminalNodeState settings (eraseWinner st) depth) as [[ev' st1e]| |] eqn:Hge;
    simpl in Hfst; try done; simpl.
  2: { by injection Hfst as ->. }
  injection Hfst as ->.
  apply getTerminalNodeState_Done_erase in Hg as [He1 Hs1].
  apply getTerminalNodeState_Done_erase in Hge as [_ Hs1e].
  destruct ev as [v|]; simpl.
  { split; [done|]. intros v' st' Heq. by injection Heq as <- <-. }
  rewrite (Hs1 eq_refl). clear Hs1e.
  destruct (theMover st) as [[pi p]|]; simpl; [|done].
  change (getAllPossibleMoves (eraseWinner st) (set_winner p false))
    with (getAllPossibleMoves st p).
  case_decide.
  - rewrite maxLoop_full_searchLoop.
    apply (searchLoop_pure settings
             (fun st (_ : Score) => minimax_full settings fuel st (depth + 1))
             (fun st (_ : Score) => pureMinimax_full settings fuel st (depth + 1)));
      [|done].
    intros st' acc Hwf'. apply IH. done.
  - rewrite minLoop_full_searchLoop.
    apply (searchLoop_pure settings
             (fun st (_ : Score) => minimax_full settings fuel st (depth + 1))
             (fun st (_ : Score) => pureMinimax_full settings fuel st (depth + 1)));
      [|done].
    intros st' acc Hwf'. apply IH. done.
Qed.
End SearchFacts.

(** ** The order of scores *)

Lemma sle_refl (a : Score) : sle a a.
Proof. destruct a; simpl; try done; apply Qcle_refl. Qed.

Lemma sle_trans (a b c : Score) : sle a b → sle b c → sle a c.
Proof. destruct a, b, c; simpl; try done; apply Qcle_trans. Qed.

Lemma sle_antisym (a b : Score) : sle a b → sle b a → a = b.
Proof.
  destruct a, b; simpl; try done. intros H1 H2. f_equal. by apply Qcle_antisym.
Qed.

Lemma sle_total (a b : Score) : sle a b ∨ sle b a.
Proof.
  destruct a as [|x|], b as [|y|]; simpl; try tauto.
  destruct (Qc_le_total x y); tauto.
Qed.

Module ScoreOrdFacts.
Lemma eq_equiv : Equivalence ScoreOrd.eq.
Proof. unfold ScoreOrd.eq. apply _. Qed.

Lemma lt_strorder : StrictOrder ScoreOrd.lt.
Proof.
  split.
  - intros a H. apply H. apply sle_refl.
  - intros a b c Hab Hbc Hca.
    destruct (sle_total a b) as [H|H]; [|by apply Hab].
    apply Hbc. by eapply sle_trans.
Qed.

Lemma lt_compat : Proper (ScoreOrd.eq ==> ScoreOrd.eq ==> iff) ScoreOrd.lt.
Proof. intros a b -> c d ->. done. Qed.

Lemma le_lteq (x y : Score) : ScoreOrd.le x y ↔ ScoreOrd.lt x y ∨ ScoreOrd.eq x y.
Proof.
  unfold ScoreOrd.le, ScoreOrd.lt, ScoreOrd.eq, slt. split.
  - intros H. destruct (decide (sle y x)); [right; by apply sle_antisym|by left].
  - intros [H| ->]; [|apply sle_refl]. destruct (sle_total x y); tauto.
Qed.

Lemma lt_total (x y : Score) : ScoreOrd.lt x y ∨ ScoreOrd.eq x y ∨ ScoreOrd.lt y x.
Proof.
  unfold ScoreOrd.lt, ScoreOrd.eq, slt.
  destruct (decide (sle x y)), (decide (sle y x)); try tauto.
  right. left. by apply sle_antisym.
Qed.
End ScoreOrdFacts.

Module ScoreTac := MakeOrderTac ScoreOrd ScoreOrdFacts.

(** Decide a goal of the theory of the total order of scores, after case
    analysis on every [smax] and [smin]. *)
Ltac sorder :=
  unfold smax, smin in *; repeat case_decide; subst;
  change sle with ScoreOrd.le in *; change slt with ScoreOrd.lt in *;
  change (@Logic.eq Score) with ScoreOrd.eq in *;
  ScoreTac.order.

(** Case analysis on the premise of an implication between order facts. *)
Ltac split_imp H :=
  match type of H with
  | ?P → ?Q =>
      let Hp := fresh "Hp" in
      destruct (decide P) as [Hp|Hp]; [specialize (H Hp); try split_imp H | clear H]
  end.

Ltac split_bounds H :=
  let H1 := fresh "Hlo" in
  let H2 := fresh "Hhi" in
  let H3 := fresh "Hin" in
  destruct H as (H1 & H2 & H3); split_imp H1; split_imp H2; split_imp H3.

(** ** Alpha-beta pruning on the pure search *)

Section AlphaBeta.
Context (settings : Settings).

Lemma pureLoop_full_max_ge recF moves st acc V :
  pureLoop settings (fun st (_ : Score) => recF st) nextMaxFull moves st acc = Done V →
  sle acc V.
Proof.
  revert acc. induction moves as [|move rest IH]; intros acc; simpl.
  - intros Heq. injection Heq as ->. apply sle_refl.
  - destruct (applyMoveAndTurn st move.1 move.2 _) as [st1| |]; simpl; [|done..].
    destruct (recF st1) as [v| |]; simpl; [|done..].
    intros Heq. apply IH in Heq. sorder.
Qed.

Lemma pureLoop_full_min_le recF moves st acc V :
  pureLoop settings (fun st (_ : Score) => recF st) nextMinFull moves st acc = Done V →
  sle V acc.
Proof.
  revert acc. induction moves as [|move rest IH]; intros acc; simpl.
  - intros Heq. injection Heq as ->. apply sle_refl.
  - destruct (applyMoveAndTurn st move.1 move.2 _) as [st1| |]; simpl; [|done..].
    destruct (recF st1) as [v| |]; simpl; [|done..].
    intros Heq. apply IH in Heq. sorder.
Qed.

Lemma maxLoop_ab recF recAB moves st alpha0 beta accF max_eval alpha V :
  childSound recF recAB →
  alpha = smax alpha0 max_eval →
  slt alpha beta →
  (sle accF alpha0 → sle max_eval alpha0) →
  (slt alpha0 accF → max_eval = accF) →
  slt accF beta →
  pureLoop settings (fun st (_ : Score) => recF st) nextMaxFull moves st accF = Done V →
  ∃ acc, pureLoop settings (fun st acc => recAB st acc.2 beta) (nextMax beta)
           moves st (max_eval, alpha) = Done acc
         ∧ abBounds V acc.1 alpha0 beta.
Proof.
  intros Hchild. revert accF max_eval alpha.
  induction moves as [|move rest IH]; intros accF max_eval alpha Ha Hab H1 H2 HF; simpl.
  - intros Heq. injection Heq as <-. exists (max_eval, alpha). split; [done|].
    split_imp H1; split_imp H2; repeat split; simpl; intros; sorder.
  - destruct (applyMoveAndTurn st move.1 move.2 _) as [st1| |]; simpl; [|done..].
    destruct (recF st1) as [v| |] eqn:Hv; simpl; [|done..].
    intros HV. destruct (Hchild st1 alpha beta v Hab Hv) as (r & -> & Hb). simpl.
    unfold nextMax. simpl. case_decide as Hprune.
    + apply pureLoop_full_max_ge in HV.
      eexists. split; [done|]. simpl.
      split_bounds Hb; split_imp H1; split_imp H2; repeat split; intros; sorder.
    + unfold nextMaxFull in HV. simpl in HV.
      apply (IH (smax accF v)); [| | | | |done].
      * clear -Ha. sorder.
      * clear -Hprune. sorder.
      * clear IH HV. intros Hg.
        split_bounds Hb; split_imp H1; split_imp H2; sorder.
      * clear IH HV. intros Hg.
        split_bounds Hb; split_imp H1; split_imp H2; sorder.
      * clear IH HV.
        split_bounds Hb; split_imp H1; split_imp H2; sorder.
Qed.
Lemma minLoop_ab recF recAB moves st alpha beta0 accF min_eval beta V :
  childSound recF recAB →
  beta = smin beta0 min_eval →
  slt alpha beta →
  (sle beta0 accF → sle beta0 min_eval) →
  (slt accF beta0 → min_eval = accF) →
  slt alpha accF →
  pureLoop settings (fun st (_ : Score) => recF st) nextMinFull moves st accF = Done V →
  ∃ acc, pureLoop settings (fun st acc => recAB st alpha acc.2) (nextMin alpha)
           moves st (min_eval, beta) = Done acc
         ∧ abBounds V acc.1 alpha beta0.
Proof.
  intros Hchild. revert accF min_eval beta.
  induction moves as [|move rest IH]; intros accF min_eval beta Hb0 Hab H1 H2 HF; simpl.
  - intros Heq. injection Heq as <-. exists (min_eval, beta). split; [done|].
    split_imp H1; split_imp H2; repeat split; simpl; intros; sorder.
  - destruct (applyMoveAndTurn st move.1 move.2 _) as [st1| |]; simpl; [|done..].
    destruct (recF st1) as [v| |] eqn:Hv; simpl; [|done..].
    intros HV. destruct (Hchild st1 alpha beta v Hab Hv) as (r & -> & Hb). simpl.
    unfold nextMin. simpl. case_decide as Hprune.
    + apply pureLoop_full_min_le in HV.
      eexists. split; [done|]. simpl.
      split_bounds Hb; split_imp H1; split_imp H2; repeat split; intros; sorder.
    + unfold nextMinFull in HV. simpl in HV.
      apply (IH (smin accF v)); [| | | | |done].
      * clear -Hb0. sorder.
      * clear -Hprune. sorder.
      * clear IH HV. intros Hg.
        split_bounds Hb; split_imp H1; split_imp H2; sorder.
      * clear IH HV. intros Hg.
        split_bounds Hb; split_imp H1; split_imp H2; sorder.
      * clear IH HV.
        split_bounds Hb; split_imp H1; split_imp H2; sorder.
Qed.

Lemma sle_NegInf (a : Score) : sle NegInf a.
Proof. done. Qed.

Lemma sle_PosInf (a : Score) : sle a PosInf.
Proof. by destruct a. Qed.

Lemma pure_alphabeta (fuel : nat) (st : BoardState) (depth : Z) (alpha beta v : Score) :
  slt alpha beta →
  pureMinimax_full settings fuel st depth = Done v →
  ∃ r, pureMinimax settings fuel st depth alpha beta = Done r ∧ abBounds v r alpha beta.
Proof.
  revert st depth alpha beta v.
  induction fuel as [|fuel IH]; intros st depth alpha beta v Hab; [done|].
  simpl.
  destruct (getTerminalNodeState settings st depth) as [[ev st1]| |]; simpl; [|done..].
  destruct ev as [v0|].
  { intros Heq. injection Heq as <-. exists v0. split; [done|]. by repeat split. }
  destruct (theMover st) as [[pi p]|]; simpl; [|done].
  pose proof (sle_NegInf alpha) as Hlo. pose proof (sle_PosInf beta) as Hhi.
  pose proof (sle_NegInf beta) as Hlo'. pose proof (sle_PosInf alpha) as Hhi'.
  case_decide.
  - intros HV.
    destruct (maxLoop_ab (fun st => pureMinimax_full settings fuel st (depth + 1))
                (fun st a b => pureMinimax settings fuel st (depth + 1) a b)
                (getAllPossibleMoves st p) st alpha beta NegInf NegInf alpha v)
      as (acc & -> & Hb); try done.
    + intros st' a b v' Hab' Hv'. by apply IH.
    + clear -Hlo. sorder.
    + clear -Hlo' Hab Hlo. sorder.
    + by exists acc.1.
  - intros HV.
    destruct (minLoop_ab (fun st => pureMinimax_full settings fuel st (depth + 1))
                (fun st a b => pureMinimax settings fuel st (depth + 1) a b)
                (getAllPossibleMoves st p) st alpha beta PosInf PosInf beta v)
      as (acc & -> & Hb); try done.
    + intros st' a b v' Hab' Hv'. by apply IH.
    + clear -Hhi. sorder.
    + clear -Hhi' Hab Hhi. sorder.
    + by exists acc.1.
Qed.
End AlphaBeta.

(** ** Pruned and full-width search on the mutable board *)

Lemma fmap_fst_Done {A} (o : outcome (A * BoardState)) (a : A) :
  fst <$> o = Done a → ∃ st, o = Done (a, st).
Proof.
  destruct o as [[a' st]| |]; simpl; try done.
  intros Heq. injection Heq as ->. by exists st.
Qed.

Lemma abBounds_full_window (v r : Score) : abBounds v r NegInf PosInf → r = v.
Proof.
  intros (Hlo & Hhi & Hin).
  destruct v as [|q|].
  - specialize (Hlo I). by destruct r.
  - apply Hin; unfold slt; simpl; tauto.
  - specialize (Hhi I). by destruct r.
Qed.

Lemma minimax_agrees_with_full (settings : Settings) (fuel : nat) (st stF : BoardState)
    (depth : Z) (v : Score) :
  wf_state st →
  minimax_full settings fuel st depth = Done (v, stF) →
  ∃ st', minimax settings fuel st depth NegInf PosInf = Done (v, st').
Proof.
  intros Hwf Hfull.
  destruct (minimax_full_restoring settings fuel st depth Hwf) as [HF _].
  rewrite Hfull in HF. simpl in HF. symmetry in HF.
  destruct (pure_alphabeta settings fuel (eraseWinner st) depth NegInf PosInf v)
    as (r & Hr & Hb); [unfold slt; simpl; tauto|done|].
  apply abBounds_full_window in Hb. subst r.
  destruct (minimax_restoring settings fuel st depth NegInf PosInf Hwf) as [HAB _].
  rewrite Hr in HAB. by apply fmap_fst_Done in HAB.
Qed.

(** ** Playable boards *)

Lemma stackLoop_last (src tgt layout : list PlayerId) (p : Player) (mover : option Player)
    (maxStackSize : Z) :
  tgt ≠ [] →
  stackLoop src tgt (Some p) maxStackSize = Done (layout, mover) →
  last layout = last (tgt ++ src).
Proof.
  revert tgt p. induction src as [|stone rest IH]; intros tgt p Htgt.
  - simpl. intros Heq. injection Heq as <- <-. by rewrite app_nil_r.
  - simpl stackLoop. case_decide.
    + simpl. intros Heq. apply IH in Heq.
      2: { destruct tgt as [|a [|b tgt]]; done. }
      rewrite Heq. destruct tgt as [|a tgt]; [done|]. simpl tail.
      rewrite <- !app_assoc. simpl.
      rewrite (last_cons a).
      destruct (last (tgt ++ stone :: rest)) eqn:Hl; [done|].
      apply last_None in Hl. by destruct tgt.
    + intros Heq. apply IH in Heq; [|by destruct tgt].
      by rewrite Heq, <- app_assoc.
Qed.

Lemma stackTowers_top (srcInst tgtInst : GridCell) (p : Player) (maxStackSize : Z)
    (layout : list PlayerId) (mover : option Player) :
  stackTowers srcInst tgtInst (Some p) maxStackSize = Done (layout, mover) →
  last layout = top srcInst.
Proof.
  unfold stackTowers. case_decide as Hsrc; [done|].
  case_decide as Htgt.
  - intros Heq. by injection Heq as <- <-.
  - case_decide; [|done]. intros Heq. apply stackLoop_last in Heq; [|done].
    rewrite Heq, last_app. unfold top.
    destruct (last (svgLayout srcInst)) eqn:Hl; [done|].
    by apply last_None in Hl.
Qed.

Lemma reverseOrSecure_safe (srcInst tgtInst : GridCell) (layout : list PlayerId) (p : Player) :
  last layout = top srcInst →
  safePosition (reverseOrSecure srcInst tgtInst layout p).1.
Proof.
  intros Hlast. unfold reverseOrSecure, safePosition, top in *.
  repeat case_decide; simpl; intros Hdot; rewrite ?Hlast;
    split; intros Htop; try done; try lia; try congruence;
    intros Hrow; intuition congruence.
Qed.

Lemma playable_turns_switch (ps : list Player) :
  turn <$> ps = [true; false] ∨ turn <$> ps = [false; true] →
  turn <$> switchPlayer ps = [true; false] ∨ turn <$> switchPlayer ps = [false; true].
Proof.
  unfold switchPlayer. rewrite <- list_fmap_compose.
  destruct ps as [|p [|q [|r ps]]]; simpl; intros [H|H]; try done;
    injection H as Hp Hq; rewrite Hp, Hq; tauto.
Qed.

Lemma botMaximizes_roles (ps ps' : list Player) :
  roles ps = roles ps' → Forall botMaximizes ps → Forall botMaximizes ps'.
Proof.
  intros Hroles Hall. apply Forall_lookup. intros j q Hq.
  pose proof (roles_lookup ps ps' j Hroles) as Hj. rewrite Hq in Hj.
  destruct (ps !! j) as [p|] eqn:Hp; [|done]. destruct Hj as [Hid Hmax].
  pose proof (Forall_lookup_1 _ _ _ _ Hall Hp) as Hb.
  unfold botMaximizes in *. by rewrite <- Hid, <- Hmax.
Qed.

Lemma applyMoveAndTurn_playable (st st1 : BoardState) (s t : nat) (maxStackSize : Z) :
  playable st →
  applyMoveAndTurn st s t maxStackSize = Done st1 →
  playable st1.
Proof.
  intros (Hwf & Hturn & Hbot & Hsafe) Happ.
  split; [by eapply applyMoveAndTurn_wf|].
  pose proof (applyMoveAndTurn_roles _ _ _ _ _ Happ) as Hroles.
  unfold applyMoveAndTurn in Happ.
  destruct (playMove s t st maxStackSize) as [st'| |] eqn:Hplay; simpl in Happ; [|done..].
  injection Happ as <-.
  apply playMove_Done_inv in Hplay
    as (pi & p & srcInst & tgtInst & layout & v & Hm & Hs & Ht & Hst & Hstack & ->).
  simpl. split; [|split].
  - apply playable_turns_switch.
    apply theMover_Some in Hm as [Hpi _].
    rewrite (fmap_insert_same turn _ pi _ p); [done..|].
    simpl. by destruct (reverseOrSecure_frame srcInst tgtInst layout (withVault p v))
      as (_ & _ & _ & _ & -> & _).
  - by eapply botMaximizes_roles.
  - apply Forall_insert; [apply Forall_insert; [done|]|].
    + apply reverseOrSecure_safe. by eapply stackTowers_top.
    + by intros Hdot.
Qed.

Lemma playable_erase (st : BoardState) : playable st → playable (eraseWinner st).
Proof.
  intros (Hwf & Hturn & Hbot & Hsafe).
  split; [|split; [|split]].
  - eapply wf_state_erase; [|done]. by rewrite eraseWinner_idemp.
  - simpl. by rewrite <- list_fmap_compose.
  - eapply botMaximizes_roles; [|done].
    apply eraseWinner_roles. by rewrite eraseWinner_idemp.
  - done.
Qed.

Lemma playable_mover (st : BoardState) :
  playable st → ∃ pi p, theMover st = Some (pi, p).
Proof.
  intros (_ & Hturn & _). unfold theMover.
  destruct (twoPlayer st) as [|p [|q [|r ps]]]; simpl in Hturn;
    destruct Hturn as [H|H]; try done; injection H as Hp Hq; simpl.
  - rewrite decide_True by done. eauto.
  - rewrite decide_False by (by rewrite Hp). rewrite decide_True by done. simpl. eauto.
Qed.

Lemma playable_players (st : BoardState) :
  playable st →
  ∃ bi ui bot user,
    list_find (fun player => isMaximizing player = true) (twoPlayer st) = Some (bi, bot)
    ∧ list_find (fun player => isMaximizing player = false) (twoPlayer st) = Some (ui, user)
    ∧ id bot = BOT ∧ id user = USER.
Proof.
  intros ((_ & Hnodup & _) & Hturn & Hbot & _).
  destruct (twoPlayer st) as [|p [|q [|r ps]]]; simpl in Hturn;
    destruct Hturn as [H|H]; try done; clear H.
  all: apply Forall_cons in Hbot as [Hp Hbot]; apply Forall_cons in Hbot as [Hq _].
  all: simpl in Hnodup; apply NoDup_cons in Hnodup as [Hne _];
    rewrite list_elem_of_singleton in Hne.
  all: unfold botMaximizes in *; simpl.
  all: destruct (isMaximizing p) eqn:Hmp, (isMaximizing q) eqn:Hmq;
    destruct (id p) eqn:Hip, (id q) eqn:Hiq; try done;
    try (exfalso; intuition congruence).
  all: simpl; repeat (rewrite ?decide_True, ?decide_False by done; simpl).
  all: eauto 10.
Qed.

(** ** The search terminates without error on playable boards *)

Lemma playable_rows (st : BoardState) (c : GridCell) :
  wf_board st → c ∈ cells st → 0 ≤ row c ≤ 5.
Proof.
  intros Hwf Hin. apply list_elem_of_lookup in Hin as [i Hi].
  destruct (wf_board_lookup st i c Hwf Hi) as (Hlt & Hrow & _).
  rewrite Hrow. split.
  - apply Z.div_pos; lia.
  - assert (Z.of_nat i / 6 < 6); [|lia]. apply Z.div_lt_upper_bound; lia.
Qed.

Lemma heuristic_spec_playable (settings : Settings) (st : BoardState) (bot user : Player) :
  playable st → id bot = BOT → id user = USER →
  ∃ score, heuristic_spec settings st bot user = Done score.
Proof.
  intros ((Hboard & _) & _ & _ & Hsafe) Hbot Huser. unfold heuristic_spec.
  rewrite decide_False; [eauto|].
  intros [_ [Hinv|Hinv]]; unfold invalidPosition in Hinv;
    apply Exists_exists in Hinv as (c & Hin & [Htop Hdot] & Hbad);
    pose proof (playable_rows st c Hboard Hin) as Hrow;
    rewrite Forall_forall in Hsafe; destruct (Hsafe c Hin Hdot) as [Hb Hu];
    apply Hbad; unfold validDistance, botDistance, userDistance.
  - rewrite Hbot in Htop. specialize (Hb Htop). lia.
  - rewrite Huser in Htop. specialize (Hu Htop). lia.
Qed.

Lemma getTerminalNodeState_playable (settings : Settings) (st : BoardState) (depth : Z) :
  playable st →
  ∃ ev st', getTerminalNodeState settings st depth = Done (ev, st')
            ∧ (depth = search_depth settings → ev ≠ None).
Proof.
  intros Hplay.
  destruct (playable_players st Hplay) as (bi & ui & bot & user & Hb & Hu & Hib & Hiu).
  rewrite (getTerminalNodeState_closed settings st depth bi ui bot user Hb Hu)
    by (by rewrite Hib, Hiu).
  case_decide; [by eexists _, _|]. case_decide; [by eexists _, _|].
  case_decide as Hd; [|by eexists _, _].
  destruct (heuristic_spec_playable settings st bot user Hplay Hib Hiu) as [score ->].
  simpl. by eexists _, _.
Qed.

Lemma pureLoop_total (settings : Settings) {Acc} (rec : BoardState → Acc → outcome Score)
    (next : Acc → nat * nat → Score → loopStep Acc) (moves : list (nat * nat))
    (st : BoardState) (acc : Acc) :
  (∀ move, move ∈ moves →
     ∃ st1, applyMoveAndTurn st move.1 move.2 (maxStackSize settings) = Done st1
            ∧ ∀ a, ∃ v, rec st1 a = Done v) →
  ∃ acc', pureLoop settings rec next moves st acc = Done acc'.
Proof.
  revert acc. induction moves as [|move rest IH]; intros acc Hmoves; simpl; [by eauto|].
  destruct (Hmoves move) as (st1 & -> & Hrec); [by left|]. simpl.
  destruct (Hrec acc) as [v ->]. simpl.
  destruct (next acc move v) as [acc'|acc']; [|by eauto].
  apply IH. intros move' Hin. apply Hmoves. by right.
Qed.

Lemma pureMinimax_full_total (settings : Settings) (fuel : nat) (st : BoardState) (depth : Z) :
  playable st →
  depth ≤ search_depth settings →
  (Z.to_nat (search_depth settings - depth) < fuel)%nat →
  ∃ v, pureMinimax_full settings fuel st depth = Done v.
Proof.
  revert st depth. induction fuel as [|fuel IH]; intros st depth Hplay Hdepth Hfuel; [lia|].
  simpl.
  destruct (getTerminalNodeState_playable settings st depth Hplay) as (ev & st' & -> & Hev).
  simpl. destruct ev as [v|]; [by eauto|].
  assert (depth ≠ search_depth settings) as Hne by (intros Heq; by apply Hev).
  destruct (playable_mover st Hplay) as (pi & p & Hm). rewrite Hm. simpl.
  assert (∀ move, move ∈ getAllPossibleMoves st p →
            ∃ st1, applyMoveAndTurn st move.1 move.2 (maxStackSize settings) = Done st1
                   ∧ ∀ _ : Score, ∃ v, pureMinimax_full settings fuel st1 (depth + 1) = Done v)
    as Hmoves.
  { intros [s t] Hin.
    destruct (applyMoveAndTurn_legal st pi p s t (maxStackSize settings) Hm Hin)
      as (lm & st1 & _ & Happ).
    exists st1. split; [done|]. intros _. apply IH; [|lia|lia].
    by eapply applyMoveAndTurn_playable. }
  case_decide; by apply pureLoop_total.
Qed.


(** C2, as the code has it.  When [minimax] returns, all cells and every
    field of both players except the [winner] flag are as at entry;
    [winner] is set by [checkWin] at won nodes and is not part of what
    [undoMove] restores. *)
Theorem minimax_restores_up_to_winner (settings : Settings) (fuel : nat) (st st' : BoardState)
    (depth : Z) (alpha beta v : Score) :
  wf_state st →
  minimax settings fuel st depth alpha beta = Done (v, st') →
  cells st' = cells st
  ∧ (fun p => set_winner p false) <$> twoPlayer st'
    = (fun p => set_winner p false) <$> twoPlayer st.
Proof.
  intros Hwf Hret.
  destruct (minimax_restoring settings fuel st depth alpha beta Hwf) as [_ Hres].
  specialize (Hres v st' Hret). unfold eraseWinner in Hres. by injection Hres.
Qed.

(** ** The choice of [findBestMove] *)

Section BestMove.
Context (settings : Settings).

Lemma moveScore_pure (fuel : nat) (st : BoardState) (move : nat * nat) :
  wf_state st →
  moveScore settings fuel st move = pureMoveScore settings fuel (eraseWinner st) move.
Proof.
  intros Hwf. unfold moveScore, pureMoveScore. rewrite applyMoveAndTurn_erase.
  destruct (applyMoveAndTurn st move.1 move.2 _) as [st1| |] eqn:Happ; simpl; [|done..].
  apply minimax_restoring. by eapply applyMoveAndTurn_wf.
Qed.

(** The fold of [findBestMove] on pure scores: the final best score
    bounds every score; either nothing beat the initial score, or the
    recorded move is the first one that reaches the final score. *)
Lemma pureLoop_best (fuel : nat) (moves : list (nat * nat)) (st : BoardState)
    (best_score best : Score) (best_move chosen : option (nat * nat)) :
  pureLoop settings (fun st _ => pureMinimax settings fuel st 0 NegInf PosInf)
    nextBest moves st (best_score, best_move) = Done (best, chosen) →
  sle best_score best
  ∧ (∀ j other, moves !! j = Some other →
       ∃ s, pureMoveScore settings fuel st other = Done s ∧ sle s best)
  ∧ ((chosen = best_move ∧ best = best_score)
     ∨ ∃ i move, moves !! i = Some move ∧ chosen = Some move
         ∧ pureMoveScore settings fuel st move = Done best
         ∧ slt best_score best
         ∧ ∀ j other s, (j < i)%nat → moves !! j = Some other →
             pureMoveScore settings fuel st other = Done s → slt s best).
Proof.
  revert best_score best_move.
  induction moves as [|move rest IH]; intros best_score best_move; simpl.
  - intros Heq. injection Heq as <- <-. split; [apply sle_refl|]. split; [done|by left].
  - destruct (applyMoveAndTurn st move.1 move.2 _) as [st1| |] eqn:Happ; simpl; [|done..].
    destruct (pureMinimax settings fuel st1 0 NegInf PosInf) as [s0| |] eqn:Hs0;
      simpl; [|done..].
    assert (pureMoveScore settings fuel st move = Done s0) as Hmove.
    { unfold pureMoveScore. by rewrite Happ. }
    intros Hloop.
    destruct (decide (slt best_score s0)) as [Hbeat|Hbeat]; simpl in Hloop;
      apply IH in Hloop as (Hle & Hall & Hcase); clear IH.
    + split; [clear -Hle Hbeat; sorder|]. split.
      { intros [|j] other Hj; simpl in Hj.
        - injection Hj as <-. by exists s0.
        - by apply (Hall j). }
      right. destruct Hcase as [[-> ->]|(i & mv & Hi & Hc & Hsc & Hlt & Hearlier)].
      * exists 0%nat, move. repeat split; try done. intros j other s Hj. lia.
      * exists (S i), mv. repeat split; try done; [clear -Hlt Hbeat; sorder|].
        intros [|j] other s Hj Hother Hs; simpl in Hother.
        -- injection Hother as <-. rewrite Hmove in Hs. by injection Hs as <-.
        -- apply (Hearlier j other s); [lia|done..].
    + split; [done|]. split.
      { intros [|j] other Hj; simpl in Hj.
        - injection Hj as <-. exists s0. split; [done|]. clear -Hle Hbeat. sorder.
        - by apply (Hall j). }
      destruct Hcase as [[-> ->]|(i & mv & Hi & Hc & Hsc & Hlt & Hearlier)]; [by left|].
      right. exists (S i), mv. repeat split; try done.
      intros [|j] other s Hj Hother Hs; simpl in Hother.
      * injection Hother as <-. rewrite Hmove in Hs. injection Hs as <-.
        clear -Hlt Hbeat. sorder.
      * apply (Hearlier j other s); [lia|done..].
Qed.

Lemma findBestMove_choice (fuel : nat) (st st' : BoardState) (pi : nat) (player : Player)
    (move : nat * nat) :
  wf_state st →
  theMover st = Some (pi, player) →
  findBestMove settings fuel st = Done (move, st') →
  ∃ i best,
    getAllPossibleMoves st player !! i = Some move
    ∧ moveScore settings fuel st move = Done best
    ∧ ∀ j other, getAllPossibleMoves st player !! j = Some other →
        ∃ s, moveScore settings fuel st other = Done s
             ∧ sle s best ∧ ((j < i)%nat → slt s best).
Proof.
  intros Hwf Hm. unfold findBestMove. fold (theMover st). rewrite Hm. simpl.
  case_decide; [done|]. case_decide; [done|].
  rewrite bestLoop_searchLoop.
  edestruct (searchLoop_pure settings
               (fun st (_ : Score * option (nat * nat)) =>
                  minimax settings fuel st 0 NegInf PosInf)
               (fun st (_ : Score * option (nat * nat)) =>
                  pureMinimax settings fuel st 0 NegInf PosInf)
               nextBest (getAllPossibleMoves st player) st (NegInf, None))
    as [Hpure _]; [|done|].
  { intros st1 acc Hwf1. by apply minimax_restoring. }
  destruct (searchLoop _ _ _ _ _ _) as [[[best chosen] st2]| |]; simpl; [|done..].
  simpl in Hpure. symmetry in Hpure.
  apply pureLoop_best in Hpure as (_ & Hall & Hcase).
  assert (∀ other, moveScore settings fuel st other
                   = pureMoveScore settings fuel (eraseWinner st) other) as Hscore.
  { intros other. by apply moveScore_pure. }
  destruct Hcase as [[-> ->]|(i & mv & Hi & -> & Hsc & Hlt & Hearlier)]; simpl.
  - destruct (getAllPossibleMoves st player) as [|first rest] eqn:Hmoves; [done|].
    simpl. intros Heq. injection Heq as <- <-.
    destruct (Hall 0%nat first eq_refl) as (s & Hs & Hle).
    assert (s = NegInf) as -> by (by destruct s).
    exists 0%nat, NegInf. split; [done|]. rewrite Hscore. split; [done|].
    intros j other Hj. destruct (Hall j other Hj) as (s & Hs' & Hle').
    exists s. rewrite Hscore. split; [done|]. split; [done|lia].
  - intros Heq. injection Heq as <- <-.
    exists i, best. split; [done|]. rewrite Hscore. split; [done|].
    intros j other Hj. destruct (Hall j other Hj) as (s & Hs' & Hle').
    exists s. rewrite Hscore. split; [done|]. split; [done|].
    intros Hji. by eapply Hearlier.
Qed.

Lemma findBestMove_total (fuel : nat) (st : BoardState) (pi : nat) (player : Player) :
  playable st →
  theMover st = Some (pi, player) →
  isMaximizing player = true →
  getAllPossibleMoves st player ≠ [] →
  0 ≤ search_depth settings →
  (Z.to_nat (search_depth settings) < fuel)%nat →
  ∃ move st', findBestMove settings fuel st = Done (move, st').
Proof.
  intros Hplay Hm Hmax Hmoves Hdepth Hfuel.
  pose proof Hplay as (Hwf & _).
  unfold findBestMove. fold (theMover st). rewrite Hm. simpl.
  rewrite decide_False by (by rewrite Hmax).
  rewrite decide_False by (by destruct (getAllPossibleMoves st player)).
  rewrite bestLoop_searchLoop.
  edestruct (searchLoop_pure settings
               (fun st (_ : Score * option (nat * nat)) =>
                  minimax settings fuel st 0 NegInf PosInf)
               (fun st (_ : Score * option (nat * nat)) =>
                  pureMinimax settings fuel st 0 NegInf PosInf)
               nextBest (getAllPossibleMoves st player) st (NegInf, None))
    as [Hpure _]; [|done|].
  { intros st1 acc Hwf1. by apply minimax_restoring. }
  edestruct (pureLoop_total settings
               (fun st (_ : Score * option (nat * nat)) =>
                  pureMinimax settings fuel st 0 NegInf PosInf)
               nextBest (getAllPossibleMoves st player) (eraseWinner st) (NegInf, None))
    as [[best chosen] Hdone].
  { intros [s t] Hin.
    destruct (applyMoveAndTurn_legal st pi player s t (maxStackSize settings) Hm Hin)
      as (lm & st1 & _ & Happ).
    exists (eraseWinner st1). rewrite applyMoveAndTurn_erase. simpl. rewrite Happ.
    split; [done|]. intros _.
    assert (playable (eraseWinner st1)) as Hplay1.
    { apply playable_erase. by eapply applyMoveAndTurn_playable. }
    destruct (pureMinimax_full_total settings fuel (eraseWinner st1) 0 Hplay1 Hdepth)
      as [v Hv]; [by rewrite Z.sub_0_r|].
    destruct (pure_alphabeta settings fuel (eraseWinner st1) 0 NegInf PosInf v)
      as (r & Hr & _); [unfold slt; simpl; tauto|done|].
    by exists r. }
  rewrite Hdone in Hpure.
  apply fmap_fst_Done in Hpure as [st2 ->]. simpl.
  destruct chosen as [move|]; [by eauto|].
  destruct (getAllPossibleMoves st player) as [|first rest]; [done|]. simpl. by eauto.
Qed.

(** C9. [findBestMove] throws the invalid-invocation error when the
    player to move is not the maximizing player and the no-moves error
    when the mover has no legal move; when it returns, the returned move
    has the maximal score among the legal moves, each searched after being
    applied from depth 0 with the full window, and every earlier move in
    generation order has a strictly smaller score; on a playable board
    with the maximizing player to move and a legal move, it returns. *)
Theorem findBestMove_spec (fuel : nat) (st : BoardState) (pi : nat) (player : Player) :
  theMover st = Some (pi, player) →
  (isMaximizing player = false → findBestMove settings fuel st = Throw ErrNotMaximizing)
  ∧ (isMaximizing player = true → getAllPossibleMoves st player = [] →
     findBestMove settings fuel st = Throw ErrNoMoves)
  ∧ (wf_state st → ∀ move st', findBestMove settings fuel st = Done (move, st') →
     ∃ i best,
       getAllPossibleMoves st player !! i = Some move
       ∧ moveScore settings fuel st move = Done best
       ∧ ∀ j other, getAllPossibleMoves st player !! j = Some other →
           ∃ s, moveScore settings fuel st other = Done s
                ∧ sle s best ∧ ((j < i)%nat → slt s best))
  ∧ (playable st → isMaximizing player = true → getAllPossibleMoves st player ≠ [] →
     0 ≤ search_depth settings → (Z.to_nat (search_depth settings) < fuel)%nat →
     ∃ move st', findBestMove settings fuel st = Done (move, st')).
Proof.
  intros Hm. split; [|split; [|split]].
  - intros Hmax. unfold findBestMove. fold (theMover st). rewrite Hm. simpl.
    by rewrite decide_True.
  - intros Hmax Hnone. unfold findBestMove. fold (theMover st). rewrite Hm. simpl.
    rewrite decide_False by (by rewrite Hmax). rewrite Hnone. done.
  - intros Hwf move st' Hret. by eapply findBestMove_choice.
  - intros. by eapply findBestMove_total.
Qed.
End BestMove.

(** ** The lateral-move lock *)

Lemma applyMoveAndTurn_wf_board (st st1 : BoardState) (s t : nat) (maxStackSize : Z) :
  wf_board st →
  applyMoveAndTurn st s t maxStackSize = Done st1 →
  wf_board st1.
Proof.
  intros Hboard H.
  apply applyMoveAndTurn_Done_inv in H
    as (pi & p & srcInst & tgtInst & tgt1 & p1 & Hm & Hs & Ht & Hst & _ & _ & Hr & Hc
        & _ & _ & _ & _ & _ & _ & Hcells & _).
  unfold wf_board. rewrite Hcells.
  rewrite (fmap_insert_same _ _ s _ srcInst).
  - rewrite (fmap_insert_same _ _ t _ tgtInst); [done..|]. by rewrite Hr, Hc.
  - by rewrite list_lookup_insert_ne.
  - done.
Qed.

Lemma applyMoveAndTurn_mover (st st1 : BoardState) (s t : nat) (maxStackSize : Z)
    (pi : nat) (p : Player) (srcInst tgtInst : GridCell) :
  theMover st = Some (pi, p) →
  cells st !! s = Some srcInst →
  cells st !! t = Some tgtInst →
  applyMoveAndTurn st s t maxStackSize = Done st1 →
  ∃ p1, twoPlayer st1 = switchPlayer (<[pi := p1]> (twoPlayer st))
        ∧ turn p1 = true
        ∧ lastHorizontal p1 = bool_decide (row tgtInst = row srcInst).
Proof.
  intros Hm Hs Ht H.
  apply applyMoveAndTurn_Done_inv in H
    as (pi' & p' & srcInst' & tgtInst' & tgt1 & p1 & Hm' & Hs' & Ht' & _ & _ & _ & _ & _
        & _ & _ & _ & Hturn & Hlast & _ & _ & Hps).
  rewrite Hm in Hm'. injection Hm' as <- <-.
  rewrite Hs in Hs'. injection Hs' as <-. rewrite Ht in Ht'. injection Ht' as <-.
  exists p1. split; [done|]. split; [|done].
  apply theMover_Some in Hm as [_ Hp]. by rewrite Hturn.
Qed.

(** Two players of which exactly one is to move: after the mover [p1] has
    moved and the opponent [q1] has replied, the first mover is to move
    again and only its [turn] flag has been touched in between. *)
Lemma two_moves_players (ps : list Player) (pi : nat) (p p1 : Player) :
  turn <$> ps = [true; false] ∨ turn <$> ps = [false; true] →
  list_find (fun q => turn q = true) ps = Some (pi, p) →
  turn p1 = true →
  ∃ pj q,
    list_find (fun q => turn q = true) (switchPlayer (<[pi := p1]> ps)) = Some (pj, q)
    ∧ ∀ q1, turn q1 = true →
        list_find (fun q => turn q = true)
          (switchPlayer (<[pj := q1]> (switchPlayer (<[pi := p1]> ps))))
        = Some (pi, set_turn (set_turn p1 false) true).
Proof.
  intros Hturn Hfind Hp1.
  destruct ps as [|a [|b [|c ps]]]; simpl in Hturn; destruct Hturn as [H|H]; try done;
    injection H as Ha Hb; simpl in Hfind.
  - rewrite decide_True in Hfind by done. injection Hfind as <- <-.
    simpl. rewrite Hp1, Hb. simpl.
    exists 1%nat, (set_turn b true). split; [done|].
    intros q1 Hq1. done.
  - rewrite decide_False in Hfind by (by rewrite Ha).
    rewrite decide_True in Hfind by done. injection Hfind as <- <-.
    simpl. rewrite Hp1, Ha. simpl.
    exists 0%nat, (set_turn a true). split; [done|].
    intros q1 Hq1. simpl. rewrite Hq1. done.
Qed.

Lemma wf_board_index (st : BoardState) (i j : nat) (c d : GridCell) :
  wf_board st → cells st !! i = Some c → cells st !! j = Some d →
  row c = row d → column c = column d → i = j.
Proof.
  intros Hwf Hi Hj Hr Hc.
  pose proof (wf_board_cell_id st i c Hwf Hi) as Hci.
  pose proof (wf_board_cell_id st j d Hwf Hj) as Hcj.
  unfold cell_id in *. lia.
Qed.

(** With the lock set, a legal target is never on the row of the source. *)
Lemma locked_moves_leave_row (st : BoardState) (player : Player) (s t : nat)
    (srcInst tgtInst : GridCell) :
  wf_board st →
  lastHorizontal player = true →
  cells st !! s = Some srcInst →
  cells st !! t = Some tgtInst →
  t ∈ getLocalMoves srcInst player st →
  row tgtInst ≠ row srcInst.
Proof.
  intros Hwf Hlock Hs Ht Hin Hrow.
  apply getLocalMoves_elem in Hin as (tgt' & Ht' & Htop & Hcase).
  rewrite Ht in Ht'. injection Ht' as <-.
  destruct Hcase as [[Hcol _]|[Hfree _]]; [|congruence].
  assert (t = s) as -> by (by eapply wf_board_index).
  rewrite Hs in Ht. injection Ht as <-. by apply Htop.
Qed.

(** C10. Let exactly one of the two players be to move, let that player
    apply a lateral move (target row = source row) and let the opponent
    reply with any move.  Then the first player is to move again with the
    lock set: its legal moves from every cell are the legal ones among
    forward-1 and forward-2 only, so every legal move leaves the row of
    its source; after any such move the lock is cleared again, and the
    legal moves of that player are again taken from all six candidates. *)
Theorem lateral_lock (st0 st1 st2 : BoardState) (pi : nat) (p : Player)
    (s1 t1 s2 t2 : nat) (src1 tgt1 : GridCell) (maxStackSize : Z) :
  wf_board st0 →
  (turn <$> twoPlayer st0 = [true; false] ∨ turn <$> twoPlayer st0 = [false; true]) →
  theMover st0 = Some (pi, p) →
  cells st0 !! s1 = Some src1 →
  cells st0 !! t1 = Some tgt1 →
  row tgt1 = row src1 →
  applyMoveAndTurn st0 s1 t1 maxStackSize = Done st1 →
  applyMoveAndTurn st1 s2 t2 maxStackSize = Done st2 →
  ∃ p2,
    theMover st2 = Some (pi, p2)
    ∧ lastHorizontal p2 = true
    ∧ (∀ src, src ∈ cells st2 →
         getLocalMoves src p2 st2
         = omap (legalTarget st2 src)
             [(row src + direction src, column src);
              (row src + 2 * direction src, column src)])
    ∧ ∀ s3 t3 st3,
        (s3, t3) ∈ getAllPossibleMoves st2 p2 →
        applyMoveAndTurn st2 s3 t3 maxStackSize = Done st3 →
        (∃ src3 tgt3, cells st2 !! s3 = Some src3 ∧ cells st2 !! t3 = Some tgt3
                      ∧ row tgt3 ≠ row src3)
        ∧ ∃ p3, twoPlayer st3 !! pi = Some p3
            ∧ lastHorizontal p3 = false
            ∧ ∀ st src, wf_board st → src ∈ cells st →
                getLocalMoves src p3 st
                = omap (legalTarget st src)
                    [(row src + direction src, column src);
                     (row src + 2 * direction src, column src);
                     (row src, (column src - 1) mod 6);
                     (row src, (column src - 2) mod 6);
                     (row src, (column src + 1) mod 6);
                     (row src, (column src + 2) mod 6)].
Proof.
  intros Hwf0 Hturn Hm0 Hs1 Ht1 Hlat Happ1 Happ2.
  pose proof (applyMoveAndTurn_wf_board _ _ _ _ _ Hwf0 Happ1) as Hwf1.
  pose proof (applyMoveAndTurn_wf_board _ _ _ _ _ Hwf1 Happ2) as Hwf2.
  destruct (applyMoveAndTurn_mover _ _ _ _ _ _ _ _ _ Hm0 Hs1 Ht1 Happ1)
    as (p1 & Hps1 & Hturn1 & Hlast1).
  rewrite bool_decide_eq_true_2 in Hlast1 by done.
  destruct (two_moves_players (twoPlayer st0) pi p p1 Hturn Hm0 Hturn1)
    as (pj & q & Hm1 & Hagain).
  rewrite <- Hps1 in Hm1, Hagain. fold (theMover st1) in Hm1.
  pose proof Happ2 as Happ2'.
  apply applyMoveAndTurn_Done_inv in Happ2'
    as (pj' & q' & src2 & tgt2 & tgt2' & q1 & Hm1' & Hs2 & Ht2 & _).
  rewrite Hm1 in Hm1'. injection Hm1' as <- <-.
  destruct (applyMoveAndTurn_mover _ _ _ _ _ _ _ _ _ Hm1 Hs2 Ht2 Happ2)
    as (q1' & Hps2 & Hturnq & _).
  specialize (Hagain q1' Hturnq). rewrite <- Hps2 in Hagain. fold (theMover st2) in Hagain.
  set (p2 := set_turn (set_turn p1 false) true) in *.
  assert (lastHorizontal p2 = true) as Hlock by done.
  exists p2. split; [done|]. split; [done|]. split.
  { intros src Hin. rewrite (getLocalMoves_eq_spec st2 src p2 Hwf2 Hin).
    unfold legalMoves_spec, candidateCoords. rewrite Hlock. by rewrite app_nil_r. }
  intros s3 t3 st3 Hin Happ3.
  pose proof Hin as Hin'.
  apply getAllPossibleMoves_elem in Hin' as (src3 & Hs3 & _ & _ & Hlocal).
  pose proof Hlocal as Hlocal'.
  apply getLocalMoves_elem in Hlocal' as (tgt3 & Ht3 & _).
  pose proof (locked_moves_leave_row st2 p2 s3 t3 src3 tgt3 Hwf2 Hlock Hs3 Ht3 Hlocal)
    as Hrow.
  split; [by exists src3, tgt3|].
  destruct (applyMoveAndTurn_mover _ _ _ _ _ _ _ _ _ Hagain Hs3 Ht3 Happ3)
    as (p3 & Hps3 & _ & Hlast3).
  rewrite bool_decide_eq_false_2 in Hlast3 by done.
  exists (set_turn p3 (if turn p3 then false else true)). split; [|split; [done|]].
  { rewrite Hps3. unfold switchPlayer. rewrite list_lookup_fmap.
    rewrite list_lookup_insert_eq; [done|].
    apply theMover_Some in Hagain as [Hpi _]. by eapply lookup_lt_Some. }
  intros st src Hwf Hsrc.
  rewrite (getLocalMoves_eq_spec st src _ Hwf Hsrc).
  unfold legalMoves_spec, candidateCoords. simpl lastHorizontal. by rewrite Hlast3.
Qed.

(** * The game around the search *)

(** ** The shape of a move *)

Lemma stackLoop_layout (src tgt layout : list PlayerId) (p : Player) (mover : option Player)
    (maxStackSize : Z) :
  stackLoop src tgt (Some p) maxStackSize = Done (layout, mover) →
  layout = drop (overflowCount src tgt maxStackSize) (tgt ++ src).
Proof.
  revert tgt p. induction src as [|stone rest IH]; intros tgt p H.
  - simpl in H. injection H as <- _. unfold overflowCount. simpl.
    by rewrite app_nil_r, drop_0.
  - simpl stackLoop in H. case_decide as Hover.
    + simpl in H. apply IH in H. subst layout.
      rewrite length_app in Hover. simpl in Hover.
      assert (overflowCount (stone :: rest) tgt maxStackSize = S (length rest)) as ->.
      { unfold overflowCount. simpl length. lia. }
      assert (overflowCount rest (tail (tgt ++ [stone])) maxStackSize = length rest) as ->.
      { unfold overflowCount. rewrite length_tl, length_app. simpl. lia. }
      destruct (tgt ++ [stone]) as [|bottom stack] eqn:Hstack.
      { by destruct tgt. }
      replace (tgt ++ stone :: rest) with (bottom :: stack ++ rest).
      2: { change (bottom :: stack ++ rest) with ((bottom :: stack) ++ rest).
           rewrite <- Hstack, <- app_assoc. done. }
      done.
    + apply IH in H. subst layout.
      rewrite length_app in Hover. simpl in Hover.
      assert (overflowCount rest (tgt ++ [stone]) maxStackSize
              = overflowCount (stone :: rest) tgt maxStackSize) as ->.
      { unfold overflowCount. rewrite length_app. simpl length. lia. }
      by rewrite <- app_assoc.
Qed.

Lemma stackTowers_layout (srcInst tgtInst : GridCell) (p : Player) (maxStackSize : Z)
    (layout : list PlayerId) (mover : option Player) :
  stackTowers srcInst tgtInst (Some p) maxStackSize = Done (layout, mover) →
  layout = stackedLayout (svgLayout srcInst) (svgLayout tgtInst) maxStackSize.
Proof.
  unfold stackTowers, stackedLayout. intros H.
  case_decide as Hsrc; [done|].
  case_decide as Htgt; [by injection H as <- _|].
  case_decide; [|done]. by eapply stackLoop_layout.
Qed.

Lemma reverseOrSecure_target (srcInst tgtInst : GridCell) (layout : list PlayerId) (p : Player) :
  (reverseOrSecure srcInst tgtInst layout p).1
  = if decide (secures srcInst tgtInst) then clearedCell tgtInst
    else if decide (reverses srcInst tgtInst)
      then mkGridCell (row tgtInst) (column tgtInst) layout (- direction srcInst) true
      else mkGridCell (row tgtInst) (column tgtInst) layout (direction srcInst) (dot srcInst).
Proof.
  unfold reverseOrSecure, secures, reverses, clearedCell.
  repeat case_decide; simpl; try done;
    try (exfalso; intuition (congruence || lia));
    f_equal; lia.
Qed.

(** A move in closed form: the two cells it writes. *)
Lemma applyMoveAndTurn_cells (st st1 : BoardState) (s t : nat) (maxStackSize : Z) :
  applyMoveAndTurn st s t maxStackSize = Done st1 →
  ∃ srcInst tgtInst,
    cells st !! s = Some srcInst
    ∧ cells st !! t = Some tgtInst
    ∧ s ≠ t
    ∧ svgLayout srcInst ≠ []
    ∧ top tgtInst ≠ top srcInst
    ∧ cells st1 = <[s := clearedCell srcInst]>
                    (<[t := movedTarget srcInst tgtInst maxStackSize]> (cells st)).
Proof.
  unfold applyMoveAndTurn. intros H.
  destruct (playMove s t st maxStackSize) as [st'| |] eqn:Hplay; simpl in H; [|done..].
  injection H as <-.
  apply playMove_Done_inv in Hplay
    as (pi & p & srcInst & tgtInst & layout & v & Hm & Hs & Ht & Hst & Hstack & ->).
  destruct (stackTowers_Done_inv _ _ _ _ _ _ Hstack) as [Hsrc Htop].
  exists srcInst, tgtInst. repeat split; try done.
  simpl. rewrite reverseOrSecure_target.
  apply stackTowers_layout in Hstack. subst layout. done.
Qed.

(** A move writes the source cell, the target cell and the players, and
    nothing else: every other cell is the one it was, no cell changes its
    place on the board, and a player who did not move only sees the turn
    pass. *)
Theorem applyMoveAndTurn_frame (st st1 : BoardState) (s t : nat) (maxStackSize : Z)
    (pi : nat) (p : Player) :
  theMover st = Some (pi, p) →
  applyMoveAndTurn st s t maxStackSize = Done st1 →
  (∀ i, i ≠ s → i ≠ t → cells st1 !! i = cells st !! i)
  ∧ (∃ srcInst, cells st !! s = Some srcInst ∧ cells st1 !! s = Some (clearedCell srcInst))
  ∧ (fun c => (row c, column c)) <$> cells st1 = (fun c => (row c, column c)) <$> cells st
  ∧ (∀ j, j ≠ pi →
       twoPlayer st1 !! j = (fun q => set_turn q (negb (turn q))) <$> twoPlayer st !! j)
  ∧ roles (twoPlayer st1) = roles (twoPlayer st)
  ∧ winners st1 = winners st.
Proof.
  intros Hm H.
  pose proof (applyMoveAndTurn_roles _ _ _ _ _ H) as Hroles.
  pose proof (applyMoveAndTurn_winners _ _ _ _ _ H) as Hwin.
  destruct (applyMoveAndTurn_cells _ _ _ _ _ H)
    as (srcInst & tgtInst & Hs & Ht & Hst & Hsrc & Htop & Hcells).
  apply applyMoveAndTurn_Done_inv in H
    as (pi' & p' & _ & _ & tgt1 & p1 & Hm' & _ & _ & _ & _ & _ & _ & _ & _ & _ & _ & _ & _ & _
        & _ & Hps).
  rewrite Hm in Hm'. injection Hm' as <- <-.
  split; [|split; [|split; [|split; [|done]]]].
  - intros i His Hit. rewrite Hcells.
    by rewrite !list_lookup_insert_ne by done.
  - exists srcInst. split; [done|]. rewrite Hcells.
    apply list_lookup_insert_eq. rewrite length_insert. by eapply lookup_lt_Some.
  - rewrite Hcells.
    rewrite (fmap_insert_same _ _ s _ srcInst).
    + rewrite (fmap_insert_same _ _ t _ tgtInst); [done..|].
      unfold movedTarget. by repeat case_decide.
    + by rewrite list_lookup_insert_ne.
    + done.
  - intros j Hj. rewrite Hps. unfold switchPlayer.
    rewrite list_lookup_fmap, list_lookup_insert_ne by done.
    destruct (twoPlayer st !! j) as [q|]; [|done]. simpl. by destruct (turn q).
Qed.

(** ** Stack heights *)

Lemma stackedLayout_length (src tgt : list PlayerId) (maxStackSize : Z) :
  Z.of_nat (length src) ≤ maxStackSize →
  Z.of_nat (length tgt) ≤ maxStackSize →
  Z.of_nat (length (stackedLayout src tgt maxStackSize)) ≤ maxStackSize.
Proof.
  intros Hsrc Htgt. unfold stackedLayout. case_decide; [done|].
  rewrite length_drop, length_app. unfold overflowCount. lia.
Qed.

Lemma movedTarget_height (srcInst tgtInst : GridCell) (maxStackSize : Z) :
  Z.of_nat (length (svgLayout srcInst)) ≤ maxStackSize →
  Z.of_nat (length (svgLayout tgtInst)) ≤ maxStackSize →
  Z.of_nat (length (svgLayout (movedTarget srcInst tgtInst maxStackSize))) ≤ maxStackSize.
Proof.
  intros Hsrc Htgt. pose proof (stackedLayout_length _ _ _ Hsrc Htgt).
  unfold movedTarget. repeat case_decide; simpl; lia.
Qed.

Lemma applyMoveAndTurn_heightBounded (st st1 : BoardState) (s t : nat) (maxStackSize : Z) :
  heightBounded maxStackSize (cells st) →
  applyMoveAndTurn st s t maxStackSize = Done st1 →
  heightBounded maxStackSize (cells st1).
Proof.
  unfold heightBounded. intros Hb H.
  destruct (applyMoveAndTurn_cells _ _ _ _ _ H)
    as (srcInst & tgtInst & Hs & Ht & Hst & Hsrc & Htop & ->).
  pose proof (Forall_lookup_1 _ _ _ _ Hb Hs) as Hhs.
  pose proof (Forall_lookup_1 _ _ _ _ Hb Ht) as Hht.
  simpl in Hhs, Hht.
  apply Forall_insert; [apply Forall_insert; [done|]|].
  - by apply movedTarget_height.
  - simpl. lia.
Qed.

(** ** Orientation *)

Lemma stackedLayout_last (src tgt : list PlayerId) (maxStackSize : Z) :
  src ≠ [] → last (stackedLayout src tgt maxStackSize) = last src.
Proof.
  intros Hsrc. unfold stackedLayout. case_decide as Htgt; [done|].
  destruct (stackLoop_Some src tgt (mkPlayer USER false false false 0 (mkVault 0 0) false)
              maxStackSize) as (layout & v & Hloop & _).
  pose proof (stackLoop_last _ _ _ _ _ _ Htgt Hloop) as Hlast.
  apply stackLoop_layout in Hloop. subst layout. rewrite Hlast.
  rewrite last_app. destruct (last src) eqn:E; [done|].
  by apply last_None in E.
Qed.

Lemma movedTarget_top (srcInst tgtInst : GridCell) (maxStackSize : Z) :
  svgLayout srcInst ≠ [] →
  top (movedTarget srcInst tgtInst maxStackSize)
  = if decide (secures srcInst tgtInst) then None else top srcInst.
Proof.
  intros Hsrc. unfold movedTarget, top.
  repeat case_decide; simpl; try done; by apply stackedLayout_last.
Qed.

Lemma movedTarget_oriented (srcInst tgtInst : GridCell) (maxStackSize : Z) :
  svgLayout srcInst ≠ [] →
  oriented srcInst →
  oriented (movedTarget srcInst tgtInst maxStackSize).
Proof.
  intros Hsrc Ho. unfold oriented. rewrite movedTarget_top by done.
  unfold oriented in Ho.
  unfold movedTarget. case_decide as Hsec; [done|].
  case_decide as Hrev; simpl.
  - destruct Hrev as [Hdot Hrev]. rewrite Hdot in Ho.
    destruct (top srcInst) as [[]|]; [lia|lia|].
    destruct Hrev as [[? _]|[? _]]; done.
  - done.
Qed.

Lemma applyMoveAndTurn_oriented (st st1 : BoardState) (s t : nat) (maxStackSize : Z) :
  Forall oriented (cells st) →
  applyMoveAndTurn st s t maxStackSize = Done st1 →
  Forall oriented (cells st1).
Proof.
  intros Hb H.
  destruct (applyMoveAndTurn_cells _ _ _ _ _ H)
    as (srcInst & tgtInst & Hs & Ht & Hst & Hsrc & Htop & ->).
  pose proof (Forall_lookup_1 _ _ _ _ Hb Hs) as Hhs.
  apply Forall_insert; [apply Forall_insert; [done|]|].
  - by apply movedTarget_oriented.
  - done.
Qed.

(** ** Stones and towers *)

Lemma sum_list_insert {A} (f : A → nat) (l : list A) (i : nat) (x y : A) :
  l !! i = Some x →
  (sum_list (f <$> <[i := y]> l) + f x = sum_list (f <$> l) + f y)%nat.
Proof.
  revert i. induction l as [|a l IH]; intros i Hi; [done|].
  destruct i as [|i]; simpl in *.
  - injection Hi as ->. lia.
  - specialize (IH i Hi). unfold fmap in *. lia.
Qed.

Lemma sumZ_insert {A} (f : A → Z) (l : list A) (i : nat) (x y : A) :
  l !! i = Some x →
  sumZ (f <$> <[i := y]> l) + f x = sumZ (f <$> l) + f y.
Proof.
  revert i. induction l as [|a l IH]; intros i Hi; [done|].
  destruct i as [|i]; simpl in *.
  - injection Hi as ->. lia.
  - specialize (IH i Hi). unfold fmap in *. lia.
Qed.

Lemma filter_drop_length {A} (P : A → Prop) `{∀ x, Decision (P x)} (k : nat) (l : list A) :
  (length (filter P (drop k l)) ≤ length (filter P l))%nat.
Proof.
  rewrite <- (take_drop k l) at 2. rewrite filter_app, length_app. lia.
Qed.

Lemma stackedLayout_stones (pid : PlayerId) (src tgt : list PlayerId) (maxStackSize : Z) :
  (length (filter (fun stone => stone = pid) (stackedLayout src tgt maxStackSize))
   ≤ length (filter (fun stone => stone = pid) tgt)
     + length (filter (fun stone => stone = pid) src))%nat.
Proof.
  unfold stackedLayout. case_decide as Htgt; [lia|].
  etrans; [apply filter_drop_length|]. by rewrite filter_app, length_app.
Qed.

Lemma stackedLayout_fits (src tgt : list PlayerId) (maxStackSize : Z) :
  tgt = [] ∨ Z.of_nat (length tgt) + Z.of_nat (length src) ≤ maxStackSize →
  stackedLayout src tgt maxStackSize = tgt ++ src.
Proof.
  unfold stackedLayout. intros [->|Hfit]; [done|].
  case_decide as Htgt; [by subst|].
  unfold overflowCount.
  replace (Z.to_nat _) with 0%nat by lia. by rewrite Nat.min_0_r, drop_0.
Qed.

Lemma applyMoveAndTurn_stones_eq (st st1 : BoardState) (s t : nat) (maxStackSize : Z)
    (srcInst tgtInst : GridCell) (pid : PlayerId) :
  cells st !! s = Some srcInst →
  cells st !! t = Some tgtInst →
  applyMoveAndTurn st s t maxStackSize = Done st1 →
  let f := fun c : GridCell => length (filter (fun stone => stone = pid) (svgLayout c)) in
  (stonesOf pid (cells st1) + f srcInst + f tgtInst
   = stonesOf pid (cells st) + f (movedTarget srcInst tgtInst maxStackSize))%nat.
Proof.
  intros Hs Ht H f.
  destruct (applyMoveAndTurn_cells _ _ _ _ _ H)
    as (srcInst' & tgtInst' & Hs' & Ht' & Hst & Hsrc & Htop & Hcells).
  rewrite Hs in Hs'. rewrite Ht in Ht'. injection Hs' as <-. injection Ht' as <-.
  unfold stonesOf. rewrite Hcells. fold f.
  assert (<[t := movedTarget srcInst tgtInst maxStackSize]> (cells st) !! s = Some srcInst)
    as Hs1 by by rewrite list_lookup_insert_ne.
  pose proof (sum_list_insert f _ s srcInst (clearedCell srcInst) Hs1) as E1.
  pose proof (sum_list_insert f _ t tgtInst (movedTarget srcInst tgtInst maxStackSize) Ht)
    as E2.
  assert (f (clearedCell srcInst) = 0%nat) as E3 by done.
  lia.
Qed.

Lemma applyMoveAndTurn_stones_le (st st1 : BoardState) (s t : nat) (maxStackSize : Z)
    (pid : PlayerId) :
  applyMoveAndTurn st s t maxStackSize = Done st1 →
  (stonesOf pid (cells st1) ≤ stonesOf pid (cells st))%nat.
Proof.
  intros H.
  destruct (applyMoveAndTurn_cells _ _ _ _ _ H) as (srcInst & tgtInst & Hs & Ht & _).
  pose proof (applyMoveAndTurn_stones_eq _ _ _ _ _ _ _ pid Hs Ht H) as E. simpl in E.
  pose proof (stackedLayout_stones pid (svgLayout srcInst) (svgLayout tgtInst) maxStackSize).
  revert E. unfold movedTarget. repeat case_decide; simpl; lia.
Qed.

(** No move puts a stone on the board: for either colour, the stones on
    the board after a move are at most those before it, and exactly those
    when nothing overflows and no tower is secured. *)
Theorem applyMoveAndTurn_stones (st st1 : BoardState) (s t : nat) (maxStackSize : Z)
    (srcInst tgtInst : GridCell) (pid : PlayerId) :
  cells st !! s = Some srcInst →
  cells st !! t = Some tgtInst →
  applyMoveAndTurn st s t maxStackSize = Done st1 →
  (stonesOf pid (cells st1) ≤ stonesOf pid (cells st))%nat
  ∧ (¬ secures srcInst tgtInst →
     svgLayout tgtInst = []
     ∨ Z.of_nat (length (svgLayout tgtInst)) + Z.of_nat (length (svgLayout srcInst))
       ≤ maxStackSize →
     stonesOf pid (cells st1) = stonesOf pid (cells st)).
Proof.
  intros Hs Ht H. split; [by eapply applyMoveAndTurn_stones_le|].
  intros Hsec Hfit.
  pose proof (applyMoveAndTurn_stones_eq _ _ _ _ _ _ _ pid Hs Ht H) as E. simpl in E.
  revert E. unfold movedTarget. rewrite decide_False by done.
  rewrite stackedLayout_fits by done.
  case_decide; simpl; rewrite filter_app, length_app; lia.
Qed.

(** A move takes a tower from a side exactly when it lands on a tower of
    that side, and removes a tower of the moving side exactly when that
    tower is secured; the number of towers changes in no other way. *)
Theorem applyMoveAndTurn_towers (st st1 : BoardState) (s t : nat) (maxStackSize : Z)
    (srcInst tgtInst : GridCell) (pid : PlayerId) :
  cells st !! s = Some srcInst →
  cells st !! t = Some tgtInst →
  applyMoveAndTurn st s t maxStackSize = Done st1 →
  countTowers pid (cells st1)
  = countTowers pid (cells st)
    - (if decide (top tgtInst = Some pid) then 1 else 0)
    - (if decide (top srcInst = Some pid ∧ secures srcInst tgtInst) then 1 else 0).
Proof.
  intros Hs Ht H.
  destruct (applyMoveAndTurn_cells _ _ _ _ _ H)
    as (srcInst' & tgtInst' & Hs' & Ht' & Hst & Hsrc & Htop & Hcells).
  rewrite Hs in Hs'. rewrite Ht in Ht'. injection Hs' as <-. injection Ht' as <-.
  unfold countTowers. rewrite Hcells.
  set (f := fun c : GridCell => if decide (isTower pid c) then 1 else 0).
  assert (<[t := movedTarget srcInst tgtInst maxStackSize]> (cells st) !! s = Some srcInst)
    as Hs1 by by rewrite list_lookup_insert_ne.
  pose proof (sumZ_insert f _ s srcInst (clearedCell srcInst) Hs1) as E1.
  pose proof (sumZ_insert f _ t tgtInst (movedTarget srcInst tgtInst maxStackSize) Ht) as E2.
  assert (f (clearedCell srcInst) = 0) as E3.
  { unfold f. by rewrite decide_False. }
  pose proof (movedTarget_top srcInst tgtInst maxStackSize Hsrc) as Hmt.
  assert (f srcInst = if decide (top srcInst = Some pid) then 1 else 0) as E4 by done.
  assert (f tgtInst = if decide (top tgtInst = Some pid) then 1 else 0) as E5 by done.
  assert (f (movedTarget srcInst tgtInst maxStackSize)
          = if decide (top srcInst = Some pid ∧ ¬ secures srcInst tgtInst) then 1 else 0) as E6.
  { unfold f.
    assert (isTower pid (movedTarget srcInst tgtInst maxStackSize)
            ↔ top srcInst = Some pid ∧ ¬ secures srcInst tgtInst) as Hiff.
    { unfold isTower. rewrite Hmt.
      destruct (decide (secures srcInst tgtInst)) as [Hsec|Hsec].
      - split; [done|]. by intros [_ Hn].
      - split; [done|]. by intros [? _]. }
    by apply decide_ext. }
  rewrite E3, E4, E5, E6 in *.
  repeat case_decide; try lia; exfalso;
    try tauto; try (apply Htop; etrans; [eassumption|]; symmetry; tauto).
Qed.

(** ** The boards of a game *)

Lemma createBoard_initialBoard : createBoard 36 = initialBoard.
Proof. vm_compute. reflexivity. Qed.

Lemma playable_same_erase (st st' : BoardState) :
  eraseWinner st = eraseWinner st' → playable st → playable st'.
Proof.
  intros He (Hwf & Hturn & Hbot & Hsafe).
  split; [|split; [|split]].
  - by eapply wf_state_erase.
  - assert (∀ b, turn <$> twoPlayer b = turn <$> twoPlayer (eraseWinner b)) as Ht.
    { intros b. simpl. by rewrite <- list_fmap_compose. }
    by rewrite Ht, <- He, <- Ht.
  - eapply botMaximizes_roles; [|done]. by apply eraseWinner_roles.
  - by rewrite <- (eraseWinner_cells _ _ He).
Qed.

Lemma checkWin_same_erase (st st1 : BoardState) (pi : nat) (settings : Settings) (b : bool) :
  checkWin st pi settings = Done (b, st1) → eraseWinner st = eraseWinner st1.
Proof. intros H. apply checkWin_Done_erase in H as [He _]. done. Qed.

Lemma reachable_playable (settings : Settings) (st : BoardState) :
  reachable settings st → playable st.
Proof.
  induction 1 as [|st st1 pi player s t Hreach IH Hm Hmove Happ
                  |st st1 pi b Hreach IH Hcheck].
  - rewrite createBoard_initialBoard. by_compute.
  - by eapply applyMoveAndTurn_playable.
  - eapply playable_same_erase; [|done]. by eapply checkWin_same_erase.
Qed.

(** Every board of a game satisfies the invariants the rules engine and
    the search rely on: the board layout and the capped counters, exactly one
    player to move, no reversed tower on its origin row, a direction that
    fits each tower, no stack above the limit, and at most the twelve stones
    of either colour that the game starts with. *)
Theorem reachable_invariants (settings : Settings) (st : BoardState) :
  reachable settings st →
  playable st
  ∧ Forall oriented (cells st)
  ∧ (1 ≤ maxStackSize settings → heightBounded (maxStackSize settings) (cells st))
  ∧ ∀ pid, (stonesOf pid (cells st) ≤ 12)%nat.
Proof.
  intros Hreach. split; [by eapply reachable_playable|].
  induction Hreach as [|st st1 pi player s t Hreach IH Hm Hmove Happ
                       |st st1 pi b Hreach IH Hcheck].
  - rewrite createBoard_initialBoard.
    split; [by_compute|]. split.
    + intros Hmax. eapply Forall_impl; [|intros c Hc; etrans; [exact Hc|exact Hmax]].
      by_compute.
    + intros []; vm_compute; lia.
  - destruct IH as (Hor & Hh & Hstones).
    split; [by eapply applyMoveAndTurn_oriented|].
    split.
    + intros Hmax. eapply applyMoveAndTurn_heightBounded; [by apply Hh|done].
    + intros pid.
      pose proof (applyMoveAndTurn_stones_le _ _ _ _ _ pid Happ).
      specialize (Hstones pid). lia.
  - apply checkWin_same_erase in Hcheck.
    by rewrite <- (eraseWinner_cells _ _ Hcheck).
Qed.

(** ** The search on an arbitrary window *)


(** ** [findBestMove] and the board *)

Lemma findBestMove_Done_inv (settings : Settings) (fuel : nat) (st st' : BoardState)
    (pi : nat) (player : Player) (move : nat * nat) :
  wf_state st →
  theMover st = Some (pi, player) →
  findBestMove settings fuel st = Done (move, st') →
  move ∈ getAllPossibleMoves st player ∧ eraseWinner st' = eraseWinner st.
Proof.
  intros Hwf Hm Hfind.
  destruct (findBestMove_choice settings fuel st st' pi player move Hwf Hm Hfind)
    as (i & best & Hi & _).
  split; [by eapply list_elem_of_lookup_2|].
  revert Hfind. unfold findBestMove. fold (theMover st). rewrite Hm. simpl.
  case_decide; [done|]. case_decide; [done|].
  rewrite bestLoop_searchLoop.
  edestruct (searchLoop_pure settings
               (fun st (_ : Score * option (nat * nat)) =>
                  minimax settings fuel st 0 NegInf PosInf)
               (fun st (_ : Score * option (nat * nat)) =>
                  pureMinimax settings fuel st 0 NegInf PosInf)
               nextBest (getAllPossibleMoves st player) st (NegInf, None))
    as [_ Hres]; [|done|].
  { intros st1 acc Hwf1. by apply minimax_restoring. }
  destruct (searchLoop _ _ _ _ _ _) as [[[b chosen] st2]| |]; simpl; [|done..].
  specialize (Hres _ _ eq_refl).
  destruct chosen as [mv|]; simpl.
  - intros Heq. by injection Heq as <- <-.
  - destruct (getAllPossibleMoves st player !! 0%nat); simpl; [|done].
    intros Heq. by injection Heq as <- <-.
Qed.

(** [findBestMove] returns one of the moves of [getAllPossibleMoves] for the
    player to move and hands the board back as it found it, [winner] flags
    apart: the 36 cells and every other field of both players are those of
    the board it was called with. *)
Theorem findBestMove_restores (settings : Settings) (fuel : nat) (st st' : BoardState)
    (pi : nat) (player : Player) (move : nat * nat) :
  wf_state st →
  theMover st = Some (pi, player) →
  findBestMove settings fuel st = Done (move, st') →
  move ∈ getAllPossibleMoves st player
  ∧ cells st' = cells st
  ∧ (fun p => set_winner p false) <$> twoPlayer st'
    = (fun p => set_winner p false) <$> twoPlayer st.
Proof.
  intros Hwf Hm Hfind.
  destruct (findBestMove_Done_inv settings fuel st st' pi player move Hwf Hm Hfind)
    as [Hin He].
  split; [done|]. unfold eraseWinner in He. by injection He.
Qed.

(** ** Restart and replay *)

Lemma createFromStructuredClone_id (st : BoardState) : createFromStructuredClone st = st.
Proof.
  unfold createFromStructuredClone. destruct st as [cs ps]. simpl. f_equal.
  - rewrite <- (list_fmap_id cs) at 2. apply list_fmap_ext. by intros i [].
  - rewrite <- (list_fmap_id ps) at 2. apply list_fmap_ext. by intros i [? ? ? ? ? [] ?].
Qed.

Lemma cloneInstance_id (st : BoardState) : cloneInstance st = st.
Proof. apply createFromStructuredClone_id. Qed.

Lemma roles_createPlayer (ps : list Player) :
  roles ps = roles createPlayer →
  ∃ p q, ps = [p; q] ∧ id p = BOT ∧ isMaximizing p = true
         ∧ id q = USER ∧ isMaximizing q = false.
Proof.
  destruct ps as [|p [|q [|r ps]]]; try done.
  unfold roles. simpl. intros H. injection H as ? ? ? ?. by exists p, q.
Qed.

(** A restart gives the board of [createBoard] whatever was played before:
    [resetGame] on any board with the 36 cells in place and the two players
    of [createPlayer] is the initial board with both flags cleared. *)
Theorem resetGame_createBoard (dom : DomBoard) :
  wf_board (boardState dom) →
  roles (twoPlayer (boardState dom)) = roles createPlayer →
  GameEventLoop.resetGame dom = mkDomBoard (createBoard 36) false false.
Proof.
  intros Hwf Hroles. unfold GameEventLoop.resetGame. f_equal.
  unfold createBoard. f_equal.
  - assert (clearedCell <$> cells (boardState dom)
            = (fun rc : Z * Z => mkGridCell rc.1 rc.2 [] 0 false) <$> boardCoords) as ->.
    { rewrite <- Hwf, <- list_fmap_compose. done. }
    vm_compute. reflexivity.
  - apply roles_createPlayer in Hroles as (p & q & -> & Hp & Hmp & Hq & Hmq).
    destruct p, q. simpl in *. subst. reflexivity.
Qed.

Lemma replayCells_ok (newCells pre news cs : list GridCell) :
  newCells = pre ++ news →
  Forall2 (fun n c => row n = row c ∧ column n = column c) news cs →
  ReplayHistoryEventLoop.replayCells newCells (length pre) cs = Done news.
Proof.
  intros Hnew Hall. revert pre Hnew.
  induction Hall as [|n c news cs [Hr Hc] Hall IH]; intros pre Hnew; [done|].
  simpl. subst newCells. rewrite lookup_app_r by lia. rewrite Nat.sub_diag. simpl.
  replace (S (length pre)) with (length (pre ++ [n])) by (rewrite length_app; simpl; lia).
  rewrite (IH (pre ++ [n])).
  - simpl. rewrite <- Hr, <- Hc. by destruct n.
  - by rewrite <- app_assoc.
Qed.

Lemma list_find_id (ps : list Player) (j : nat) (r : Player) :
  NoDup (id <$> ps) → ps !! j = Some r →
  list_find (fun player => id player = id r) ps = Some (j, r).
Proof.
  intros Hnodup Hj. apply list_find_Some. split; [done|]. split; [done|].
  intros i y Hi Hlt Heq.
  assert (i = j); [|lia].
  eapply NoDup_lookup; [exact Hnodup|..].
  - by rewrite list_lookup_fmap, Hi.
  - by rewrite list_lookup_fmap, Hj, Heq.
Qed.

Lemma copyPlayer_same (r p : Player) :
  id p = id r → isMaximizing p = isMaximizing r → capped r →
  ReplayHistoryEventLoop.copyPlayer r p = r.
Proof.
  intros Hid Hmax (Hs & Hv & Ho).
  destruct r as [? ? ? ? ? [] ?], p. simpl in *. subst.
  unfold ReplayHistoryEventLoop.copyPlayer, set_winner, set_vault, set_safetyTower,
    set_lastHorizontal, set_turn. simpl.
  by rewrite !Z.min_r by lia.
Qed.

Lemma replayPlayers_ok (bot user : option Player) (ps rs : list Player) :
  Forall2 (fun p r => id p = id r ∧ isMaximizing p = isMaximizing r ∧ capped r
                      ∧ (if decide (id r = BOT) then bot else user) = Some r) ps rs →
  ReplayHistoryEventLoop.replayPlayers bot user ps = Done rs.
Proof.
  induction 1 as [|p r ps rs (Hid & Hmax & Hcap & Hfind) Hall IH]; [done|].
  simpl. rewrite IH. unfold ReplayHistoryEventLoop.replayPlayer.
  rewrite Hid.
  destruct (decide (id r = BOT)) as [Hb|Hb].
  - rewrite Hfind. simpl. rewrite (copyPlayer_same r p) by done.
    rewrite decide_False by (by rewrite Hid, Hb). done.
  - simpl. rewrite decide_True by (rewrite Hid; by destruct (id r)).
    rewrite Hfind. simpl. by rewrite (copyPlayer_same r p).
Qed.

(** Replay restores exactly what was logged: on a live board with the 36
    cells in place and the same two players, [replayToSelectedBoardState]
    with the board state of a record makes the live board equal to that
    board state, the cells and every field of both players, and leaves the
    two flags alone. *)
Theorem replayToSelectedBoardState_restores (record : BoardState) (dom : DomBoard) :
  wf_state record →
  wf_board (boardState dom) →
  roles (twoPlayer (boardState dom)) = roles (twoPlayer record) →
  ReplayHistoryEventLoop.replayToSelectedBoardState record dom
  = Done (set_boardState dom record).
Proof.
  intros (Hwfr & Hnodup & Hcap) Hwfd Hroles.
  unfold ReplayHistoryEventLoop.replayToSelectedBoardState.
  rewrite createFromStructuredClone_id.
  change 0%nat with (length (@nil GridCell)).
  rewrite (replayCells_ok (cells record) [] (cells record) (cells (boardState dom))); [|done|].
  2: { apply Forall2_same_length_lookup. split.
       - by rewrite (wf_board_length _ Hwfr), (wf_board_length _ Hwfd).
       - intros i n c Hn Hc.
         destruct (wf_board_lookup _ _ _ Hwfr Hn) as (_ & -> & ->).
         by destruct (wf_board_lookup _ _ _ Hwfd Hc) as (_ & -> & ->). }
  simpl.
  rewrite (replayPlayers_ok _ _ _ (twoPlayer record)).
  { simpl. unfold set_boardState. by destruct record. }
  apply Forall2_same_length_lookup. split.
  { apply (f_equal length) in Hroles. unfold roles in Hroles.
    by rewrite !length_fmap in Hroles. }
  intros j p r Hp Hr.
  pose proof (roles_lookup _ _ j Hroles) as Hj. rewrite Hp, Hr in Hj.
  destruct Hj as [Hid Hmax].
  split; [done|]. split; [done|].
  split; [by eapply Forall_lookup_1|].
  pose proof (list_find_id _ _ _ Hnodup Hr) as Hfind.
  destruct (decide (id r = BOT)) as [Hb|Hb].
  - rewrite Hb in Hfind. by rewrite Hfind.
  - assert (id r = USER) as Hu by (by destruct (id r)).
    rewrite Hu in Hfind. by rewrite Hfind.
Qed.

(** ** A round of the game loop *)

Lemma findById_lookup (st : BoardState) (i : nat) (c : GridCell) :
  wf_board st → cells st !! i = Some c →
  GameEventLoop.findById st (cell_id c) = Some i.
Proof.
  intros Hwf Hc. unfold GameEventLoop.findById.
  assert (list_find (fun cell => cell_id cell = cell_id c) (cells st) = Some (i, c)) as ->; [|done].
  apply list_find_Some. split; [done|]. split; [done|].
  intros j y Hy Hlt Heq.
  rewrite (wf_board_cell_id st j y Hwf Hy), (wf_board_cell_id st i c Hwf Hc) in Heq. lia.
Qed.

(** The players after a move on a playable board: the mover has passed
    the turn to the other player. *)
Lemma playable_after_move (st st1 : BoardState) (s t : nat) (maxStackSize : Z)
    (pi : nat) (p : Player) :
  playable st →
  theMover st = Some (pi, p) →
  applyMoveAndTurn st s t maxStackSize = Done st1 →
  ∃ p1 qi q1,
    twoPlayer st1 !! pi = Some p1
    ∧ id p1 = id p ∧ isMaximizing p1 = isMaximizing p
    ∧ GameEventLoop.findByTurn st1 false = Some pi
    ∧ GameEventLoop.findByTurn st1 true = Some qi
    ∧ theMover st1 = Some (qi, q1)
    ∧ id q1 ≠ id p1
    ∧ isMaximizing q1 = negb (isMaximizing p).
Proof.
  intros Hplay Hm Happ.
  pose proof (applyMoveAndTurn_playable _ _ _ _ _ Hplay Happ) as Hplay1.
  pose proof (applyMoveAndTurn_roles _ _ _ _ _ Happ) as Hroles.
  destruct Hplay as ((_ & Hnodup & _) & Hturn & Hbot & _).
  apply applyMoveAndTurn_Done_inv in Happ
    as (pi' & p' & _ & _ & _ & p1 & Hm' & _ & _ & _ & _ & _ & _ & _ & Hid & Hmax & _ & Ht1 & _
        & _ & _ & Hps).
  rewrite Hm in Hm'. injection Hm' as <- <-.
  apply theMover_Some in Hm as [Hpi Htp].
  unfold GameEventLoop.findByTurn, theMover. rewrite Hps.
  destruct (twoPlayer st) as [|a [|b [|c ps]]]; simpl in Hturn;
    destruct Hturn as [H|H]; try done; injection H as Ha Hb.
  all: apply Forall_cons in Hbot as [Hba Hbot]; apply Forall_cons in Hbot as [Hbb _].
  all: simpl in Hnodup; apply NoDup_cons in Hnodup as [Hne _];
    rewrite list_elem_of_singleton in Hne.
  all: destruct pi as [|[|pi]]; simpl in Hpi; try done; injection Hpi as ->;
    try congruence.
  all: unfold botMaximizes in *; simpl.
  all: rewrite ?Ht1, ?Htp, ?Ha, ?Hb; simpl.
  all: repeat (rewrite ?decide_True, ?decide_False by done; simpl).
  - exists (set_turn p1 false), 1%nat, (set_turn b true). repeat split; try done.
    + simpl. congruence.
    + simpl. destruct (isMaximizing p), (isMaximizing b), (id p), (id b);
        simpl; try done; exfalso; intuition congruence.
  - exists (set_turn p1 false), 0%nat, (set_turn a true). repeat split; try done.
    + simpl. congruence.
    + simpl. destruct (isMaximizing p), (isMaximizing a), (id p), (id a);
        simpl; try done; exfalso; intuition congruence.
Qed.

(** One round of the game loop.  On a playable live board with the user
    to move, [playUserMove] with a legal move of the user and a worker that
    answers before the timer ends in one of four ways: the user has won by
    the move (flag set, board events left disabled); the bot has no legal
    move, the worker reports the error and the call throws with the board
    events disabled and [waitForWebWorker] still set; or the bot replies
    with the move [findBestMove] chose on the board after the user's move,
    which is one of the bot's legal moves there, and either the bot has won
    (flag set, board events left disabled) or the board is playable again,
    the board events are enabled and nothing is waiting. *)
Theorem playUserMove_round (settings : Settings) (fuel : nat) (dom : DomBoard)
    (pi : nat) (player : Player) (s t : nat) :
  playable (boardState dom) →
  theMover (boardState dom) = Some (pi, player) →
  isMaximizing player = false →
  (s, t) ∈ getAllPossibleMoves (boardState dom) player →
  0 ≤ search_depth settings →
  (Z.to_nat (search_depth settings) < fuel)%nat →
  ∃ st1 user1 bi bot1,
    applyMoveAndTurn (boardState dom) s t (maxStackSize settings) = Done st1
    ∧ twoPlayer st1 !! pi = Some user1
    ∧ theMover st1 = Some (bi, bot1)
    ∧ isMaximizing bot1 = true
    ∧ (winCondition st1 user1 settings →
       GameEventLoop.playUserMove settings fuel false dom s t
       = Done (UserWon (mkDomBoard (markWinner st1 pi user1) true (waitForWebWorker dom))))
    ∧ (¬ winCondition st1 user1 settings →
       getAllPossibleMoves st1 bot1 = [] →
       GameEventLoop.playUserMove settings fuel false dom s t
       = Done (WorkerFailed (mkDomBoard st1 true true)))
    ∧ (¬ winCondition st1 user1 settings →
       getAllPossibleMoves st1 bot1 ≠ [] →
       ∃ move stw st2 bot2,
         findBestMove settings fuel st1 = Done (move, stw)
         ∧ move ∈ getAllPossibleMoves st1 bot1
         ∧ applyMoveAndTurn st1 move.1 move.2 (maxStackSize settings) = Done st2
         ∧ playable st2
         ∧ twoPlayer st2 !! bi = Some bot2
         ∧ GameEventLoop.playUserMove settings fuel false dom s t
           = Done (if decide (winCondition st2 bot2 settings)
                   then BotWon (mkDomBoard (markWinner st2 bi bot2) true false)
                   else NextTurn (mkDomBoard st2 false false))).
Proof.
  intros Hplay Hm Hmin Hmove Hdepth Hfuel.
  destruct (applyMoveAndTurn_legal _ pi player s t (maxStackSize settings) Hm Hmove)
    as (_ & st1 & _ & Happ).
  pose proof (applyMoveAndTurn_playable _ _ _ _ _ Hplay Happ) as Hplay1.
  destruct (playable_after_move _ _ _ _ _ _ _ Hplay Hm Happ)
    as (user1 & bi & bot1 & Hu1 & Hidu & Hmaxu & Hfalse1 & Htrue1 & Hm1 & Hne1 & Hmaxb).
  rewrite Hmin in Hmaxb. simpl in Hmaxb.
  exists st1, user1, bi, bot1. do 4 (split; [done|]).
  pose proof (theMover_Some _ _ _ Hm1) as [Hb1 _].
  assert (bot1 ∈ twoPlayer st1) as Hbin by (by eapply list_elem_of_lookup_2).
  pose proof (checkWin_decide st1 pi user1 bot1 settings Hu1 Hbin Hne1) as Hcheck1.
  unfold GameEventLoop.playUserMove. rewrite Happ. simpl.
  rewrite Hfalse1, Htrue1. simpl. rewrite Hcheck1. simpl.
  split; [|split].
  - intros Hwon. rewrite bool_decide_eq_true_2 by done. by rewrite decide_True.
  - intros Hnot Hnone.
    rewrite bool_decide_eq_false_2 by done. rewrite decide_False by done. simpl.
    unfold GameEventLoop.playBotMove, onMessage. simpl.
    rewrite cloneInstance_id, createFromStructuredClone_id.
    unfold findBestMove. fold (theMover st1). rewrite Hm1. simpl.
    rewrite decide_False by (by rewrite Hmaxb). rewrite Hnone. done.
  - intros Hnot Hsome.
    rewrite bool_decide_eq_false_2 by done. rewrite decide_False by done. simpl.
    destruct (findBestMove_total settings fuel st1 bi bot1 Hplay1 Hm1 Hmaxb Hsome Hdepth Hfuel)
      as ([bs bt] & stw & Hfind).
    pose proof Hplay1 as (Hwf1 & _).
    destruct (findBestMove_Done_inv settings fuel st1 stw bi bot1 (bs, bt) Hwf1 Hm1 Hfind)
      as (Hin & Hcells%eraseWinner_cells).
    destruct (applyMoveAndTurn_legal _ bi bot1 bs bt (maxStackSize settings) Hm1 Hin)
      as (_ & st2 & _ & Happ2).
    pose proof (applyMoveAndTurn_playable _ _ _ _ _ Hplay1 Happ2) as Hplay2.
    destruct (playable_after_move _ _ _ _ _ _ _ Hplay1 Hm1 Happ2)
      as (bot2 & ui & user2 & Hb2 & Hidb & Hmaxb2 & Hfalse2 & Htrue2 & Hm2 & Hne2 & _).
    exists (bs, bt), stw, st2, bot2. do 5 (split; [done|]).
    destruct (applyMoveAndTurn_cells _ _ _ _ _ Happ2)
      as (srcInst & tgtInst & Hsrc & Htgt & _).
    unfold GameEventLoop.playBotMove, onMessage. simpl.
    rewrite cloneInstance_id, createFromStructuredClone_id.
    rewrite Hfind. simpl. rewrite Hcells, Hsrc, Htgt. simpl.
    destruct Hwf1 as [Hboard1 _].
    rewrite (findById_lookup st1 bs srcInst Hboard1 Hsrc).
    rewrite (findById_lookup st1 bt tgtInst Hboard1 Htgt).
    rewrite Happ2. simpl. rewrite Hfalse2, Htrue2. simpl.
    pose proof (theMover_Some _ _ _ Hm2) as [Hu2 _].
    assert (user2 ∈ twoPlayer st2) as Huin by (by eapply list_elem_of_lookup_2).
    rewrite (checkWin_decide st2 bi bot2 user2 settings Hb2 Huin Hne2). simpl.
    destruct (decide (winCondition st2 bot2 settings)) as [Hw|Hw].
    + by rewrite bool_decide_eq_true_2.
    + by rewrite bool_decide_eq_false_2.
Qed.

(** ** Errors of a move *)

(** When a move fails.  For two cells of the board and a player to move,
    [applyMoveAndTurn] throws "source cell has no tower" exactly when the
    source cell is empty, throws "cannot stack towers of the same player"
    exactly when the source is not empty and both cells have the same top
    owner (a move of a tower onto its own cell included), and succeeds in
    every other case. *)
Theorem applyMoveAndTurn_errors (st : BoardState) (s t : nat) (maxStackSize : Z)
    (pi : nat) (p : Player) (srcInst tgtInst : GridCell) :
  theMover st = Some (pi, p) →
  cells st !! s = Some srcInst →
  cells st !! t = Some tgtInst →
  (applyMoveAndTurn st s t maxStackSize = Throw ErrNoTower ↔ svgLayout srcInst = [])
  ∧ (applyMoveAndTurn st s t maxStackSize = Throw ErrSameOwner
     ↔ svgLayout srcInst ≠ [] ∧ top srcInst = top tgtInst)
  ∧ ((∃ st1, applyMoveAndTurn st s t maxStackSize = Done st1)
     ↔ svgLayout srcInst ≠ [] ∧ top srcInst ≠ top tgtInst).
Proof.
  intros Hm Hs Ht.
  destruct (decide (svgLayout srcInst = [])) as [Hsrc|Hsrc].
  { assert (applyMoveAndTurn st s t maxStackSize = Throw ErrNoTower) as ->.
    { unfold applyMoveAndTurn, playMove. fold (theMover st). rewrite Hs, Ht, Hm. simpl.
      unfold stackTowers. by rewrite decide_True. }
    split; [done|]. split; split; try done.
    - by intros [? _].
    - by intros [? ?].
    - by intros [? _]. }
  destruct (decide (top srcInst = top tgtInst)) as [Htop|Htop].
  { assert (applyMoveAndTurn st s t maxStackSize = Throw ErrSameOwner) as ->.
    { unfold applyMoveAndTurn, playMove. fold (theMover st). rewrite Hs, Ht, Hm. simpl.
      unfold stackTowers. rewrite decide_False by done.
      rewrite decide_False.
      2: { intros Hnil. unfold top in Htop. rewrite Hnil in Htop. simpl in Htop.
           by apply last_None in Htop. }
      by rewrite decide_False by (intros Hne; by apply Hne). }
    split; [done|]. split; split; try done.
    - by intros [? ?].
    - by intros [? ?]. }
  assert (top tgtInst ≠ top srcInst) as Htop' by (intros Heq; by apply Htop).
  destruct (playMove_legal s t st maxStackSize pi p srcInst tgtInst Hm Hs Ht Hsrc Htop')
    as (layout & v & _ & _ & Hplay).
  unfold applyMoveAndTurn. rewrite Hplay. simpl.
  split; [done|]. split; split; try done.
  - by intros [_ ?].
  - intros _. eauto.
Qed.

(** ** The evaluation on the boards of a game *)

(** The error "Evaluation error for invalid material position" is never
    thrown on a board of a game: at every depth the terminal test returns,
    and at maximum depth it returns a score. *)
Theorem getTerminalNodeState_reachable (settings : Settings) (st : BoardState) (depth : Z) :
  reachable settings st →
  ∃ evaluation st',
    getTerminalNodeState settings st depth = Done (evaluation, st')
    ∧ (depth = search_depth settings → evaluation ≠ None).
Proof.
  intros Hreach. apply getTerminalNodeState_playable.
  by eapply reachable_playable.
Qed.

(** ** No move is generated twice *)

Lemma NoDup_omap_lookup {A B} (f : A → option B) (l : list A) :
  (∀ i j x y z, l !! i = Some x → l !! j = Some y → f x = Some z → f y = Some z → i = j) →
  NoDup (omap f l).
Proof.
  induction l as [|a l IH]; intros Hinj; [constructor|].
  simpl. destruct (f a) as [b|] eqn:Hfa.
  - apply NoDup_cons. split.
    + rewrite list_elem_of_omap. intros (y & Hy & Hfy).
      apply list_elem_of_lookup in Hy as [j Hj].
      by specialize (Hinj 0%nat (S j) a y b eq_refl Hj Hfa Hfy).
    + apply IH. intros i j x y z Hi Hj Hx Hy.
      specialize (Hinj (S i) (S j) x y z Hi Hj Hx Hy). lia.
  - apply IH. intros i j x y z Hi Hj Hx Hy.
    specialize (Hinj (S i) (S j) x y z Hi Hj Hx Hy). lia.
Qed.

Lemma legalTarget_Some (st : BoardState) (cellInst : GridCell) (rc : Z * Z) (z : nat) :
  legalTarget st cellInst rc = Some z →
  onBoard rc.1 rc.2 ∧ z = Z.to_nat (rc.1 * 6 + rc.2)
  ∧ ∃ tgt, cells st !! z = Some tgt ∧ top tgt ≠ top cellInst.
Proof.
  unfold legalTarget. case_decide as Hon; [|done].
  destruct (cells st !! Z.to_nat (rc.1 * 6 + rc.2)) as [tgt|] eqn:Htgt; [|done].
  simpl. case_decide; [|done]. intros Heq. injection Heq as <-. eauto.
Qed.

Lemma legalTarget_self (st : BoardState) (cellInst : GridCell) :
  wf_board st → cellInst ∈ cells st →
  legalTarget st cellInst (row cellInst, column cellInst) = None.
Proof.
  intros Hwf Hin. apply list_elem_of_lookup in Hin as [i Hi].
  destruct (legalTarget st cellInst (row cellInst, column cellInst)) as [z|] eqn:Hz; [|done].
  apply legalTarget_Some in Hz as (_ & -> & tgt & Htgt & Htop). simpl in Htgt.
  pose proof (wf_board_cell_id st i cellInst Hwf Hi) as Hid. unfold cell_id in Hid.
  rewrite Hid, Nat2Z.id, Hi in Htgt. by injection Htgt as <-.
Qed.

Lemma candidateCoords_distinct (cellInst : GridCell) (player : Player) (i j : nat)
    (a : Z * Z) :
  0 ≤ column cellInst < 6 →
  candidateCoords cellInst player !! i = Some a →
  candidateCoords cellInst player !! j = Some a →
  i ≠ j →
  a = (row cellInst, column cellInst).
Proof.
  intros Hx Hi Hj Hij. unfold candidateCoords in *.
  destruct (lastHorizontal player).
  - destruct i as [|[|i]], j as [|[|j]]; simpl in *; try done;
      injection Hi as <-; apply (inj Some) in Hj;
      pose proof (f_equal fst Hj) as Hr; simpl in Hr; f_equal; lia.
  - destruct i as [|[|[|[|[|[|i]]]]]], j as [|[|[|[|[|[|j]]]]]]; simpl in *; try done;
      injection Hi as <-; apply (inj Some) in Hj;
      pose proof (f_equal fst Hj) as Hr; pose proof (f_equal snd Hj) as Hc;
      simpl in Hr, Hc;
      try (f_equal; lia);
      exfalso; revert Hc; clear -Hx; intros Hc;
      Z.div_mod_to_equations; lia.
Qed.

Lemma getLocalMoves_NoDup (st : BoardState) (cellInst : GridCell) (player : Player) :
  wf_board st → cellInst ∈ cells st →
  NoDup (getLocalMoves cellInst player st).
Proof.
  intros Hwf Hin. rewrite getLocalMoves_eq_spec by done.
  unfold legalMoves_spec. apply NoDup_omap_lookup.
  intros i j a b z Hi Hj Ha Hb.
  destruct (decide (i = j)) as [|Hij]; [done|]. exfalso.
  assert (a = b) as <-.
  { apply legalTarget_Some in Ha as ([Ha1 Ha2] & Hza & _).
    apply legalTarget_Some in Hb as ([Hb1 Hb2] & Hzb & _).
    destruct a as [ar ac], b as [br bc]. simpl in *. f_equal; lia. }
  assert (0 ≤ column cellInst < 6) as Hx.
  { apply list_elem_of_lookup in Hin as [k Hk].
    destruct (wf_board_lookup st _ _ Hwf Hk) as (_ & _ & ->).
    apply Z.mod_pos_bound. lia. }
  rewrite (candidateCoords_distinct cellInst player i j a Hx Hi Hj Hij) in Ha.
  by rewrite legalTarget_self in Ha.
Qed.

Lemma NoDup_imap_pair {A} (l : list A) : NoDup (imap pair l).
Proof.
  apply (NoDup_fmap_1 fst). rewrite fmap_imap.
  rewrite (imap_ext _ (fun j _ => j)) by done.
  rewrite (imap_seq_0 l (fun j => j)). rewrite list_fmap_id. apply NoDup_seq.
Qed.

Lemma pushCandidate_length (cellInst : GridCell) (neighbor : option (nat * GridCell))
    (candidates : list nat) :
  (length (pushCandidate cellInst neighbor candidates) ≤ S (length candidates))%nat.
Proof.
  unfold pushCandidate. destruct neighbor as [[i n]|]; [|lia].
  case_decide; [|lia]. rewrite length_app. simpl. lia.
Qed.

Lemma owningTowers_elem (st : BoardState) (pid : PlayerId) (i : nat) (c : GridCell) :
  (i, c) ∈ owningTowers st pid → cells st !! i = Some c.
Proof.
  unfold owningTowers. intros H. apply list_elem_of_filter in H as [_ H].
  apply elem_of_lookup_imap in H as (j & y & Heq & Hy). by injection Heq as -> ->.
Qed.

(** [getAllPossibleMoves] lists no move twice and never lists a move of a
    tower onto its own cell; [getLocalMoves] returns at most six targets
    for a tower, and at most two while the lateral lock is set. *)
Theorem getAllPossibleMoves_NoDup (st : BoardState) (player : Player) :
  wf_board st →
  NoDup (getAllPossibleMoves st player)
  ∧ (∀ s t, (s, t) ∈ getAllPossibleMoves st player → s ≠ t)
  ∧ (∀ cellInst,
       (length (getLocalMoves cellInst player st)
        ≤ if lastHorizontal player then 2 else 6)%nat).
Proof.
  intros Hwf. split; [|split].
  - unfold getAllPossibleMoves. apply NoDup_bind.
    + intros [i c] [j d] [s t] Hi Hj H1 H2.
      apply list_elem_of_fmap in H1 as (? & Heq1 & _).
      apply list_elem_of_fmap in H2 as (? & Heq2 & _).
      simpl in *. injection Heq1 as -> _. injection Heq2 as -> _.
      apply owningTowers_elem in Hi, Hj. rewrite Hi in Hj. by injection Hj as ->.
    + intros [i c] Hi. apply owningTowers_elem in Hi. simpl.
      apply NoDup_fmap_2; [by intros ? ? [=]|].
      apply getLocalMoves_NoDup; [done|]. by eapply list_elem_of_lookup_2.
    + unfold owningTowers. apply NoDup_filter, NoDup_imap_pair.
  - intros s t Hin ->.
    apply getAllPossibleMoves_elem in Hin as (srcInst & Hs & _ & _ & Hin).
    apply getLocalMoves_elem in Hin as (tgtInst & Ht & Htop & _).
    rewrite Hs in Ht. injection Ht as <-. by apply Htop.
  - intros cellInst. unfold getLocalMoves.
    destruct (lastHorizontal player).
    + rewrite decide_False by done.
      repeat (etrans; [apply pushCandidate_length|apply le_n_S]). simpl. lia.
    + rewrite decide_True by done.
      repeat (etrans; [apply pushCandidate_length|apply le_n_S]). simpl. lia.
Qed.

(** ** A side without towers *)

Lemma playable_turns (st : BoardState) (pi bi ui : nat) (p bot user : Player) :
  playable st →
  theMover st = Some (pi, p) →
  list_find (fun player => isMaximizing player = true) (twoPlayer st) = Some (bi, bot) →
  list_find (fun player => isMaximizing player = false) (twoPlayer st) = Some (ui, user) →
  (isMaximizing p = false → turn bot = false)
  ∧ (isMaximizing p = true → turn user = false).
Proof.
  intros (_ & Hturn & _) Hm Hb Hu. unfold theMover in Hm.
  destruct (twoPlayer st) as [|a [|b [|c ps]]]; simpl in Hturn;
    destruct Hturn as [H|H]; try done; injection H as Ha Hb'.
  all: simpl in Hm, Hb, Hu.
  all: repeat case_decide; simplify_eq/=; split; intros; congruence.
Qed.

(** A board on which a side has no tower left is terminal for the search
    at every depth, and the side that moved last is the winner whichever
    side ran out of towers: the score is [+Infinity] when the user is to
    move; when the bot is to move it is [-Infinity], unless the bot already
    meets a threshold of its own. *)
Theorem getTerminalNodeState_wipeout (settings : Settings) (st : BoardState) (depth : Z)
    (pi : nat) (p : Player) :
  playable st →
  theMover st = Some (pi, p) →
  ¬ hasTower st USER ∨ ¬ hasTower st BOT →
  ∃ st',
    (isMaximizing p = false →
     getTerminalNodeState settings st depth = Done (Some PosInf, st'))
    ∧ (isMaximizing p = true →
       getTerminalNodeState settings st depth = Done (Some PosInf, st')
       ∨ getTerminalNodeState settings st depth = Done (Some NegInf, st')).
Proof.
  intros Hplay Hm Hnone.
  destruct (playable_players st Hplay) as (bi & ui & bot & user & Hb & Hu & Hidb & Hidu).
  destruct (playable_turns st pi bi ui p bot user Hplay Hm Hb Hu) as [Hbt Hut].
  rewrite (getTerminalNodeState_closed settings st depth bi ui bot user Hb Hu)
    by (by rewrite Hidb, Hidu).
  destruct (isMaximizing p) eqn:Hmax.
  - destruct (decide (winCondition st bot settings)) as [Hw|Hw].
    + exists (markWinner st bi bot). split; [done|]. intros _. by left.
    + exists (markWinner st ui user). split; [done|]. intros _. right.
      rewrite decide_True; [done|].
      right. right. split; [by apply Hut|]. rewrite Hidu. simpl. tauto.
  - exists (markWinner st bi bot). split; [|done]. intros _.
    rewrite decide_True; [done|].
    right. right. split; [by apply Hbt|]. rewrite Hidb. simpl. tauto.
Qed.

(** ** The bot does not miss a win *)

Lemma minimax_bot_won (settings : Settings) (fuel : nat) (st : BoardState) (depth : Z)
    (alpha beta : Score) (bi : nat) (bot : Player) :
  playable st →
  list_find (fun player => isMaximizing player = true) (twoPlayer st) = Some (bi, bot) →
  winCondition st bot settings →
  minimax settings (S fuel) st depth alpha beta = Done (PosInf, markWinner st bi bot).
Proof.
  intros Hplay Hb Hwon.
  destruct (playable_players st Hplay) as (bi' & ui & bot' & user & Hb' & Hu & Hidb & Hidu).
  rewrite Hb in Hb'. injection Hb' as <- <-.
  simpl. rewrite (getTerminalNodeState_closed settings st depth bi ui bot user Hb Hu)
    by (by rewrite Hidb, Hidu).
  by rewrite decide_True.
Qed.


(** ** The move counter and the replay cursor *)

(** The three icons of the move counter show the decimal digits of the
    move number as long as it is below 1000; from move 1000 on the hundreds
    icon is asked for a number that is no digit. *)
Theorem prettifyMoveNumber_digits (moveNo : Z) :
  0 ≤ moveNo →
  let '(hundreds, tens, ones) := prettifyMoveNumber moveNo in
  moveNo = 100 * hundreds + 10 * tens + ones
  ∧ 0 ≤ tens ≤ 9 ∧ 0 ≤ ones ≤ 9 ∧ 0 ≤ hundreds
  ∧ (hundreds ≤ 9 ↔ moveNo < 1000).
Proof.
  intros Hpos. unfold prettifyMoveNumber.
  rewrite !Z.rem_mod_nonneg by lia.
  Z.div_mod_to_equations. lia.
Qed.

(** The cursor of a reader never leaves its keys.  With at least one key
    and a generator that has not finished, [fetchRecord] asks for the
    record of a key of the reader and leaves the cursor on it; the first
    call asks for the last key whatever its argument; after a rewind with
    [-Infinity], advancing by [n] lands on the key at index [n], or on the
    last key when there are fewer. *)
Theorem fetchRecord_cursor {Key} (primaryKeys : list Key) (generator : LoggerReader.Generator) :
  primaryKeys ≠ [] →
  generator ≠ LoggerReader.Finished →
  let len := Z.of_nat (length primaryKeys) in
  (∀ advanceSteps, ∃ key cursorIndex,
     LoggerReader.fetchRecord primaryKeys advanceSteps generator
     = (LoggerReader.Fetched (Some key), LoggerReader.Suspended cursorIndex)
     ∧ 0 ≤ cursorIndex < len
     ∧ primaryKeys !! Z.to_nat cursorIndex = Some key)
  ∧ (∀ advanceSteps,
       LoggerReader.fetchRecord primaryKeys advanceSteps LoggerReader.NotStarted
       = (LoggerReader.Fetched (last primaryKeys), LoggerReader.Suspended (len - 1)))
  ∧ (∀ cursorIndex n, 0 ≤ n →
       let rewound :=
         (LoggerReader.fetchRecord primaryKeys LoggerReader.NegInfinity
            (LoggerReader.Suspended cursorIndex)).2 in
       LoggerReader.fetchRecord primaryKeys (LoggerReader.By n) rewound
       = (LoggerReader.Fetched (primaryKeys !! Z.to_nat (Z.min n (len - 1))),
          LoggerReader.Suspended (Z.min n (len - 1)))).
Proof.
  intros Hkeys Hgen len.
  assert (0 < len) as Hlen.
  { subst len. destruct primaryKeys; [done|]. simpl length. lia. }
  split; [|split].
  - intros advanceSteps. unfold LoggerReader.fetchRecord. fold len.
    destruct generator as [|c|]; [| |done].
    + rewrite decide_False by lia.
      destruct (lookup_lt_is_Some_2 primaryKeys (Z.to_nat (len - 1))) as [key Hkey]; [lia|].
      exists key, (len - 1). unfold LoggerReader.keyAt.
      rewrite decide_True by lia. rewrite Hkey. split; [done|]. split; [lia|done].
    + rewrite decide_False by lia.
      set (c1 := match advanceSteps with
                 | LoggerReader.Infinity => len - 1
                 | LoggerReader.NegInfinity => 0
                 | LoggerReader.By n => c + n
                 end).
      set (c2 := if decide (c1 < 0) then 0 else c1).
      set (c3 := if decide (len - 1 < c2) then len - 1 else c2).
      assert (0 ≤ c3 < len) as Hc3.
      { subst c3 c2. repeat case_decide; lia. }
      destruct (lookup_lt_is_Some_2 primaryKeys (Z.to_nat c3)) as [key Hkey]; [lia|].
      exists key, c3. unfold LoggerReader.keyAt.
      rewrite decide_True by lia. rewrite Hkey. done.
  - intros advanceSteps. unfold LoggerReader.fetchRecord. fold len.
    rewrite decide_False by lia. unfold LoggerReader.keyAt.
    rewrite decide_True by lia. rewrite last_lookup. do 3 f_equal. lia.
  - intros cursorIndex n Hn. simpl.
    unfold LoggerReader.fetchRecord. fold len.
    rewrite !decide_False by lia. simpl.
    rewrite (decide_False (P := len = 0)) by lia.
    rewrite (decide_False (P := 0 + n < 0)) by lia.
    unfold LoggerReader.keyAt.
    destruct (decide (len - 1 < 0 + n)).
    + rewrite decide_True by lia. by rewrite Z.min_r by lia.
    + rewrite decide_True by lia. rewrite Z.min_l by lia. by rewrite Z.add_0_l.
Qed.

(** ** The symbol of a cell *)

(** The stones of a non-empty stack joined by "_", with the dot. *)
Lemma svgSymbol_cons (x : PlayerId) (l : list PlayerId) (d : bool) :
  ∃ rest,
    svgSymbol (x :: l) d = ("tower_" +:+ PLAYER_ID x +:+ rest)%string
    ∧ match l with
      | [] => rest = if d then "_dot"%string else ""%string
      | y :: l' =>
          ∃ rest', svgSymbol (y :: l') d = ("tower_" +:+ rest')%string
                   ∧ rest = ("_" +:+ rest')%string
      end.
Proof.
  unfold svgSymbol. simpl length. rewrite !decide_False by done.
  destruct l as [|y l'].
  - exists (if d then "_dot"%string else ""%string). split; [|done].
    destruct x, d; reflexivity.
  - set (c := String.concat "_" (PLAYER_ID <$> y :: l')).
    exists ("_" +:+ (if d then c +:+ "_dot" else c))%string. split.
    + change (String.concat "_" (PLAYER_ID <$> x :: y :: l'))
        with (PLAYER_ID x +:+ "_" +:+ c)%string.
      destruct x, d; reflexivity.
    + exists (if d then c +:+ "_dot" else c)%string. split; [|done].
      simpl length. by rewrite decide_False by done.
Qed.

Lemma svgSymbol_head (y : PlayerId) (l : list PlayerId) (d : bool) (rest' : string) :
  svgSymbol (y :: l) d = ("tower_" +:+ rest')%string →
  ∃ r, rest' = (PLAYER_ID y +:+ r)%string.
Proof.
  destruct (svgSymbol_cons y l d) as (rest & -> & _).
  intros H. exists rest. cbv [String.append] in H. by injection H as <-.
Qed.

Lemma svgSymbol_inj_cons (x y : PlayerId) (l1 l2 : list PlayerId) (d1 d2 : bool) :
  svgSymbol (x :: l1) d1 = svgSymbol (y :: l2) d2 → x = y ∧ l1 = l2 ∧ d1 = d2.
Proof.
  revert x y l2. induction l1 as [|a l1 IH]; intros x y l2.
  - destruct (svgSymbol_cons x [] d1) as (r1 & -> & ->).
    destruct (svgSymbol_cons y l2 d2) as (r2 & -> & Hr2).
    destruct l2 as [|b l2].
    + subst r2. destruct x, y, d1, d2; intros H; cbv in H; done.
    + destruct Hr2 as (r2' & Hb & ->).
      apply svgSymbol_head in Hb as [r ->].
      destruct x, y, d1, b; intros H; cbv [String.append PLAYER_ID] in H; done.
  - destruct (svgSymbol_cons x (a :: l1) d1) as (r1 & -> & r1' & Ha & ->).
    destruct (svgSymbol_cons y l2 d2) as (r2 & -> & Hr2).
    destruct l2 as [|b l2].
    + subst r2. apply svgSymbol_head in Ha as [r ->].
      destruct x, y, d2, a; intros H; cbv [String.append PLAYER_ID] in H; done.
    + destruct Hr2 as (r2' & Hb & ->).
      intros H.
      assert (x = y ∧ r1' = r2') as [-> ->].
      { destruct x, y; cbv [String.append PLAYER_ID] in H; try done;
          by injection H as ->. }
      rewrite <- Hb in Ha. apply IH in Ha as (-> & -> & ->). done.
Qed.

(** The picture of a cell tells its stones and its dot: two non-empty
    stacks are drawn with the same symbol only when they hold the same
    stones in the same order and agree on the dot; an empty cell is drawn
    with "tower_none" whatever its dot, and no tower is. *)
Theorem svgSymbol_inj (l1 l2 : list PlayerId) (d1 d2 : bool) :
  (l1 ≠ [] → l2 ≠ [] → svgSymbol l1 d1 = svgSymbol l2 d2 → l1 = l2 ∧ d1 = d2)
  ∧ svgSymbol [] d1 = "tower_none"%string
  ∧ (l1 ≠ [] → svgSymbol l1 d1 ≠ "tower_none"%string).
Proof.
  split; [|split].
  - intros H1 H2 H. destruct l1 as [|x l1], l2 as [|y l2]; try done.
    apply svgSymbol_inj_cons in H as (-> & -> & ->). done.
  - reflexivity.
  - intros H1. destruct l1 as [|x l1]; [done|].
    destruct (svgSymbol_cons x l1 d1) as (rest & -> & _).
    destruct x; intros H; cbv [String.append PLAYER_ID] in H; done.
Qed.

(** ** A player without a legal move *)

(** Inside the search a player who is to move, has not lost and has no
    legal move is scored as the loser: below the maximum depth [minimax]
    returns [-Infinity] when the bot is blocked and [+Infinity] when the
    user is, on every window and without touching the board.  (At the root
    [findBestMove] throws "could not determine possible moves" instead.) *)
Theorem minimax_blocked (settings : Settings) (fuel : nat) (st : BoardState) (depth : Z)
    (alpha beta : Score) (pi : nat) (p : Player) :
  playable st →
  theMover st = Some (pi, p) →
  getAllPossibleMoves st p = [] →
  (∀ q, q ∈ twoPlayer st → ¬ winCondition st q settings) →
  depth ≠ search_depth settings →
  minimax settings (S fuel) st depth alpha beta
  = Done (if isMaximizing p then NegInf else PosInf, st).
Proof.
  intros Hplay Hm Hnone Hnowin Hdepth.
  destruct (playable_players st Hplay) as (bi & ui & bot & user & Hb & Hu & Hidb & Hidu).
  simpl. rewrite (getTerminalNodeState_closed settings st depth bi ui bot user Hb Hu)
    by (by rewrite Hidb, Hidu).
  apply list_find_Some in Hb as (Hbl & _). apply list_find_Some in Hu as (Hul & _).
  rewrite decide_False by (apply Hnowin; by eapply list_elem_of_lookup_2).
  rewrite decide_False by (apply Hnowin; by eapply list_elem_of_lookup_2).
  rewrite decide_False by done. simpl.
  unfold theMover in Hm. rewrite Hm. simpl. rewrite Hnone.
  by destruct (isMaximizing p).
Qed.

(** ** The settings *)

Lemma get_assign_eq (obj : ConfigState.SettingsObject) (key : string)
    (val : ConfigState.JsNumber) :
  ConfigState.get (ConfigState.assign obj key val) key = Some val.
Proof.
  induction obj as [|[k v] obj IH]; simpl.
  - by rewrite decide_True.
  - destruct (decide (k = key)) as [->|Hne]; simpl.
    + by rewrite decide_True.
    + by rewrite decide_False.
Qed.

Lemma get_assign_ne (obj : ConfigState.SettingsObject) (key key' : string)
    (val : ConfigState.JsNumber) :
  key ≠ key' →
  ConfigState.get (ConfigState.assign obj key val) key' = ConfigState.get obj key'.
Proof.
  intros Hne. induction obj as [|[k v] obj IH]; simpl.
  - by rewrite decide_False.
  - destruct (decide (k = key)) as [->|Hk]; simpl.
    + by rewrite !decide_False.
    + by rewrite IH.
Qed.

Lemma assign_noNaN (obj : ConfigState.SettingsObject) (key : string) (q : Qc) :
  Forall (fun kv => kv.2 ≠ None) obj →
  Forall (fun kv => kv.2 ≠ None) (ConfigState.assign obj key (Some q)).
Proof.
  induction 1 as [|[k v] obj Hv Hall IH]; simpl.
  - by repeat constructor.
  - case_decide; constructor; done.
Qed.

Lemma copyEntries_noNaN (entries target : ConfigState.SettingsObject) :
  Forall (fun kv => kv.2 ≠ None) target →
  Forall (fun kv => kv.2 ≠ None) (ConfigState.copyEntries entries target).1.
Proof.
  revert target. induction entries as [|[key [q|]] entries IH]; intros target Ht; simpl.
  - done.
  - apply IH. by apply assign_noNaN.
  - done.
Qed.

Lemma copyEntries_thrown (entries target : ConfigState.SettingsObject) :
  (ConfigState.copyEntries entries target).2 = false
  ↔ Forall (fun kv => kv.2 ≠ None) entries.
Proof.
  revert target. induction entries as [|[key [q|]] entries IH]; intros target; simpl.
  - done.
  - rewrite IH. split; [by constructor|]. by intros [_ ?]%Forall_cons.
  - split; [done|]. by intros [? _]%Forall_cons.
Qed.

Lemma copyEntries_get (entries target : ConfigState.SettingsObject) (key : string) :
  NoDup entries.*1 →
  (ConfigState.copyEntries entries target).2 = false →
  ConfigState.get (ConfigState.copyEntries entries target).1 key
  = match ConfigState.get entries key with
    | Some val => Some val
    | None => ConfigState.get target key
    end.
Proof.
  revert target. induction entries as [|[k [q|]] entries IH]; intros target Hnd Hok; simpl in *.
  - done.
  - apply NoDup_cons in Hnd as [Hk Hnd]. rewrite (IH _ Hnd Hok).
    destruct (decide (k = key)) as [->|Hne].
    + assert (ConfigState.get entries key = None) as ->.
      { clear -Hk. induction entries as [|[k' v'] entries IH]; simpl in *; [done|].
        rewrite not_elem_of_cons in Hk. destruct Hk as [Hne Hk].
        rewrite decide_False by done. by apply IH. }
      by rewrite get_assign_eq.
    + destruct (ConfigState.get entries key); [done|]. by rewrite get_assign_ne.
  - done.
Qed.

Lemma copyEntries_app (pre post target : ConfigState.SettingsObject) :
  Forall (fun kv => kv.2 ≠ None) pre →
  ConfigState.copyEntries (pre ++ post) target
  = ConfigState.copyEntries post (ConfigState.copyEntries pre target).1.
Proof.
  revert target. induction pre as [|[k [q|]] pre IH]; intros target Hpre; simpl.
  - done.
  - apply IH. by apply Forall_cons in Hpre as [_ ?].
  - by apply Forall_cons in Hpre as [? _].
Qed.

(** A setter of [Settings] never stores [NaN] and never changes the
    identifier of its group.  It returns without throwing exactly when the
    value carries the identifier of the group and none of its entries is
    [NaN]; the group then holds the entries of the value and keeps every
    other entry it had.  When an entry is [NaN] the setter throws after it
    has written the entries before that one. *)
Theorem setGroup_spec (expectedId : string) (value current : ConfigState.Group) :
  expectedId ≠ ""%string →
  let r := ConfigState.setGroup expectedId value current in
  let noNaN := Forall (fun kv : string * ConfigState.JsNumber => kv.2 ≠ None) in
  (noNaN (ConfigState.groupSettings current) → noNaN (ConfigState.groupSettings r.1))
  ∧ ConfigState.groupId r.1 = ConfigState.groupId current
  ∧ (r.2 = false
     ↔ ConfigState.groupId value = expectedId ∧ noNaN (ConfigState.groupSettings value))
  ∧ (NoDup (ConfigState.groupSettings value).*1 → r.2 = false →
     ∀ key, ConfigState.get (ConfigState.groupSettings r.1) key
            = match ConfigState.get (ConfigState.groupSettings value) key with
              | Some val => Some val
              | None => ConfigState.get (ConfigState.groupSettings current) key
              end)
  ∧ (∀ pre key post,
       ConfigState.groupId value = expectedId →
       ConfigState.groupSettings value = pre ++ (key, None) :: post →
       noNaN pre →
       r = (ConfigState.mkGroup (ConfigState.groupId current)
              (ConfigState.copyEntries pre (ConfigState.groupSettings current)).1, true)).
Proof.
  intros Hexp r noNaN. subst r. unfold ConfigState.setGroup.
  destruct (decide (ConfigState.groupId value = ""%string
                    ∨ ConfigState.groupId value ≠ expectedId)) as [Hbad|Hok].
  - simpl. split; [done|]. split; [done|]. split; [|split].
    + split; [done|]. intros [Hid _]. exfalso. destruct Hbad as [Hb|Hb]; congruence.
    + done.
    + intros pre key post Hid. exfalso. destruct Hbad as [Hb|Hb]; congruence.
  - assert (ConfigState.groupId value = expectedId) as Hid.
    { destruct (decide (ConfigState.groupId value = expectedId)); [done|]. exfalso. tauto. }
    simpl. split; [by apply copyEntries_noNaN|]. split; [done|]. split; [|split].
    + rewrite copyEntries_thrown. tauto.
    + intros Hnd Hdone key. by apply copyEntries_get.
    + intros pre key post _ Hval Hpre. rewrite Hval.
      rewrite copyEntries_app by done. done.
Qed.

Lemma last_filter_cons {A} (P : A → Prop) `{∀ x, Decision (P x)} (x : A) (l : list A) :
  last (filter P (x :: l))
  = match last (filter P l) with
    | Some y => Some y
    | None => if decide (P x) then Some x else None
    end.
Proof.
  rewrite filter_cons. case_decide; [|by destruct (last (filter P l))].
  destruct (filter P l) as [|y l'] eqn:E; [done|].
  change (x :: y :: l') with ([x] ++ y :: l'). rewrite last_app.
  by destruct (last (y :: l')) eqn:E'; [|apply last_None in E'].
Qed.

(** The opponent weight of the safety-zone group that [saveCurrentSettings]
    hands to the setter is parsed from whichever of the two inputs
    "safetyZoneTotalDistanceWeight" and "safetyZoneOpponentWeight" comes
    last on the page: the case of the first has no [break], so that an
    input for the total-distance weight that follows the input for the
    opponent weight replaces the opponent weight by its own value. *)
Theorem readInputs_opponentWeight (Number parseFloat : string → ConfigState.JsNumber)
    (domInputs : list Main.Input) (new result : Main.NewSettings) :
  Main.readInputs Number parseFloat new domInputs = Some result →
  ConfigState.get (ConfigState.groupSettings (Main.newSafetyZoneProximity result))
    "opponentWeight"
  = match last (filter (fun input =>
                          Main.input_id input = "safetyZoneTotalDistanceWeight"%string
                          ∨ Main.input_id input = "safetyZoneOpponentWeight"%string)
                  domInputs) with
    | Some input => Some (parseFloat (Main.input_value input))
    | None => ConfigState.get (ConfigState.groupSettings (Main.newSafetyZoneProximity new))
                "opponentWeight"
    end.
Proof.
  revert new. induction domInputs as [|input domInputs IH]; intros new H.
  - simpl in H. by injection H as <-.
  - simpl in H. destruct (Main.readInput Number parseFloat new input) as [new1|] eqn:Hread;
      [|done].
    simpl in H. rewrite (IH new1 H). rewrite last_filter_cons.
    destruct (last (filter _ domInputs)); [done|].
    revert Hread. unfold Main.readInput.
    repeat case_decide; intros Hread; simplify_eq/=;
      try (exfalso; intuition congruence);
      rewrite ?get_assign_eq; try done;
      by rewrite ?get_assign_ne by done.
Qed.

(** * The theorems at concrete boards *)

Lemma applyMoveAndTurn_undoMove_witness :
  wf_state initialBoard
  ∧ theMover initialBoard = Some (1%nat, userPlayer)
  ∧ (6%nat, 12%nat) ∈ getAllPossibleMoves initialBoard userPlayer
  ∧ ∃ loggedMove st1,
      logMove initialBoard 6 12 = Done loggedMove
      ∧ applyMoveAndTurn initialBoard 6 12 3 = Done st1
      ∧ undoMove st1 loggedMove = Done initialBoard.
Proof.
  assert (wf_state initialBoard) as H1 by by_compute.
  assert (theMover initialBoard = Some (1%nat, userPlayer)) as H2 by reflexivity.
  assert ((6%nat, 12%nat) ∈ getAllPossibleMoves initialBoard userPlayer) as H3 by by_compute.
  split; [exact H1|]. split; [exact H2|]. split; [exact H3|].
  exact (applyMoveAndTurn_undoMove initialBoard 1 userPlayer 6 12 3 H1 H2 H3).
Defined.

(** C2 as stated fails: on [captureBoard] the bot captures the last user
    tower, the search returns plus infinity, and the returned board
    differs from the board at entry in the [winner] flag of the bot. *)
Lemma minimax_leaves_winner_flag :
  minimax (factorySettings 1) 2 captureBoard 0 NegInf PosInf = Done (PosInf, captureBoardWon)
  ∧ captureBoardWon ≠ captureBoard.
Proof.
  split; [vm_compute; reflexivity|].
  intros H. apply (f_equal winners) in H. vm_compute in H. discriminate H.
Qed.

Lemma minimax_restores_up_to_winner_witness :
  wf_state captureBoard
  ∧ minimax (factorySettings 1) 2 captureBoard 0 NegInf PosInf = Done (PosInf, captureBoardWon)
  ∧ cells captureBoardWon = cells captureBoard
  ∧ (fun p => set_winner p false) <$> twoPlayer captureBoardWon
    = (fun p => set_winner p false) <$> twoPlayer captureBoard.
Proof.
  assert (wf_state captureBoard) as H1 by by_compute.
  assert (minimax (factorySettings 1) 2 captureBoard 0 NegInf PosInf
          = Done (PosInf, captureBoardWon)) as H2 by (vm_compute; reflexivity).
  split; [exact H1|]. split; [exact H2|].
  exact (minimax_restores_up_to_winner (factorySettings 1) 2 captureBoard captureBoardWon
           0 NegInf PosInf PosInf H1 H2).
Defined.


Lemma getLocalMoves_spec_witness :
  wf_board sparseBoard
  ∧ mkGridCell 2 2 [USER] 1 false ∈ cells sparseBoard
  ∧ getLocalMoves (mkGridCell 2 2 [USER] 1 false) userPlayer sparseBoard
    = [20; 26; 13; 12; 15; 16]%nat.
Proof.
  assert (wf_board sparseBoard) as H1 by by_compute.
  assert (mkGridCell 2 2 [USER] 1 false ∈ cells sparseBoard) as H2 by by_compute.
  split; [exact H1|]. split; [exact H2|].
  destruct (getLocalMoves_spec sparseBoard (mkGridCell 2 2 [USER] 1 false) userPlayer H1 H2)
    as [Heq _].
  rewrite Heq. vm_compute. reflexivity.
Defined.

Lemma stackTowers_overflow_witness :
  svgLayout singleBotStone ≠ []
  ∧ svgLayout bottomUserStack ≠ []
  ∧ top singleBotStone ≠ top bottomUserStack
  ∧ self (vault botPlayer) ≤ 6 ∧ opponent (vault botPlayer) ≤ 6
  ∧ stackTowers singleBotStone bottomUserStack (Some botPlayer) 3
    = Done ([BOT; USER; BOT], Some (creditVault botPlayer [USER])).
Proof.
  assert (svgLayout singleBotStone ≠ []) as H1 by by_compute.
  assert (svgLayout bottomUserStack ≠ []) as H2 by by_compute.
  assert (top singleBotStone ≠ top bottomUserStack) as H3 by by_compute.
  assert (self (vault botPlayer) ≤ 6) as H4 by (simpl; lia).
  assert (opponent (vault botPlayer) ≤ 6) as H5 by (simpl; lia).
  split; [exact H1|]. split; [exact H2|]. split; [exact H3|]. split; [exact H4|].
  split; [exact H5|].
  destruct (stackTowers_overflow singleBotStone bottomUserStack botPlayer 3 H1 H2 H3 H4 H5)
    as [Heq _].
  exact Heq.
Defined.

Lemma playMove_reverse_and_secure_witness :
  theMover farRowBoard = Some (1%nat, userPlayer)
  ∧ cells farRowBoard !! 24%nat = Some (mkGridCell 4 0 [USER] 1 false)
  ∧ cells farRowBoard !! 30%nat = Some (mkGridCell 5 0 [] 0 false)
  ∧ top (mkGridCell 4 0 [USER] 1 false) = Some (id userPlayer)
  ∧ top (mkGridCell 5 0 [] 0 false) ≠ top (mkGridCell 4 0 [USER] 1 false)
  ∧ ∃ st1, playMove 24 30 farRowBoard 3 = Done st1
           ∧ cells st1 !! 30%nat = Some (mkGridCell 5 0 [USER] (-1) true).
Proof.
  assert (theMover farRowBoard = Some (1%nat, userPlayer)) as H1 by reflexivity.
  assert (cells farRowBoard !! 24%nat = Some (mkGridCell 4 0 [USER] 1 false)) as H2
    by reflexivity.
  assert (cells farRowBoard !! 30%nat = Some (mkGridCell 5 0 [] 0 false)) as H3
    by reflexivity.
  assert (top (mkGridCell 4 0 [USER] 1 false) = Some (id userPlayer)) as H4 by reflexivity.
  assert (top (mkGridCell 5 0 [] 0 false) ≠ top (mkGridCell 4 0 [USER] 1 false)) as H5
    by by_compute.
  split; [exact H1|]. split; [exact H2|]. split; [exact H3|]. split; [exact H4|].
  split; [exact H5|].
  destruct (playMove_reverse_and_secure 24 30 farRowBoard 3 1 userPlayer
              (mkGridCell 4 0 [USER] 1 false) (mkGridCell 5 0 [] 0 false) H1 H2 H3 H4 H5)
    as (layout & v & st1 & tgt1 & p1 & Hstack & _ & Hplay & Htgt & _ & Hrow & Hcol & Hcase).
  exists st1. split; [exact Hplay|].
  rewrite Htgt. f_equal.
  rewrite decide_True in Hcase by (split; reflexivity).
  destruct Hcase as (Hlayout & Hdir & Hdot & _).
  vm_compute in Hstack. injection Hstack as <- _.
  destruct tgt1 as [r c l d b]. simpl in *. by subst.
Defined.

Lemma checkWin_spec_witness :
  twoPlayer initialBoard !! 1%nat = Some userPlayer
  ∧ botPlayer ∈ twoPlayer initialBoard
  ∧ id botPlayer ≠ id userPlayer
  ∧ ∃ b : bool,
      checkWin initialBoard 1 (factorySettings 5)
      = Done (b, if b then markWinner initialBoard 1 userPlayer else initialBoard)
      ∧ (b = true ↔ winCondition initialBoard userPlayer (factorySettings 5)).
Proof.
  assert (twoPlayer initialBoard !! 1%nat = Some userPlayer) as H1 by reflexivity.
  assert (botPlayer ∈ twoPlayer initialBoard) as H2 by by_compute.
  assert (id botPlayer ≠ id userPlayer) as H3 by by_compute.
  split; [exact H1|]. split; [exact H2|]. split; [exact H3|].
  exact (checkWin_spec initialBoard 1 userPlayer botPlayer (factorySettings 5) H1 H2 H3).
Defined.

Lemma getTerminalNodeState_spec_witness :
  inRange (decimalSettings 2) reversedBoard
  ∧ list_find (fun player => isMaximizing player = true) (twoPlayer reversedBoard)
    = Some (0%nat, botPlayer)
  ∧ list_find (fun player => isMaximizing player = false) (twoPlayer reversedBoard)
    = Some (1%nat, userPlayer)
  ∧ id botPlayer ≠ id userPlayer
  ∧ getTerminalNodeState (decimalSettings 2) reversedBoard 2
    = Done (Some (Fin (Q2Qc (inject_Z (-38)))), reversedBoard)
  ∧ getTerminalNodeState (decimalSettings 2) reversedBoard 1 = Done (None, reversedBoard).
Proof.
  assert (inRange (decimalSettings 2) reversedBoard) as H0 by by_compute.
  assert (list_find (fun player => isMaximizing player = true) (twoPlayer reversedBoard)
          = Some (0%nat, botPlayer)) as H1 by reflexivity.
  assert (list_find (fun player => isMaximizing player = false) (twoPlayer reversedBoard)
          = Some (1%nat, userPlayer)) as H2 by reflexivity.
  assert (id botPlayer ≠ id userPlayer) as H3 by by_compute.
  split; [exact H0|]. split; [exact H1|]. split; [exact H2|]. split; [exact H3|].
  rewrite !(getTerminalNodeState_spec (decimalSettings 2) reversedBoard _ 0 1
              botPlayer userPlayer H0 H1 H2 H3).
  rewrite !(decide_False (P := winCondition _ _ _)) by by_compute.
  split.
  - rewrite decide_True by reflexivity. vm_compute. reflexivity.
  - rewrite decide_False by (simpl; lia). reflexivity.
Defined.

Lemma findBestMove_spec_witness :
  theMover initialBoardBot = Some (0%nat, set_turn botPlayer true)
  ∧ ∃ move st', findBestMove (factorySettings 1) 2 initialBoardBot = Done (move, st').
Proof.
  assert (theMover initialBoardBot = Some (0%nat, set_turn botPlayer true)) as H1
    by reflexivity.
  split; [exact H1|].
  destruct (findBestMove_spec (factorySettings 1) 2 initialBoardBot 0
              (set_turn botPlayer true) H1) as (_ & _ & _ & Hreturns).
  apply Hreturns.
  - by_compute.
  - reflexivity.
  - by_compute.
  - simpl. lia.
  - simpl. lia.
Defined.

Lemma lateral_lock_witness :
  wf_board sparseBoard
  ∧ (turn <$> twoPlayer sparseBoard = [true; false]
     ∨ turn <$> twoPlayer sparseBoard = [false; true])
  ∧ theMover sparseBoard = Some (1%nat, userPlayer)
  ∧ cells sparseBoard !! 14%nat = Some (mkGridCell 2 2 [USER] 1 false)
  ∧ cells sparseBoard !! 13%nat = Some (mkGridCell 2 1 [] 0 false)
  ∧ row (mkGridCell 2 1 [] 0 false) = row (mkGridCell 2 2 [USER] 1 false)
  ∧ applyMoveAndTurn sparseBoard 14 13 3 = Done sparseBoard1
  ∧ applyMoveAndTurn sparseBoard1 28 22 3 = Done sparseBoard2
  ∧ ∃ p2, theMover sparseBoard2 = Some (1%nat, p2) ∧ lastHorizontal p2 = true.
Proof.
  assert (wf_board sparseBoard) as H1 by by_compute.
  assert (turn <$> twoPlayer sparseBoard = [true; false]
          ∨ turn <$> twoPlayer sparseBoard = [false; true]) as H2 by by_compute.
  assert (theMover sparseBoard = Some (1%nat, userPlayer)) as H3 by reflexivity.
  assert (cells sparseBoard !! 14%nat = Some (mkGridCell 2 2 [USER] 1 false)) as H4
    by reflexivity.
  assert (cells sparseBoard !! 13%nat = Some (mkGridCell 2 1 [] 0 false)) as H5
    by reflexivity.
  assert (row (mkGridCell 2 1 [] 0 false) = row (mkGridCell 2 2 [USER] 1 false)) as H6
    by reflexivity.
  assert (applyMoveAndTurn sparseBoard 14 13 3 = Done sparseBoard1) as H7
    by (vm_compute; reflexivity).
  assert (applyMoveAndTurn sparseBoard1 28 22 3 = Done sparseBoard2) as H8
    by (vm_compute; reflexivity).
  split; [exact H1|]. split; [exact H2|]. split; [exact H3|]. split; [exact H4|].
  split; [exact H5|]. split; [exact H6|]. split; [exact H7|]. split; [exact H8|].
  destruct (lateral_lock sparseBoard sparseBoard1 sparseBoard2 1 userPlayer 14 13 28 22
              (mkGridCell 2 2 [USER] 1 false) (mkGridCell 2 1 [] 0 false) 3
              H1 H2 H3 H4 H5 H6 H7 H8) as (p2 & Hm & Hlock & _).
  exists p2. split; [exact Hm|exact Hlock].
Defined.

(** * The further theorems at concrete boards *)

Lemma applyMoveAndTurn_frame_witness :
  theMover sparseBoard = Some (1%nat, userPlayer)
  ∧ applyMoveAndTurn sparseBoard 14 13 3 = Done sparseBoard1
  ∧ (∀ i, i ≠ 14%nat → i ≠ 13%nat → cells sparseBoard1 !! i = cells sparseBoard !! i)
  ∧ winners sparseBoard1 = winners sparseBoard.
Proof.
  assert (theMover sparseBoard = Some (1%nat, userPlayer)) as H1 by reflexivity.
  assert (applyMoveAndTurn sparseBoard 14 13 3 = Done sparseBoard1) as H2
    by (vm_compute; reflexivity).
  split; [exact H1|]. split; [exact H2|].
  destruct (applyMoveAndTurn_frame sparseBoard sparseBoard1 14 13 3 1 userPlayer H1 H2)
    as (Hother & _ & _ & _ & _ & Hwinners).
  split; [exact Hother|exact Hwinners].
Defined.

Lemma applyMoveAndTurn_stones_witness :
  cells sparseBoard !! 14%nat = Some (mkGridCell 2 2 [USER] 1 false)
  ∧ cells sparseBoard !! 13%nat = Some (mkGridCell 2 1 [] 0 false)
  ∧ applyMoveAndTurn sparseBoard 14 13 3 = Done sparseBoard1
  ∧ stonesOf USER (cells sparseBoard1) = stonesOf USER (cells sparseBoard).
Proof.
  assert (cells sparseBoard !! 14%nat = Some (mkGridCell 2 2 [USER] 1 false)) as H1
    by reflexivity.
  assert (cells sparseBoard !! 13%nat = Some (mkGridCell 2 1 [] 0 false)) as H2
    by reflexivity.
  assert (applyMoveAndTurn sparseBoard 14 13 3 = Done sparseBoard1) as H3
    by (vm_compute; reflexivity).
  split; [exact H1|]. split; [exact H2|]. split; [exact H3|].
  destruct (applyMoveAndTurn_stones sparseBoard sparseBoard1 14 13 3
              (mkGridCell 2 2 [USER] 1 false) (mkGridCell 2 1 [] 0 false) USER H1 H2 H3)
    as [_ Hkept].
  apply Hkept; [by_compute|left; reflexivity].
Defined.

Lemma applyMoveAndTurn_towers_witness :
  cells captureBoard !! 18%nat = Some (mkGridCell 3 0 [BOT] (-1) false)
  ∧ cells captureBoard !! 12%nat = Some (mkGridCell 2 0 [USER] 1 false)
  ∧ applyMoveAndTurn captureBoard 18 12 3 = Done wipedBoard
  ∧ countTowers USER (cells wipedBoard) = countTowers USER (cells captureBoard) - 1 - 0.
Proof.
  assert (cells captureBoard !! 18%nat = Some (mkGridCell 3 0 [BOT] (-1) false)) as H1
    by reflexivity.
  assert (cells captureBoard !! 12%nat = Some (mkGridCell 2 0 [USER] 1 false)) as H2
    by reflexivity.
  assert (applyMoveAndTurn captureBoard 18 12 3 = Done wipedBoard) as H3
    by (vm_compute; reflexivity).
  split; [exact H1|]. split; [exact H2|]. split; [exact H3|].
  exact (applyMoveAndTurn_towers captureBoard wipedBoard 18 12 3
           (mkGridCell 3 0 [BOT] (-1) false) (mkGridCell 2 0 [USER] 1 false) USER H1 H2 H3).
Defined.

Lemma reachable_invariants_witness :
  reachable (factorySettings 2) openingBoard
  ∧ playable openingBoard
  ∧ Forall oriented (cells openingBoard)
  ∧ ∀ pid, (stonesOf pid (cells openingBoard) ≤ 12)%nat.
Proof.
  assert (reachable (factorySettings 2) openingBoard) as H1.
  { apply (reachable_move (factorySettings 2) (createBoard 36) openingBoard 1 userPlayer 6 12).
    - apply reachable_start.
    - reflexivity.
    - by_compute.
    - vm_compute; reflexivity. }
  split; [exact H1|].
  destruct (reachable_invariants (factorySettings 2) openingBoard H1)
    as (Hplayable & Horiented & _ & Hstones).
  split; [exact Hplayable|]. split; [exact Horiented|exact Hstones].
Defined.


Lemma findBestMove_restores_witness :
  wf_state initialBoardBot
  ∧ theMover initialBoardBot = Some (0%nat, set_turn botPlayer true)
  ∧ findBestMove (factorySettings 1) 2 initialBoardBot = Done ((24%nat, 18%nat), initialBoardBot)
  ∧ (24%nat, 18%nat) ∈ getAllPossibleMoves initialBoardBot (set_turn botPlayer true).
Proof.
  assert (wf_state initialBoardBot) as H1 by by_compute.
  assert (theMover initialBoardBot = Some (0%nat, set_turn botPlayer true)) as H2
    by reflexivity.
  assert (findBestMove (factorySettings 1) 2 initialBoardBot
          = Done ((24%nat, 18%nat), initialBoardBot)) as H3 by (vm_compute; reflexivity).
  split; [exact H1|]. split; [exact H2|]. split; [exact H3|].
  exact (proj1 (findBestMove_restores (factorySettings 1) 2 initialBoardBot initialBoardBot
                  0 (set_turn botPlayer true) (24%nat, 18%nat) H1 H2 H3)).
Defined.

Lemma resetGame_createBoard_witness :
  wf_board sparseBoard2
  ∧ roles (twoPlayer sparseBoard2) = roles createPlayer
  ∧ GameEventLoop.resetGame (mkDomBoard sparseBoard2 true true)
    = mkDomBoard (createBoard 36) false false.
Proof.
  assert (wf_board sparseBoard2) as H1 by by_compute.
  assert (roles (twoPlayer sparseBoard2) = roles createPlayer) as H2 by reflexivity.
  split; [exact H1|]. split; [exact H2|].
  exact (resetGame_createBoard (mkDomBoard sparseBoard2 true true) H1 H2).
Defined.

Lemma replayToSelectedBoardState_restores_witness :
  wf_state sparseBoard1
  ∧ wf_board initialBoard
  ∧ roles (twoPlayer initialBoard) = roles (twoPlayer sparseBoard1)
  ∧ ReplayHistoryEventLoop.replayToSelectedBoardState sparseBoard1
      (mkDomBoard initialBoard false false)
    = Done (mkDomBoard sparseBoard1 false false).
Proof.
  assert (wf_state sparseBoard1) as H1 by by_compute.
  assert (wf_board initialBoard) as H2 by by_compute.
  assert (roles (twoPlayer initialBoard) = roles (twoPlayer sparseBoard1)) as H3
    by reflexivity.
  split; [exact H1|]. split; [exact H2|]. split; [exact H3|].
  exact (replayToSelectedBoardState_restores sparseBoard1
           (mkDomBoard initialBoard false false) H1 H2 H3).
Defined.

Lemma playUserMove_round_witness :
  playable initialBoard
  ∧ theMover initialBoard = Some (1%nat, userPlayer)
  ∧ isMaximizing userPlayer = false
  ∧ (6%nat, 12%nat) ∈ getAllPossibleMoves initialBoard userPlayer
  ∧ 0 ≤ search_depth (factorySettings 1)
  ∧ (Z.to_nat (search_depth (factorySettings 1)) < 2)%nat
  ∧ ∃ st1 bi bot1,
      applyMoveAndTurn initialBoard 6 12 (maxStackSize (factorySettings 1)) = Done st1
      ∧ theMover st1 = Some (bi, bot1)
      ∧ isMaximizing bot1 = true.
Proof.
  assert (playable initialBoard) as H1 by by_compute.
  assert (theMover initialBoard = Some (1%nat, userPlayer)) as H2 by reflexivity.
  assert (isMaximizing userPlayer = false) as H3 by reflexivity.
  assert ((6%nat, 12%nat) ∈ getAllPossibleMoves initialBoard userPlayer) as H4 by by_compute.
  assert (0 ≤ search_depth (factorySettings 1)) as H5 by by_compute.
  assert (Z.to_nat (search_depth (factorySettings 1)) < 2)%nat as H6 by by_compute.
  split; [exact H1|]. split; [exact H2|]. split; [exact H3|]. split; [exact H4|].
  split; [exact H5|]. split; [exact H6|].
  destruct (playUserMove_round (factorySettings 1) 2 (mkDomBoard initialBoard false false)
              1 userPlayer 6 12 H1 H2 H3 H4 H5 H6)
    as (st1 & user1 & bi & bot1 & Hmove & _ & Hmover & Hbot & _).
  exists st1, bi, bot1. split; [exact Hmove|]. split; [exact Hmover|exact Hbot].
Defined.

Lemma applyMoveAndTurn_errors_witness :
  theMover sparseBoard = Some (1%nat, userPlayer)
  ∧ cells sparseBoard !! 13%nat = Some (mkGridCell 2 1 [] 0 false)
  ∧ cells sparseBoard !! 14%nat = Some (mkGridCell 2 2 [USER] 1 false)
  ∧ applyMoveAndTurn sparseBoard 13 14 3 = Throw ErrNoTower.
Proof.
  assert (theMover sparseBoard = Some (1%nat, userPlayer)) as H1 by reflexivity.
  assert (cells sparseBoard !! 13%nat = Some (mkGridCell 2 1 [] 0 false)) as H2
    by reflexivity.
  assert (cells sparseBoard !! 14%nat = Some (mkGridCell 2 2 [USER] 1 false)) as H3
    by reflexivity.
  split; [exact H1|]. split; [exact H2|]. split; [exact H3|].
  destruct (applyMoveAndTurn_errors sparseBoard 13 14 3 1 userPlayer
              (mkGridCell 2 1 [] 0 false) (mkGridCell 2 2 [USER] 1 false) H1 H2 H3)
    as (HnoTower & _).
  apply HnoTower. reflexivity.
Defined.

Lemma getTerminalNodeState_reachable_witness :
  reachable (factorySettings 2) openingBoard
  ∧ ∃ evaluation st',
      getTerminalNodeState (factorySettings 2) openingBoard 2 = Done (evaluation, st')
      ∧ evaluation ≠ None.
Proof.
  assert (reachable (factorySettings 2) openingBoard) as H1.
  { apply (reachable_move (factorySettings 2) (createBoard 36) openingBoard 1 userPlayer 6 12).
    - apply reachable_start.
    - reflexivity.
    - by_compute.
    - vm_compute; reflexivity. }
  split; [exact H1|].
  destruct (getTerminalNodeState_reachable (factorySettings 2) openingBoard 2 H1)
    as (evaluation & st' & Hrun & Hscore).
  exists evaluation, st'. split; [exact Hrun|]. apply Hscore. reflexivity.
Defined.

Lemma getAllPossibleMoves_NoDup_witness :
  wf_board initialBoard
  ∧ NoDup (getAllPossibleMoves initialBoard userPlayer)
  ∧ ∀ s t, (s, t) ∈ getAllPossibleMoves initialBoard userPlayer → s ≠ t.
Proof.
  assert (wf_board initialBoard) as H1 by by_compute.
  split; [exact H1|].
  destruct (getAllPossibleMoves_NoDup initialBoard userPlayer H1) as (Hnodup & Hdistinct & _).
  split; [exact Hnodup|exact Hdistinct].
Defined.

Lemma getTerminalNodeState_wipeout_witness :
  playable wipedBoard
  ∧ theMover wipedBoard = Some (1%nat, userPlayer)
  ∧ (¬ hasTower wipedBoard USER ∨ ¬ hasTower wipedBoard BOT)
  ∧ ∃ st', getTerminalNodeState (factorySettings 2) wipedBoard 0 = Done (Some PosInf, st').
Proof.
  assert (playable wipedBoard) as H1 by by_compute.
  assert (theMover wipedBoard = Some (1%nat, userPlayer)) as H2 by reflexivity.
  assert (¬ hasTower wipedBoard USER ∨ ¬ hasTower wipedBoard BOT) as H3
    by (left; by_compute).
  split; [exact H1|]. split; [exact H2|]. split; [exact H3|].
  destruct (getTerminalNodeState_wipeout (factorySettings 2) wipedBoard 0 1 userPlayer H1 H2 H3)
    as (st' & Huser & _).
  exists st'. apply Huser. reflexivity.
Defined.


Lemma prettifyMoveNumber_digits_witness :
  0 ≤ 123
  ∧ (let '(hundreds, tens, ones) := prettifyMoveNumber 123 in
     123 = 100 * hundreds + 10 * tens + ones
     ∧ 0 ≤ tens ≤ 9 ∧ 0 ≤ ones ≤ 9 ∧ 0 ≤ hundreds
     ∧ (hundreds ≤ 9 ↔ 123 < 1000)).
Proof.
  assert (0 ≤ 123) as H1 by lia.
  split; [exact H1|].
  exact (prettifyMoveNumber_digits 123 H1).
Defined.

Lemma fetchRecord_cursor_witness :
  [10; 20; 30] ≠ []
  ∧ LoggerReader.Suspended 1 ≠ LoggerReader.Finished
  ∧ LoggerReader.fetchRecord [10; 20; 30] (LoggerReader.By 5)
      (LoggerReader.fetchRecord [10; 20; 30] LoggerReader.NegInfinity
         (LoggerReader.Suspended 1)).2
    = (LoggerReader.Fetched (Some 30), LoggerReader.Suspended 2).
Proof.
  assert ([10; 20; 30] ≠ []) as H1 by discriminate.
  assert (LoggerReader.Suspended 1 ≠ LoggerReader.Finished) as H2 by discriminate.
  split; [exact H1|]. split; [exact H2|].
  destruct (fetchRecord_cursor [10; 20; 30] (LoggerReader.Suspended 1) H1 H2)
    as (_ & _ & Hrewind).
  assert (0 ≤ 5) as H3 by lia.
  exact (Hrewind 1 5 H3).
Defined.

Lemma minimax_blocked_witness :
  playable blockedBoard
  ∧ theMover blockedBoard
    = Some (0%nat, set_lastHorizontal (set_turn botPlayer true) true)
  ∧ getAllPossibleMoves blockedBoard (set_lastHorizontal (set_turn botPlayer true) true) = []
  ∧ Forall (fun q => ¬ winCondition blockedBoard q (factorySettings 2)) (twoPlayer blockedBoard)
  ∧ 0 ≠ search_depth (factorySettings 2)
  ∧ minimax (factorySettings 2) 1 blockedBoard 0 NegInf PosInf = Done (NegInf, blockedBoard).
Proof.
  assert (playable blockedBoard) as H1 by by_compute.
  assert (theMover blockedBoard
          = Some (0%nat, set_lastHorizontal (set_turn botPlayer true) true)) as H2
    by reflexivity.
  assert (getAllPossibleMoves blockedBoard (set_lastHorizontal (set_turn botPlayer true) true)
          = []) as H3 by (vm_compute; reflexivity).
  assert (Forall (fun q => ¬ winCondition blockedBoard q (factorySettings 2))
            (twoPlayer blockedBoard)) as H4 by by_compute.
  assert (0 ≠ search_depth (factorySettings 2)) as H5 by by_compute.
  split; [exact H1|]. split; [exact H2|]. split; [exact H3|]. split; [exact H4|].
  split; [exact H5|].
  exact (minimax_blocked (factorySettings 2) 0 blockedBoard 0 NegInf PosInf 0
           (set_lastHorizontal (set_turn botPlayer true) true) H1 H2 H3
           (fun q Hq => proj1 (Forall_forall _ _) H4 q Hq) H5).
Defined.

Lemma setGroup_spec_witness :
  "WinningRules"%string ≠ ""%string
  ∧ ConfigState.setGroup "WinningRules"
      (ConfigState.mkGroup "WinningRules"
         [("safetyZone", ConfigState.number 2); ("materialOpponent", None)]%string)
      ConfigState.factoryWinningRules
    = (ConfigState.mkGroup "WinningRules"
         [("safetyZone", ConfigState.number 2); ("materialOpponent", ConfigState.number 6);
          ("maxStackSize", ConfigState.number 3)]%string, true).
Proof.
  assert ("WinningRules"%string ≠ ""%string) as H1 by discriminate.
  split; [exact H1|].
  destruct (setGroup_spec "WinningRules"
              (ConfigState.mkGroup "WinningRules"
                 [("safetyZone", ConfigState.number 2); ("materialOpponent", None)]%string)
              ConfigState.factoryWinningRules H1)
    as (_ & _ & _ & _ & Hpartial).
  apply (Hpartial [("safetyZone", ConfigState.number 2)]%string "materialOpponent"%string []).
  - reflexivity.
  - reflexivity.
  - repeat constructor. discriminate.
Defined.

Lemma readInputs_opponentWeight_witness :
  ∃ result,
    Main.readInputs parseSlider parseSlider Main.factoryNewSettings sliderInputs = Some result
    ∧ ConfigState.get (ConfigState.groupSettings (Main.newSafetyZoneProximity result))
        "opponentWeight"
      = Some (ConfigState.number 8).
Proof.
  pose (result := default Main.factoryNewSettings
                    (Main.readInputs parseSlider parseSlider Main.factoryNewSettings
                       sliderInputs)).
  assert (Main.readInputs parseSlider parseSlider Main.factoryNewSettings sliderInputs
          = Some result) as H1 by reflexivity.
  exists result. split; [exact H1|].
  exact (readInputs_opponentWeight parseSlider parseSlider sliderInputs
           Main.factoryNewSettings result H1).
Defined.
